(** * libadlmidi-js: the struct codec, the synthesis sessions and the
      control-channel protocol, embedded in Rocq.

    Sources embedded here:
    - [src/utils/struct.js]  : operator / instrument codec;
    - [src/core.js]          : [AdlMidiCore] (direct WASM session);
    - [src/processor.js]     : [AdlMidiProcessor] (AudioWorklet session);
    - [src/libadlmidi.js]    : [AdlMidi] (main-thread protocol).

    JavaScript numbers that the code treats as integers are [Z]; the
    32-bit conversions done by the bitwise operators and the modular
    stores done by typed arrays are written out.  Byte buffers are
    [list Z].  An object property that may be absent is an [option]. *)

From Stdlib Require Import ZArith QArith.QArith_base.
From stdpp Require Import base option list gmap strings pretty.

Local Open Scope Z_scope.

(* ===================================================================== *)
(** * JavaScript integer primitives *)
(* ===================================================================== *)

Module JS.

(** [ToInt32] on an integer-valued number. *)
Definition to_int32 (z : Z) : Z := (z + 2 ^ 31) mod 2 ^ 32 - 2 ^ 31.

(** [a & b], [a | b], [a << n], [a >> n]. *)
Definition band (a b : Z) : Z := Z.land (to_int32 a) (to_int32 b).
Definition bor (a b : Z) : Z := Z.lor (to_int32 a) (to_int32 b).
Definition shl (a n : Z) : Z := to_int32 (Z.shiftl (to_int32 a) (Z.land n 31)).
Definition sar (a n : Z) : Z := Z.shiftr (to_int32 a) (Z.land n 31).

(** [!!x] for a number [x]. *)
Definition truthy (z : Z) : bool := negb (z =? 0).

(** Element conversions of typed arrays and of [DataView]. *)
Definition to_uint8 (z : Z) : Z := z mod 256.
Definition to_uint16 (z : Z) : Z := z mod 65536.
Definition to_uint32 (z : Z) : Z := z mod 2 ^ 32.
Definition signed (bits : Z) (u : Z) : Z :=
  if u <? 2 ^ (bits - 1) then u else u - 2 ^ bits.

(** [bytes[i]] where every use sits under a bitwise operator: a missing
    element is [undefined], which [ToInt32] turns into 0. *)
Definition byte_at (bytes : list Z) (i : nat) : Z := default 0 (bytes !! i).

(** Little-endian bytes of an unsigned value, lowest byte first. *)
Fixpoint le_bytes (n : nat) (u : Z) : list Z :=
  match n with
  | O => []
  | S k => u mod 256 :: le_bytes k (u / 256)
  end.

(** Little-endian read of [n] bytes starting at [off]. *)
Fixpoint le_read (n : nat) (bytes : list Z) (off : nat) : Z :=
  match n with
  | O => 0
  | S k => byte_at bytes off + 256 * le_read k bytes (S off)
  end.

(** [target.set(src, off)] and the [DataView] stores: consecutive
    element stores.  All call sites below store inside a fresh buffer of
    fixed size at constant offsets, so the [RangeError] of an overflowing
    store cannot arise; a store past the end leaves the list unchanged. *)
Fixpoint set_bytes (off : nat) (src : list Z) (bytes : list Z) : list Z :=
  match src with
  | [] => bytes
  | b :: rest => set_bytes (S off) rest (<[off := b]> bytes)
  end.

Definition setInt32 (off : nat) (v : Z) (bytes : list Z) : list Z :=
  set_bytes off (le_bytes 4 (to_uint32 v)) bytes.
Definition setInt16 (off : nat) (v : Z) (bytes : list Z) : list Z :=
  set_bytes off (le_bytes 2 (to_uint16 v)) bytes.
Definition setUint16 (off : nat) (v : Z) (bytes : list Z) : list Z :=
  set_bytes off (le_bytes 2 (to_uint16 v)) bytes.
Definition setInt8 (off : nat) (v : Z) (bytes : list Z) : list Z :=
  set_bytes off (le_bytes 1 (to_uint8 v)) bytes.

Definition getInt32 (bytes : list Z) (off : nat) : Z := signed 32 (le_read 4 bytes off).
Definition getInt16 (bytes : list Z) (off : nat) : Z := signed 16 (le_read 2 bytes off).
Definition getUint16 (bytes : list Z) (off : nat) : Z := le_read 2 bytes off.
Definition getInt8 (bytes : list Z) (off : nat) : Z := signed 8 (le_read 1 bytes off).

(** [bytes.slice(lo, hi)] for [0 <= lo <= hi]. *)
Definition slice (lo hi : nat) (bytes : list Z) : list Z :=
  take (hi - lo) (drop lo bytes).

(** [x || 0] on an optional number and the truth value of an optional
    flag. *)
Definition or_zero (x : option Z) : Z := default 0 x.
Definition flag (b : option bool) : bool := default false b.

End JS.

(* ===================================================================== *)
(** * src/utils/struct.js *)
(* ===================================================================== *)

Definition SIZEOF_ADL_OPERATOR : nat := 5.
Definition SIZEOF_ADL_INSTRUMENT : nat := 40.
Definition SIZEOF_ADL_BANK : nat := 12.
Definition SIZEOF_ADL_BANK_ID : nat := 4.
Definition OPERATOR_OFFSET : nat := 14.

Record Operator := mkOperator {
  am : bool;
  vibrato : bool;
  sustaining : bool;
  ksr : bool;
  freqMult : Z;
  keyScaleLevel : Z;
  totalLevel : Z;
  attack : Z;
  decay : Z;
  sustain : Z;
  release : Z;
  waveform : Z
}.

Definition decodeOperator (bytes : list Z) : Operator :=
  let avekf := JS.byte_at bytes 0 in
  let ksl_l := JS.byte_at bytes 1 in
  let atdec := JS.byte_at bytes 2 in
  let susrel := JS.byte_at bytes 3 in
  let wave := JS.byte_at bytes 4 in
  {| am := JS.truthy (JS.band avekf 0x80);
     vibrato := JS.truthy (JS.band avekf 0x40);
     sustaining := JS.truthy (JS.band avekf 0x20);
     ksr := JS.truthy (JS.band avekf 0x10);
     freqMult := JS.band avekf 0x0F;
     keyScaleLevel := JS.band (JS.sar ksl_l 6) 0x03;
     totalLevel := JS.band ksl_l 0x3F;
     attack := JS.band (JS.sar atdec 4) 0x0F;
     decay := JS.band atdec 0x0F;
     sustain := JS.band (JS.sar susrel 4) 0x0F;
     release := JS.band susrel 0x0F;
     waveform := JS.band wave 0x07 |}.

(** The five register values before they are stored in the [Uint8Array]. *)
Definition reg_avekf (op : Operator) : Z :=
  JS.bor (JS.bor (JS.bor (JS.bor
    (if am op then 0x80 else 0)
    (if vibrato op then 0x40 else 0))
    (if sustaining op then 0x20 else 0))
    (if ksr op then 0x10 else 0))
    (JS.band (freqMult op) 0x0F).
Definition reg_ksl_l (op : Operator) : Z :=
  JS.bor (JS.shl (JS.band (keyScaleLevel op) 0x03) 6) (JS.band (totalLevel op) 0x3F).
Definition reg_atdec (op : Operator) : Z :=
  JS.bor (JS.shl (JS.band (attack op) 0x0F) 4) (JS.band (decay op) 0x0F).
Definition reg_susrel (op : Operator) : Z :=
  JS.bor (JS.shl (JS.band (sustain op) 0x0F) 4) (JS.band (release op) 0x0F).
Definition reg_waveform (op : Operator) : Z := JS.band (waveform op) 0x07.

Definition encodeOperator (op : Operator) : list Z :=
  [ JS.to_uint8 (reg_avekf op); JS.to_uint8 (reg_ksl_l op);
    JS.to_uint8 (reg_atdec op); JS.to_uint8 (reg_susrel op);
    JS.to_uint8 (reg_waveform op) ].

Definition defaultOperator : Operator :=
  {| am := false; vibrato := false; sustaining := true; ksr := false;
     freqMult := 1; keyScaleLevel := 0; totalLevel := 63;
     attack := 15; decay := 0; sustain := 0; release := 15; waveform := 0 |}.

(** An [Instrument] object.  The typedef marks every scalar property as
    optional; [operators] is guarded with [?.] and [||] by the encoder, so
    the array and each of its entries may be absent as well. *)
Record Instrument := mkInstrument {
  version : option Z;
  noteOffset1 : option Z;
  noteOffset2 : option Z;
  velocityOffset : option Z;
  secondVoiceDetune : option Z;
  percussionKey : option Z;
  is4op : option bool;
  isPseudo4op : option bool;
  isBlank : option bool;
  rhythmMode : option Z;
  feedback1 : option Z;
  connection1 : option Z;
  feedback2 : option Z;
  connection2 : option Z;
  operators : option (list (option Operator));
  delayOnMs : option Z;
  delayOffMs : option Z
}.

(** [inst.operators?.[i]]: [undefined] when there is no array, when the
    index is past its end, or when the entry itself is [undefined]. *)
Definition operator_at (inst : Instrument) (i : nat) : option Operator :=
  match operators inst with
  | Some ops => mjoin (ops !! i)
  | None => None
  end.

(** [decodeInstrument]: the [DataView] constructor throws a [RangeError]
    when the buffer holds fewer than 40 bytes; that is [None]. *)
Definition decodeInstrument (bytes : list Z) : option Instrument :=
  if (length bytes <? SIZEOF_ADL_INSTRUMENT)%nat then None else
  let instFlags := JS.byte_at bytes 11 in
  let fbConn1 := JS.byte_at bytes 12 in
  let fbConn2 := JS.byte_at bytes 13 in
  let op_at (k : nat) :=
    decodeOperator (JS.slice (OPERATOR_OFFSET + k * SIZEOF_ADL_OPERATOR)
                             (OPERATOR_OFFSET + (k + 1) * SIZEOF_ADL_OPERATOR) bytes) in
  Some {|
    version := Some (JS.getInt32 bytes 0);
    noteOffset1 := Some (JS.getInt16 bytes 4);
    noteOffset2 := Some (JS.getInt16 bytes 6);
    velocityOffset := Some (JS.getInt8 bytes 8);
    secondVoiceDetune := Some (JS.getInt8 bytes 9);
    percussionKey := bytes !! 10%nat;
    is4op := Some (JS.truthy (JS.band instFlags 0x01));
    isPseudo4op := Some (JS.truthy (JS.band instFlags 0x02));
    isBlank := Some (JS.truthy (JS.band instFlags 0x04));
    rhythmMode := Some (JS.band (JS.sar instFlags 3) 0x07);
    feedback1 := Some (JS.band (JS.sar fbConn1 1) 0x07);
    connection1 := Some (JS.band fbConn1 0x01);
    feedback2 := Some (JS.band (JS.sar fbConn2 1) 0x07);
    connection2 := Some (JS.band fbConn2 0x01);
    operators := Some [Some (op_at 0%nat); Some (op_at 1%nat);
                       Some (op_at 2%nat); Some (op_at 3%nat)];
    delayOnMs := Some (JS.getUint16 bytes 34);
    delayOffMs := Some (JS.getUint16 bytes 36)
  |}.

(** The flags byte and the two feedback/connection bytes, as computed
    before the typed-array store. *)
Definition inst_flags (inst : Instrument) : Z :=
  let flags := 0 in
  let flags := if JS.flag (is4op inst) then JS.bor flags 0x01 else flags in
  let flags := if JS.flag (isPseudo4op inst) then JS.bor flags 0x02 else flags in
  let flags := if JS.flag (isBlank inst) then JS.bor flags 0x04 else flags in
  JS.bor flags (JS.shl (JS.band (JS.or_zero (rhythmMode inst)) 0x07) 3).

Definition fb_conn (fb conn : option Z) : Z :=
  JS.bor (JS.shl (JS.band (JS.or_zero fb) 0x07) 1) (JS.band (JS.or_zero conn) 0x01).

(** The operator loop [for (let i = 0; i < 4; i++)], from index [i] for
    [n] more rounds. *)
Fixpoint encode_operators (inst : Instrument) (i n : nat) (bytes : list Z) : list Z :=
  match n with
  | O => bytes
  | S k =>
      let opBytes := encodeOperator (default defaultOperator (operator_at inst i)) in
      encode_operators inst (S i) k
        (JS.set_bytes (OPERATOR_OFFSET + i * SIZEOF_ADL_OPERATOR) opBytes bytes)
  end.

Definition encodeInstrument (inst : Instrument) : list Z :=
  let bytes := replicate SIZEOF_ADL_INSTRUMENT 0 in
  let bytes := JS.setInt32 0 (JS.or_zero (version inst)) bytes in
  let bytes := JS.setInt16 4 (JS.or_zero (noteOffset1 inst)) bytes in
  let bytes := JS.setInt16 6 (JS.or_zero (noteOffset2 inst)) bytes in
  let bytes := JS.setInt8 8 (JS.or_zero (velocityOffset inst)) bytes in
  let bytes := JS.setInt8 9 (JS.or_zero (secondVoiceDetune inst)) bytes in
  let bytes := <[10%nat := JS.to_uint8 (JS.or_zero (percussionKey inst))]> bytes in
  let bytes := <[11%nat := JS.to_uint8 (inst_flags inst)]> bytes in
  let bytes := <[12%nat := JS.to_uint8 (fb_conn (feedback1 inst) (connection1 inst))]> bytes in
  let bytes := <[13%nat := JS.to_uint8 (fb_conn (feedback2 inst) (connection2 inst))]> bytes in
  let bytes := encode_operators inst 0 4 bytes in
  let bytes := JS.setUint16 34 (JS.or_zero (delayOnMs inst)) bytes in
  let bytes := JS.setUint16 36 (JS.or_zero (delayOffMs inst)) bytes in
  bytes.

Definition defaultInstrument : Instrument :=
  {| version := Some 0; noteOffset1 := Some 0; noteOffset2 := Some 0;
     velocityOffset := Some 0; secondVoiceDetune := Some 0;
     percussionKey := Some 0;
     is4op := Some false; isPseudo4op := Some false; isBlank := Some true;
     rhythmMode := Some 0;
     feedback1 := Some 0; connection1 := Some 0;
     feedback2 := Some 0; connection2 := Some 0;
     operators := Some [Some defaultOperator; Some defaultOperator;
                        Some defaultOperator; Some defaultOperator];
     delayOnMs := Some 0; delayOffMs := Some 0 |}.

(* ===================================================================== *)
(** * The WASM module boundary *)
(* ===================================================================== *)

(** The exports of the Emscripten module that the JavaScript calls. *)
Inductive Fn :=
  | malloc | free
  | adl_init | adl_close | adl_reset | adl_rt_resetState | adl_panic
  | adl_setNumChips | adl_getNumChips | adl_getNumChipsObtained
  | adl_setNumFourOpsChn | adl_getNumFourOpsChn
  | adl_setBank | adl_getBanksCount | adl_getBankNames | adl_openBankData
  | adl_setSoftPanEnabled | adl_setHVibrato | adl_setHTremolo
  | adl_setScaleModulators | adl_setFullRangeBrightness
  | adl_setAutoArpeggio | adl_getAutoArpeggio
  | adl_setChannelAllocMode | adl_getChannelAllocMode
  | adl_setVolumeRangeModel | adl_getVolumeRangeModel
  | adl_setPercMode | adl_setRunAtPcmRate
  | adl_switchEmulator | adl_chipEmulatorName
  | adl_linkedLibraryVersion | adl_linkedVersion
  | adl_getBank | adl_getInstrument | adl_setInstrument
  | adl_rt_noteOn | adl_rt_noteOff | adl_rt_pitchBendML
  | adl_rt_controllerChange | adl_rt_patchChange
  | adl_rt_noteAfterTouch | adl_rt_channelAfterTouch
  | adl_rt_bankChange | adl_rt_bankChangeMSB | adl_rt_bankChangeLSB
  | adl_openData | adl_metaMusicTitle | adl_metaMusicCopyright
  | adl_atEnd | adl_positionRewind | adl_positionSeek | adl_positionTell
  | adl_totalTimeLength | adl_setLoopEnabled | adl_setTempo
  | adl_play | adl_generate.

(** Arguments cross the boundary as integers or as doubles (seek position,
    tempo); a double is carried as the rational it denotes. *)
Inductive arg :=
  | AInt (z : Z)
  | ANum (q : Q).

(** One recorded call of an export: the export, its arguments and what
    it returned. *)
Record Call := mkCall {
  call_fn : Fn;
  call_args : list arg;
  call_result : arg
}.

(** The module as the JavaScript sees it: a function table over a mutable
    instance, the heap views and two runtime helpers.  The engine behind
    the table is not part of this repository; everything below holds for
    every instance. *)
Class Wasm (M : Type) := {
  (** an export returning an integer (status, pointer, count) or nothing *)
  ccall : Fn -> list arg -> M -> Z * M;
  (** an export returning a double *)
  ccall_num : Fn -> list arg -> M -> Q * M;
  (** [HEAPU8[a]] and [HEAPU8[a] = b] *)
  HEAPU8_get : M -> Z -> Z;
  HEAPU8_set : Z -> Z -> M -> M;
  (** [HEAPU8.length] *)
  HEAPU8_length : M -> Z;
  (** whether [HEAP16] is defined, [HEAP16[k]], and the identity of
      [HEAP16.buffer] (it changes when the heap grows) *)
  HEAP16_defined : M -> bool;
  HEAP16_get : M -> Z -> Z;
  HEAP16_buffer : M -> Z;
  (** [getValue(ptr, type)] and [UTF8ToString(ptr)] *)
  getValue : M -> Z -> string -> Z;
  UTF8ToString : M -> Z -> string
}.

(* ===================================================================== *)
(** * Exceptions and state *)
(* ===================================================================== *)

Inductive outcome (A : Type) :=
  | Ret (a : A)
  | Throw (e : string).
Arguments Ret {A} a.
Arguments Throw {A} e.

(** A method body: it runs on the object [S], may mutate it, and either
    returns or throws; mutations made before a throw stay. *)
Definition Eff (S A : Type) : Type := S -> outcome A * S.

Definition ret {S A} (a : A) : Eff S A := fun s => (Ret a, s).
Definition throw {S A} (e : string) : Eff S A := fun s => (Throw e, s).
Definition bind {S A B} (m : Eff S A) (k : A -> Eff S B) : Eff S B :=
  fun s => match m s with
           | (Ret a, s') => k a s'
           | (Throw e, s') => (Throw e, s')
           end.
Definition get {S} : Eff S S := fun s => (Ret s, s).
Definition gets {S A} (f : S -> A) : Eff S A := fun s => (Ret (f s), s).
Definition modify {S} (f : S -> S) : Eff S unit := fun s => (Ret tt, f s).
(** [try { m } catch (e) { h(e.message) }] *)
Definition try_catch {S A} (m : Eff S A) (h : string -> Eff S A) : Eff S A :=
  fun s => match m s with
           | (Ret a, s') => (Ret a, s')
           | (Throw e, s') => h e s'
           end.
Definition when {S} (b : bool) (m : Eff S unit) : Eff S unit :=
  if b then m else ret tt.

Declare Scope eff_scope.
Delimit Scope eff_scope with eff.
Notation "x <- m ;; k" := (bind m (fun x => k))
  (at level 100, m at next level, right associativity) : eff_scope.
Notation "m ;; k" := (bind m (fun _ => k))
  (at level 100, right associativity) : eff_scope.
Local Open Scope eff_scope.

Definition exec {S A} (m : Eff S A) (s : S) : S := snd (m s).
Definition result {S A} (m : Eff S A) (s : S) : outcome A := fst (m s).

(** An object that holds a reference to the module ([this._module],
    [this.adl]).  [log] keeps the sequence of export calls made through
    it; the log is not read by any method. *)
Class Session (S M : Type) := {
  module_of : S -> option M;
  set_module : M -> S -> S;
  trace_of : S -> list Call;
  log : Call -> S -> S
}.

Definition TypeError_null : string := "Cannot read properties of null".
Definition TypeError_undefined : string := "Cannot read properties of undefined".

Section ModuleAccess.
Context {S M : Type} `{Wasm M} `{Session S M}.

(** [this.adl._f(args)]: a [TypeError] when the reference is null. *)
Definition invoke (f : Fn) (args : list arg) : Eff S Z :=
  fun s => match module_of s with
           | None => (Throw TypeError_null, s)
           | Some m => let '(r, m') := ccall f args m in
                       (Ret r, log (mkCall f args (AInt r)) (set_module m' s))
           end.

Definition invoke_num (f : Fn) (args : list arg) : Eff S Q :=
  fun s => match module_of s with
           | None => (Throw TypeError_null, s)
           | Some m => let '(r, m') := ccall_num f args m in
                       (Ret r, log (mkCall f args (ANum r)) (set_module m' s))
           end.

(** A read of the module that changes nothing. *)
Definition peek {A} (f : M -> A) : Eff S A :=
  fun s => match module_of s with
           | None => (Throw TypeError_null, s)
           | Some m => (Ret (f m), s)
           end.

(** [HEAPU8[a] = v] *)
Definition poke8 (a v : Z) : Eff S unit :=
  fun s => match module_of s with
           | None => (Throw TypeError_null, s)
           | Some m => (Ret tt, set_module (HEAPU8_set a (JS.to_uint8 v) m) s)
           end.

(** [HEAPU8.set(bytes, ptr)]: [bytes[k]] goes to address [ptr + k]. *)
Fixpoint HEAPU8_write (bytes : list Z) (ptr : Z) (m : M) : M :=
  match bytes with
  | [] => m
  | b :: rest => HEAPU8_write rest (ptr + 1) (HEAPU8_set ptr (JS.to_uint8 b) m)
  end.

Definition poke_bytes (bytes : list Z) (ptr : Z) : Eff S unit :=
  fun s => match module_of s with
           | None => (Throw TypeError_null, s)
           | Some m => (Ret tt, set_module (HEAPU8_write bytes ptr m) s)
           end.

(** [HEAPU8.slice(lo, hi)]: clamped to the heap's length. *)
Definition heap_slice (m : M) (lo hi : Z) : list Z :=
  let hi' := Z.min hi (HEAPU8_length m) in
  (fun k => HEAPU8_get m (lo + Z.of_nat k)) <$> seq 0 (Z.to_nat (hi' - lo)).

End ModuleAccess.

(** [!x] for a pointer-valued property that may be [null]. *)
Definition falsy_ptr (p : option Z) : bool :=
  match p with
  | None => true
  | Some z => z =? 0
  end.

(** A nullable pointer passed to an export: [null] arrives as 0. *)
Definition ptr_arg (p : option Z) : arg := AInt (default 0 p).

(** [ADL_BankId] as a JavaScript object. *)
Record BankId := mkBankId {
  percussive : option Z;
  msb : option Z;
  lsb : option Z
}.

(** A [Float32Array] element obtained as [s / 32768] from a 16-bit sample
    [s]: the quotient is a dyadic rational with at most 16 significant
    bits, so the store into the [Float32Array] keeps it exactly. *)
Definition sample_to_float (s : Z) : Q := Qmake s 32768.

(* ===================================================================== *)
(** * src/core.js : AdlMidiCore *)
(* ===================================================================== *)

Module AdlMidiCore.
Section Core.
Context {M : Type} `{Wasm M}.

Record t := mk {
  _module : option M;
  _player : option Z;
  _sampleRate : Z;
  _audioBuffer : option (list Q);
  _audioBufferPtr : option Z;
  calls : list Call
}.

Definition with_module (m : option M) (c : t) : t :=
  mk m (_player c) (_sampleRate c) (_audioBuffer c) (_audioBufferPtr c) (calls c).
Definition with_player (p : option Z) (c : t) : t :=
  mk (_module c) p (_sampleRate c) (_audioBuffer c) (_audioBufferPtr c) (calls c).
Definition with_sampleRate (r : Z) (c : t) : t :=
  mk (_module c) (_player c) r (_audioBuffer c) (_audioBufferPtr c) (calls c).
Definition with_audioBuffer (b : option (list Q)) (c : t) : t :=
  mk (_module c) (_player c) (_sampleRate c) b (_audioBufferPtr c) (calls c).
Definition with_audioBufferPtr (p : option Z) (c : t) : t :=
  mk (_module c) (_player c) (_sampleRate c) (_audioBuffer c) p (calls c).
Definition with_calls (l : list Call) (c : t) : t :=
  mk (_module c) (_player c) (_sampleRate c) (_audioBuffer c) (_audioBufferPtr c) l.

#[global] Instance session : Session t M := {|
  module_of := _module;
  set_module := fun m c => with_module (Some m) c;
  trace_of := calls;
  log := fun call c => with_calls (calls c ++ [call]) c
|}.

(** The object as [AdlMidiCore.create] leaves it. *)
Definition create (m : M) : t := mk (Some m) None 44100 None None [].

Definition _ensurePlayer : Eff t unit :=
  p <- gets _player ;;
  if falsy_ptr p then throw "Synthesizer not initialized - call init() first"
  else ret tt.

Definition init (sampleRate : Z) : Eff t bool :=
  m <- gets _module ;;
  match m with
  | None => throw "AdlMidiCore not initialized - use AdlMidiCore.create()"
  | Some _ =>
      modify (with_sampleRate sampleRate) ;;
      p <- invoke adl_init [AInt sampleRate] ;;
      modify (with_player (Some p)) ;;
      if p =? 0 then throw "Failed to initialize ADL MIDI player" else ret true
  end.

Definition close : Eff t unit :=
  ptr <- gets _audioBufferPtr ;;
  when (negb (falsy_ptr ptr))
    (invoke free [ptr_arg ptr] ;;
     modify (with_audioBufferPtr None) ;;
     modify (with_audioBuffer None)) ;;
  p <- gets _player ;;
  when (negb (falsy_ptr p))
    (invoke adl_close [ptr_arg p] ;;
     modify (with_player None)).

Definition resetFull : Eff t unit :=
  _ensurePlayer ;;
  p <- gets _player ;;
  invoke adl_reset [ptr_arg p] ;;
  ret tt.

(** The test [!ptr || !buffer || buffer.length < samples]. *)
Definition must_allocate (c : t) (samples : nat) : bool :=
  falsy_ptr (_audioBufferPtr c)
  || match _audioBuffer c with
     | None => true
     | Some buf => (length buf <? samples)%nat
     end.

(** "Allocate/reuse buffer". *)
Definition ensure_buffer (samples : nat) (bytes : Z) : Eff t unit :=
  c <- get ;;
  when (must_allocate c samples)
    (when (negb (falsy_ptr (_audioBufferPtr c)))
       (invoke free [ptr_arg (_audioBufferPtr c)] ;; ret tt) ;;
     p <- invoke malloc [AInt bytes] ;;
     modify (with_audioBufferPtr (Some p)) ;;
     modify (with_audioBuffer (Some (replicate samples 0%Q)))).

(** [for (let i = 0; i < samples; i++) buffer[i] = heap16[offset + i] / 32768],
    from index [i] for [n] more rounds. *)
Fixpoint convert (heap16 : Z -> Z) (offset : Z) (i n : nat) (buf : list Q) : list Q :=
  match n with
  | O => buf
  | S k =>
      convert heap16 offset (S i) k
        (<[i := sample_to_float (heap16 (offset + Z.of_nat i))]> buf)
  end.

(** [this._module.HEAP16]: [undefined] when the module does not expose
    the view. *)
Definition HEAP16_view (m : M) : option (Z -> Z) :=
  if HEAP16_defined m then Some (HEAP16_get m) else None.

(** The common body of [generate] and [play]; [f] is the export.  The
    view is looked up after the export has run and is not tested: when it
    is [undefined], [heap16[offset + i]] throws a [TypeError] in the first
    round of the conversion loop, before anything is stored; with no
    sample to convert the loop body never runs. *)
Definition render (f : Fn) (frames : nat) : Eff t (list Q) :=
  _ensurePlayer ;;
  let samples := (frames * 2)%nat in
  let bytes := Z.of_nat samples * 2 in
  ensure_buffer samples bytes ;;
  c <- get ;;
  invoke f [ptr_arg (_player c); AInt (Z.of_nat samples); ptr_arg (_audioBufferPtr c)] ;;
  view <- peek HEAP16_view ;;
  let offset := JS.sar (default 0 (_audioBufferPtr c)) 1 in
  buf <- match view with
         | Some heap16 =>
             ret (convert heap16 offset 0 samples (default [] (_audioBuffer c)))
         | None =>
             match samples with
             | O => ret (default [] (_audioBuffer c))
             | S _ => throw TypeError_undefined
             end
         end ;;
  modify (with_audioBuffer (Some buf)) ;;
  ret (take samples buf).

Definition generate (frames : nat) : Eff t (list Q) := render adl_generate frames.
Definition play (frames : nat) : Eff t (list Q) := render adl_play frames.

(** Writes the three bytes of an [ADL_BankId] at a fresh allocation and
    resolves the bank with create-if-missing. *)
Definition resolve_bank (bankId : BankId) : Eff t (Z * Z * Z) :=
  bankIdPtr <- invoke malloc [AInt (Z.of_nat SIZEOF_ADL_BANK_ID)] ;;
  poke8 bankIdPtr (JS.or_zero (percussive bankId)) ;;
  poke8 (bankIdPtr + 1) (JS.or_zero (msb bankId)) ;;
  poke8 (bankIdPtr + 2) (JS.or_zero (lsb bankId)) ;;
  bankPtr <- invoke malloc [AInt (Z.of_nat SIZEOF_ADL_BANK)] ;;
  p <- gets _player ;;
  bankResult <- invoke adl_getBank [ptr_arg p; AInt bankIdPtr; AInt 1; AInt bankPtr] ;;
  ret (bankIdPtr, bankPtr, bankResult).

Definition getInstrument (bankId : BankId) (program : Z) : Eff t (option Instrument) :=
  _ensurePlayer ;;
  bank <- resolve_bank bankId ;;
  let '(bankIdPtr, bankPtr, bankResult) := bank in
  instrument <-
    (if bankResult =? 0 then
       instPtr <- invoke malloc [AInt (Z.of_nat SIZEOF_ADL_INSTRUMENT)] ;;
       p <- gets _player ;;
       result <- invoke adl_getInstrument [ptr_arg p; AInt bankPtr; AInt program; AInt instPtr] ;;
       instrument <-
         (if result =? 0 then
            bytes <- peek (fun m => heap_slice m instPtr (instPtr + Z.of_nat SIZEOF_ADL_INSTRUMENT)) ;;
            match decodeInstrument bytes with
            | Some inst => ret (Some inst)
            | None => throw "RangeError"
            end
          else ret None) ;;
       invoke free [AInt instPtr] ;;
       ret instrument
     else ret None) ;;
  invoke free [AInt bankIdPtr] ;;
  invoke free [AInt bankPtr] ;;
  ret instrument.

Definition setInstrument (bankId : BankId) (program : Z) (instrument : Instrument)
  : Eff t bool :=
  _ensurePlayer ;;
  bank <- resolve_bank bankId ;;
  let '(bankIdPtr, bankPtr, bankResult) := bank in
  success <-
    (if bankResult =? 0 then
       let bytes := encodeInstrument instrument in
       instPtr <- invoke malloc [AInt (Z.of_nat SIZEOF_ADL_INSTRUMENT)] ;;
       poke_bytes bytes instPtr ;;
       p <- gets _player ;;
       result <- invoke adl_setInstrument [ptr_arg p; AInt bankPtr; AInt program; AInt instPtr] ;;
       invoke free [AInt instPtr] ;;
       ret (result =? 0)
     else ret false) ;;
  invoke free [AInt bankIdPtr] ;;
  invoke free [AInt bankPtr] ;;
  ret success.

(** [new AdlMidiCore()] *)
Definition constructor : t := mk None None 44100 None None [].

(** The shape of most methods: [this._ensurePlayer()], then exports
    called with [this._player] as their first argument. *)
Definition on_player {A} (body : arg -> Eff t A) : Eff t A :=
  _ensurePlayer ;; p <- gets _player ;; body (ptr_arg p).

Definition flag_arg (enabled : bool) : arg := AInt (if enabled then 1 else 0).

Definition reset : Eff t unit :=
  on_player (fun h => invoke adl_rt_resetState [h] ;; ret tt).
Definition panic : Eff t unit :=
  on_player (fun h => invoke adl_panic [h] ;; ret tt).

Definition setBank (bank : Z) : Eff t bool :=
  on_player (fun h => r <- invoke adl_setBank [h; AInt bank] ;; ret (r =? 0)).

(** [loadBankData] and [loadMidi]: copy the file into the heap, hand it
    to the export [open], free the copy. *)
Definition open_data (open : Fn) (data : list Z) : Eff t bool :=
  on_player (fun h =>
    ptr <- invoke malloc [AInt (Z.of_nat (length data))] ;;
    poke_bytes data ptr ;;
    r <- invoke open [h; AInt ptr; AInt (Z.of_nat (length data))] ;;
    invoke free [AInt ptr] ;;
    ret (r =? 0)).
Definition loadBankData (data : list Z) : Eff t bool := open_data adl_openBankData data.
Definition loadMidi (data : list Z) : Eff t bool := open_data adl_openData data.

Definition getBankCount : Eff t Z := invoke adl_getBanksCount [].

(** The loop of [getEmbeddedBanks], from index [i] for [n] rounds. *)
Fixpoint bank_names (m : M) (namesPtr : Z) (i : Z) (n : nat) : list (Z * string) :=
  match n with
  | O => []
  | S k =>
      let strPtr := getValue m (namesPtr + i * 4) "i32" in
      let name := if strPtr =? 0 then "Bank " +:+ pretty i else UTF8ToString m strPtr in
      (i, name) :: bank_names m namesPtr (i + 1) k
  end.

Definition getEmbeddedBanks : Eff t (list (Z * string)) :=
  count <- invoke adl_getBanksCount [] ;;
  namesPtr <- invoke adl_getBankNames [] ;;
  peek (fun m => bank_names m namesPtr 0 (Z.to_nat count)).

Definition setNumChips (count : Z) : Eff t bool :=
  on_player (fun h => r <- invoke adl_setNumChips [h; AInt count] ;; ret (r =? 0)).
Definition setNumFourOpChannels (count : Z) : Eff t bool :=
  on_player (fun h => r <- invoke adl_setNumFourOpsChn [h; AInt count] ;; ret (r =? 0)).
Definition getNumFourOpChannels : Eff t Z :=
  on_player (fun h => invoke adl_getNumFourOpsChn [h]).
Definition setScaleModulators (enabled : bool) : Eff t unit :=
  on_player (fun h => invoke adl_setScaleModulators [h; flag_arg enabled] ;; ret tt).
Definition setFullRangeBrightness (enabled : bool) : Eff t unit :=
  on_player (fun h => invoke adl_setFullRangeBrightness [h; flag_arg enabled] ;; ret tt).
Definition setAutoArpeggio (enabled : bool) : Eff t unit :=
  on_player (fun h => invoke adl_setAutoArpeggio [h; flag_arg enabled] ;; ret tt).
Definition getAutoArpeggio : Eff t bool :=
  on_player (fun h => r <- invoke adl_getAutoArpeggio [h] ;; ret (negb (r =? 0))).
Definition setChannelAllocMode (mode : Z) : Eff t unit :=
  on_player (fun h => invoke adl_setChannelAllocMode [h; AInt mode] ;; ret tt).
Definition getChannelAllocMode : Eff t Z :=
  on_player (fun h => invoke adl_getChannelAllocMode [h]).
Definition setSoftPan (enabled : bool) : Eff t unit :=
  on_player (fun h => invoke adl_setSoftPanEnabled [h; flag_arg enabled] ;; ret tt).
Definition setDeepVibrato (enabled : bool) : Eff t unit :=
  on_player (fun h => invoke adl_setHVibrato [h; flag_arg enabled] ;; ret tt).
Definition setDeepTremolo (enabled : bool) : Eff t unit :=
  on_player (fun h => invoke adl_setHTremolo [h; flag_arg enabled] ;; ret tt).
Definition switchEmulator (emulator : Z) : Eff t bool :=
  on_player (fun h => r <- invoke adl_switchEmulator [h; AInt emulator] ;; ret (r =? 0)).
Definition getEmulatorName : Eff t string :=
  on_player (fun h =>
    ptr <- invoke adl_chipEmulatorName [h] ;; peek (fun m => UTF8ToString m ptr)).

(** [getLibraryVersion] and [getVersion] do not ask for a player. *)
Definition getLibraryVersion : Eff t string :=
  ptr <- invoke adl_linkedLibraryVersion [] ;; peek (fun m => UTF8ToString m ptr).
Definition getVersion : Eff t (Z * Z * Z) :=
  ptr <- invoke adl_linkedVersion [] ;;
  peek (fun m => (getValue m ptr "i16", getValue m (ptr + 2) "i16",
                  getValue m (ptr + 4) "i16")).

Definition getNumChips : Eff t Z := on_player (fun h => invoke adl_getNumChips [h]).
Definition getNumChipsObtained : Eff t Z :=
  on_player (fun h => invoke adl_getNumChipsObtained [h]).
Definition getVolumeModel : Eff t Z :=
  on_player (fun h => invoke adl_getVolumeRangeModel [h]).
Definition setVolumeModel (model : Z) : Eff t unit :=
  on_player (fun h => invoke adl_setVolumeRangeModel [h; AInt model] ;; ret tt).
Definition setRunAtPcmRate (enabled : bool) : Eff t bool :=
  on_player (fun h => r <- invoke adl_setRunAtPcmRate [h; flag_arg enabled] ;; ret (r =? 0)).

Definition noteOn (channel note velocity : Z) : Eff t unit :=
  on_player (fun h =>
    invoke adl_rt_noteOn [h; AInt channel; AInt note; AInt velocity] ;; ret tt).
Definition noteOff (channel note : Z) : Eff t unit :=
  on_player (fun h => invoke adl_rt_noteOff [h; AInt channel; AInt note] ;; ret tt).
Definition noteAfterTouch (channel note pressure : Z) : Eff t unit :=
  on_player (fun h =>
    invoke adl_rt_noteAfterTouch [h; AInt channel; AInt note; AInt pressure] ;; ret tt).
Definition channelAfterTouch (channel pressure : Z) : Eff t unit :=
  on_player (fun h =>
    invoke adl_rt_channelAfterTouch [h; AInt channel; AInt pressure] ;; ret tt).
Definition controllerChange (channel controller value : Z) : Eff t unit :=
  on_player (fun h =>
    invoke adl_rt_controllerChange [h; AInt channel; AInt controller; AInt value] ;; ret tt).
Definition programChange (channel program : Z) : Eff t unit :=
  on_player (fun h => invoke adl_rt_patchChange [h; AInt channel; AInt program] ;; ret tt).
Definition bankChange (channel bank : Z) : Eff t unit :=
  on_player (fun h => invoke adl_rt_bankChange [h; AInt channel; AInt bank] ;; ret tt).
Definition bankChangeMSB (channel msb : Z) : Eff t unit :=
  on_player (fun h => invoke adl_rt_bankChangeMSB [h; AInt channel; AInt msb] ;; ret tt).
Definition bankChangeLSB (channel lsb : Z) : Eff t unit :=
  on_player (fun h => invoke adl_rt_bankChangeLSB [h; AInt channel; AInt lsb] ;; ret tt).

(** [ptr ? UTF8ToString(ptr) : ''] *)
Definition string_or_empty (ptr : Z) : Eff t string :=
  if ptr =? 0 then ret "" else peek (fun m => UTF8ToString m ptr).
Definition getMusicTitle : Eff t string :=
  on_player (fun h => ptr <- invoke adl_metaMusicTitle [h] ;; string_or_empty ptr).
Definition getMusicCopyright : Eff t string :=
  on_player (fun h => ptr <- invoke adl_metaMusicCopyright [h] ;; string_or_empty ptr).

Definition position : Eff t Q := on_player (fun h => invoke_num adl_positionTell [h]).
Definition duration : Eff t Q := on_player (fun h => invoke_num adl_totalTimeLength [h]).
Definition seek (seconds : Q) : Eff t unit :=
  on_player (fun h => invoke adl_positionSeek [h; ANum seconds] ;; ret tt).
Definition rewind : Eff t unit :=
  on_player (fun h => invoke adl_positionRewind [h] ;; ret tt).
Definition atEnd : Eff t bool :=
  on_player (fun h => r <- invoke adl_atEnd [h] ;; ret (negb (r =? 0))).
Definition setLooping (enabled : bool) : Eff t unit :=
  on_player (fun h => invoke adl_setLoopEnabled [h; flag_arg enabled] ;; ret tt).
Definition setTempo (tempo : Q) : Eff t unit :=
  on_player (fun h => invoke adl_setTempo [h; ANum tempo] ;; ret tt).

(** The public methods as data, each with its arguments, and what a
    call returns.  [pitchBend] is not listed: its export is not among
    the ones declared above. *)
Inductive Method :=
  | m_init (sampleRate : Z) | m_close
  | m_reset | m_resetFull | m_panic
  | m_setBank (bank : Z) | m_loadBankData (data : list Z)
  | m_getBankCount | m_getEmbeddedBanks
  | m_setNumChips (count : Z) | m_setNumFourOpChannels (count : Z)
  | m_getNumFourOpChannels
  | m_setScaleModulators (enabled : bool) | m_setFullRangeBrightness (enabled : bool)
  | m_setAutoArpeggio (enabled : bool) | m_getAutoArpeggio
  | m_setChannelAllocMode (mode : Z) | m_getChannelAllocMode
  | m_setSoftPan (enabled : bool) | m_setDeepVibrato (enabled : bool)
  | m_setDeepTremolo (enabled : bool)
  | m_switchEmulator (emulator : Z) | m_getEmulatorName
  | m_getLibraryVersion | m_getVersion
  | m_getNumChips | m_getNumChipsObtained
  | m_getVolumeModel | m_setVolumeModel (model : Z)
  | m_setRunAtPcmRate (enabled : bool)
  | m_noteOn (channel note velocity : Z) | m_noteOff (channel note : Z)
  | m_noteAfterTouch (channel note pressure : Z)
  | m_channelAfterTouch (channel pressure : Z)
  | m_controllerChange (channel controller value : Z)
  | m_programChange (channel program : Z)
  | m_bankChange (channel bank : Z)
  | m_bankChangeMSB (channel msb : Z) | m_bankChangeLSB (channel lsb : Z)
  | m_generate (frames : nat)
  | m_loadMidi (data : list Z) | m_getMusicTitle | m_getMusicCopyright
  | m_play (frames : nat)
  | m_position | m_duration | m_seek (seconds : Q) | m_rewind | m_atEnd
  | m_setLooping (enabled : bool) | m_setTempo (tempo : Q)
  | m_getInstrument (bankId : BankId) (program : Z)
  | m_setInstrument (bankId : BankId) (program : Z) (instrument : Instrument).

Inductive Returned :=
  | r_undefined
  | r_boolean (b : bool)
  | r_integer (z : Z)
  | r_number (q : Q)
  | r_string (s : string)
  | r_banks (l : list (Z * string))
  | r_version (v : Z * Z * Z)
  | r_instrument (i : option Instrument)
  | r_samples (l : list Q).

Definition returning {A} (wrap : A -> Returned) (m : Eff t A) : Eff t Returned :=
  a <- m ;; ret (wrap a).

Definition call (meth : Method) : Eff t Returned :=
  let nothing := returning (fun _ : unit => r_undefined) in
  match meth with
  | m_init sampleRate => returning r_boolean (init sampleRate)
  | m_close => nothing close
  | m_reset => nothing reset
  | m_resetFull => nothing resetFull
  | m_panic => nothing panic
  | m_setBank bank => returning r_boolean (setBank bank)
  | m_loadBankData data => returning r_boolean (loadBankData data)
  | m_getBankCount => returning r_integer getBankCount
  | m_getEmbeddedBanks => returning r_banks getEmbeddedBanks
  | m_setNumChips count => returning r_boolean (setNumChips count)
  | m_setNumFourOpChannels count => returning r_boolean (setNumFourOpChannels count)
  | m_getNumFourOpChannels => returning r_integer getNumFourOpChannels
  | m_setScaleModulators enabled => nothing (setScaleModulators enabled)
  | m_setFullRangeBrightness enabled => nothing (setFullRangeBrightness enabled)
  | m_setAutoArpeggio enabled => nothing (setAutoArpeggio enabled)
  | m_getAutoArpeggio => returning r_boolean getAutoArpeggio
  | m_setChannelAllocMode mode => nothing (setChannelAllocMode mode)
  | m_getChannelAllocMode => returning r_integer getChannelAllocMode
  | m_setSoftPan enabled => nothing (setSoftPan enabled)
  | m_setDeepVibrato enabled => nothing (setDeepVibrato enabled)
  | m_setDeepTremolo enabled => nothing (setDeepTremolo enabled)
  | m_switchEmulator emulator => returning r_boolean (switchEmulator emulator)
  | m_getEmulatorName => returning r_string getEmulatorName
  | m_getLibraryVersion => returning r_string getLibraryVersion
  | m_getVersion => returning r_version getVersion
  | m_getNumChips => returning r_integer getNumChips
  | m_getNumChipsObtained => returning r_integer getNumChipsObtained
  | m_getVolumeModel => returning r_integer getVolumeModel
  | m_setVolumeModel model => nothing (setVolumeModel model)
  | m_setRunAtPcmRate enabled => returning r_boolean (setRunAtPcmRate enabled)
  | m_noteOn channel note velocity => nothing (noteOn channel note velocity)
  | m_noteOff channel note => nothing (noteOff channel note)
  | m_noteAfterTouch channel note pressure => nothing (noteAfterTouch channel note pressure)
  | m_channelAfterTouch channel pressure => nothing (channelAfterTouch channel pressure)
  | m_controllerChange channel controller value =>
      nothing (controllerChange channel controller value)
  | m_programChange channel program => nothing (programChange channel program)
  | m_bankChange channel bank => nothing (bankChange channel bank)
  | m_bankChangeMSB channel msb => nothing (bankChangeMSB channel msb)
  | m_bankChangeLSB channel lsb => nothing (bankChangeLSB channel lsb)
  | m_generate frames => returning r_samples (generate frames)
  | m_loadMidi data => returning r_boolean (loadMidi data)
  | m_getMusicTitle => returning r_string getMusicTitle
  | m_getMusicCopyright => returning r_string getMusicCopyright
  | m_play frames => returning r_samples (play frames)
  | m_position => returning r_number position
  | m_duration => returning r_number duration
  | m_seek seconds => nothing (seek seconds)
  | m_rewind => nothing rewind
  | m_atEnd => returning r_boolean atEnd
  | m_setLooping enabled => nothing (setLooping enabled)
  | m_setTempo tempo => nothing (setTempo tempo)
  | m_getInstrument bankId program => returning r_instrument (getInstrument bankId program)
  | m_setInstrument bankId program instrument =>
      returning r_boolean (setInstrument bankId program instrument)
  end.

(** The methods whose body starts with [this._ensurePlayer()]. *)
Definition asks_for_player (meth : Method) : bool :=
  match meth with
  | m_init _ | m_close | m_getBankCount | m_getEmbeddedBanks
  | m_getLibraryVersion | m_getVersion => false
  | _ => true
  end.

End Core.
Arguments t M : clear implicits.
End AdlMidiCore.

(* ===================================================================== *)
(** * src/processor.js : AdlMidiProcessor *)
(* ===================================================================== *)

Inductive PlayMode := realtime | file.

Record Settings := mkSettings {
  numChips : option Z;
  numFourOpChannels : option Z;
  bank : option Z;
  softPan : option bool;
  deepVibrato : option bool;
  deepTremolo : option bool
}.

(** [Object.assign(target, source)] on settings objects. *)
Definition assign_settings (target source : Settings) : Settings :=
  let pick {A} (new old : option A) := match new with Some _ => new | None => old end in
  {| numChips := pick (numChips source) (numChips target);
     numFourOpChannels := pick (numFourOpChannels source) (numFourOpChannels target);
     bank := pick (bank source) (bank target);
     softPan := pick (softPan source) (softPan target);
     deepVibrato := pick (deepVibrato source) (deepVibrato target);
     deepTremolo := pick (deepTremolo source) (deepTremolo target) |}.

Definition default_settings : Settings :=
  {| numChips := Some 4; numFourOpChannels := Some (-1); bank := Some 72;
     softPan := Some true; deepVibrato := Some false; deepTremolo := Some false |}.

(** Messages received by the processor, one constructor per [msg.type]
    of the [switch]; [other] is any type the [switch] has no case for. *)
Module Msg.
Inductive t :=
  | ping
  | noteOn (channel note velocity : Z)
  | noteOff (channel note : Z)
  | pitchBend (channel msb lsb : Z)
  | controlChange (channel controller value : Z)
  | programChange (channel program : Z)
  | noteAfterTouch (channel note pressure : Z)
  | channelAfterTouch (channel pressure : Z)
  | bankChange (channel bank : Z)
  | bankChangeMSB (channel msb : Z)
  | bankChangeLSB (channel lsb : Z)
  | resetState
  | panic
  | configure (settings : Settings)
  | loadBank (data : list Z)
  | setBank (bank : Z)
  | getInstrument (bankId : BankId) (programNumber : Z)
  | setInstrument (bankId : BankId) (programNumber : Z) (instrument : Instrument)
  | setNumChips (chips : Z)
  | setNumFourOpChannels (channels : Z)
  | getNumFourOpChannels
  | setScaleModulators (enabled : bool)
  | setFullRangeBrightness (enabled : bool)
  | setAutoArpeggio (enabled : bool)
  | getAutoArpeggio
  | setChannelAllocMode (mode : Z)
  | getChannelAllocMode
  | setVolumeModel (model : Z)
  | setPercMode (enabled : bool)
  | setVibrato (enabled : bool)
  | setTremolo (enabled : bool)
  | setRunAtPcmRate (enabled : bool)
  | switchEmulator (emulator : Z)
  | getEmulatorName
  | getLibraryVersion
  | getVersion
  | getNumChips
  | getNumChipsObtained
  | getVolumeModel
  | getEmbeddedBanks
  | loadMidi (data : list Z)
  | getMusicTitle
  | getMusicCopyright
  | play
  | stop
  | seek (position : Q)
  | setLoop (enabled : bool)
  | setTempo (tempo : Q)
  | getState
  | reset
  | other (type : string).

Definition is_ping (m : t) : bool :=
  match m with ping => true | _ => false end.
End Msg.

(** Messages posted by the processor on its port. *)
Module Out.
Inductive t :=
  | ready
  | error (message : string)
  | pong (ready : bool)
  | configured
  | bankLoaded (success : bool) (error : option string)
  | bankSet (success : bool) (bank : Z)
  | instrumentLoaded (success : bool) (instrument : option Instrument) (error : option string)
  | instrumentSet (success : bool) (error : option string)
  | numFourOpChannels (channels : Z)
  | autoArpeggio (enabled : bool)
  | channelAllocMode (mode : Z)
  | emulatorSwitched (success : bool) (emulator : Z)
  | emulatorName (name : string)
  | libraryVersion (version : string)
  | version (v : option (Z * Z * Z))
  | numChips (chips : Z)
  | numChipsObtained (chips : Z)
  | volumeModel (model : Z)
  | embeddedBanks (banks : list (Z * string))
  | midiLoaded (success : bool) (duration : option Q) (error : option string)
  | musicTitle (title : string)
  | musicCopyright (copyright : string)
  | state (position duration : Q) (atEnd : bool) (playMode : PlayMode)
  | playbackEnded
  | processingError (error : string).

(** [msg.type] *)
Definition type (m : t) : string :=
  match m with
  | ready => "ready"
  | error _ => "error"
  | pong _ => "pong"
  | configured => "configured"
  | bankLoaded _ _ => "bankLoaded"
  | bankSet _ _ => "bankSet"
  | instrumentLoaded _ _ _ => "instrumentLoaded"
  | instrumentSet _ _ => "instrumentSet"
  | numFourOpChannels _ => "numFourOpChannels"
  | autoArpeggio _ => "autoArpeggio"
  | channelAllocMode _ => "channelAllocMode"
  | emulatorSwitched _ _ => "emulatorSwitched"
  | emulatorName _ => "emulatorName"
  | libraryVersion _ => "libraryVersion"
  | version _ => "version"
  | numChips _ => "numChips"
  | numChipsObtained _ => "numChipsObtained"
  | volumeModel _ => "volumeModel"
  | embeddedBanks _ => "embeddedBanks"
  | midiLoaded _ _ _ => "midiLoaded"
  | musicTitle _ => "musicTitle"
  | musicCopyright _ => "musicCopyright"
  | state _ _ _ _ => "state"
  | playbackEnded => "playbackEnded"
  | processingError _ => "processingError"
  end.

(** The truth value of [msg.success], and [msg.error], [msg.message],
    [msg.instrument], [msg.name] ([undefined] is [None]). *)
Definition success_of (m : t) : bool :=
  match m with
  | bankLoaded s _ | bankSet s _ | instrumentLoaded s _ _ | instrumentSet s _
  | emulatorSwitched s _ | midiLoaded s _ _ => s
  | _ => false
  end.
Definition error_of (m : t) : option string :=
  match m with
  | bankLoaded _ e | instrumentLoaded _ _ e | instrumentSet _ e | midiLoaded _ _ e => e
  | processingError e => Some e
  | _ => None
  end.
Definition message_of (m : t) : option string :=
  match m with error s => Some s | _ => None end.
Definition instrument_of (m : t) : option Instrument :=
  match m with instrumentLoaded _ i _ => i | _ => None end.
Definition name_of (m : t) : option string :=
  match m with emulatorName n => Some n | _ => None end.
End Out.

(** The result objects of the processor's [getInstrument] and
    [setInstrument]: [{ success, instrument?, error? }]. *)
Record OpResult := mkOpResult {
  success : bool;
  instrument : option Instrument;
  error : option string
}.

Module AdlMidiProcessor.
Section Processor.
Context {M : Type} `{Wasm M}.

Definition SAMPLE_RATE : Z := 44100.
Definition CHANNELS : Z := 2.
Definition BYTES_PER_SAMPLE : Z := 2.

Record t := mk {
  adl : option M;
  midi : option Z;
  bufferPtr : option Z;
  bufferSize : option Z;
  ready : bool;
  playMode : PlayMode;
  sampleRate : Z;
  cachedHeapBuffer : option Z;
  settings : Settings;
  (** messages posted on [this.port], oldest first *)
  port : list Out.t;
  calls : list Call
}.

Definition with_adl (x : option M) (p : t) : t :=
  mk x (midi p) (bufferPtr p) (bufferSize p) (ready p) (playMode p) (sampleRate p)
     (cachedHeapBuffer p) (settings p) (port p) (calls p).
Definition with_midi (x : option Z) (p : t) : t :=
  mk (adl p) x (bufferPtr p) (bufferSize p) (ready p) (playMode p) (sampleRate p)
     (cachedHeapBuffer p) (settings p) (port p) (calls p).
Definition with_bufferPtr (x : option Z) (p : t) : t :=
  mk (adl p) (midi p) x (bufferSize p) (ready p) (playMode p) (sampleRate p)
     (cachedHeapBuffer p) (settings p) (port p) (calls p).
Definition with_bufferSize (x : option Z) (p : t) : t :=
  mk (adl p) (midi p) (bufferPtr p) x (ready p) (playMode p) (sampleRate p)
     (cachedHeapBuffer p) (settings p) (port p) (calls p).
Definition with_ready (x : bool) (p : t) : t :=
  mk (adl p) (midi p) (bufferPtr p) (bufferSize p) x (playMode p) (sampleRate p)
     (cachedHeapBuffer p) (settings p) (port p) (calls p).
Definition with_playMode (x : PlayMode) (p : t) : t :=
  mk (adl p) (midi p) (bufferPtr p) (bufferSize p) (ready p) x (sampleRate p)
     (cachedHeapBuffer p) (settings p) (port p) (calls p).
Definition with_cachedHeapBuffer (x : option Z) (p : t) : t :=
  mk (adl p) (midi p) (bufferPtr p) (bufferSize p) (ready p) (playMode p) (sampleRate p)
     x (settings p) (port p) (calls p).
Definition with_settings (x : Settings) (p : t) : t :=
  mk (adl p) (midi p) (bufferPtr p) (bufferSize p) (ready p) (playMode p) (sampleRate p)
     (cachedHeapBuffer p) x (port p) (calls p).
Definition with_port (x : list Out.t) (p : t) : t :=
  mk (adl p) (midi p) (bufferPtr p) (bufferSize p) (ready p) (playMode p) (sampleRate p)
     (cachedHeapBuffer p) (settings p) x (calls p).
Definition with_calls (x : list Call) (p : t) : t :=
  mk (adl p) (midi p) (bufferPtr p) (bufferSize p) (ready p) (playMode p) (sampleRate p)
     (cachedHeapBuffer p) (settings p) (port p) x.

#[global] Instance session : Session t M := {|
  module_of := adl;
  set_module := fun m p => with_adl (Some m) p;
  trace_of := calls;
  log := fun call p => with_calls (calls p ++ [call]) p
|}.

(** [this.port.postMessage(m)] *)
Definition post (m : Out.t) : Eff t unit :=
  modify (fun p => with_port (port p ++ [m]) p).

(** The constructor, up to the call of [initWasm]: [sampleRate] is
    [options.processorOptions?.sampleRate] and [overrides] is
    [options.processorOptions?.settings]. *)
Definition constructor (sampleRate : option Z) (overrides : Settings) : t :=
  {| adl := None; midi := None; bufferPtr := None; bufferSize := None;
     ready := false; playMode := realtime;
     sampleRate := (match sampleRate with
                    | Some r => if r =? 0 then SAMPLE_RATE else r
                    | None => SAMPLE_RATE
                    end);
     cachedHeapBuffer := None;
     settings := assign_settings default_settings overrides;
     port := []; calls := [] |}.

Definition b2z (b : bool) : Z := if b then 1 else 0.

(** [this.midi] as an argument. *)
Definition player : Eff t arg := p <- gets midi ;; ret (ptr_arg p).

Definition applySettings (s : Settings) : Eff t unit :=
  p <- gets midi ;;
  if falsy_ptr p then ret tt else
  let h := ptr_arg p in
  match numChips s with
  | Some v => invoke adl_setNumChips [h; AInt v] ;; ret tt | None => ret tt end ;;
  match numFourOpChannels s with
  | Some v => invoke adl_setNumFourOpsChn [h; AInt v] ;; ret tt | None => ret tt end ;;
  match bank s with
  | Some v => invoke adl_setBank [h; AInt v] ;; ret tt | None => ret tt end ;;
  match softPan s with
  | Some v => invoke adl_setSoftPanEnabled [h; AInt (b2z v)] ;; ret tt | None => ret tt end ;;
  match deepVibrato s with
  | Some v => invoke adl_setHVibrato [h; AInt (b2z v)] ;; ret tt | None => ret tt end ;;
  match deepTremolo s with
  | Some v => invoke adl_setHTremolo [h; AInt (b2z v)] ;; ret tt | None => ret tt end.

(** The part of [initWasm] that runs once [createADLMIDI] has settled:
    [created] is the module it produced, or the message of the error it
    rejected with. *)
Definition initWasm (created : M + string) : Eff t unit :=
  try_catch
    (match created with
     | inr e => throw e
     | inl m =>
         modify (with_adl (Some m)) ;;
         rate <- gets sampleRate ;;
         h <- invoke adl_init [AInt rate] ;;
         modify (with_midi (Some h)) ;;
         (if h =? 0 then throw "Failed to initialize ADL MIDI player" else ret tt) ;;
         s <- gets settings ;;
         applySettings s ;;
         let FRAMES := 128 in
         let size := FRAMES * CHANNELS * BYTES_PER_SAMPLE in
         modify (with_bufferSize (Some size)) ;;
         ptr <- invoke malloc [AInt size] ;;
         modify (with_bufferPtr (Some ptr)) ;;
         defined <- peek HEAP16_defined ;;
         (if defined then ret tt
          else throw "HEAP16 is not available after initialization") ;;
         modify (with_ready true) ;;
         post Out.ready
     end)
    (fun e => post (Out.error e)).

Definition readInstrumentFromMemory (ptr : Z) : Eff t Instrument :=
  bytes <- peek (fun m => heap_slice m ptr (ptr + Z.of_nat SIZEOF_ADL_INSTRUMENT)) ;;
  match decodeInstrument bytes with
  | Some inst => ret inst
  | None => throw "RangeError"
  end.

Definition writeInstrumentToMemory (ptr : Z) (inst : Instrument) : Eff t unit :=
  poke_bytes (encodeInstrument inst) ptr.

(** The common prefix of [getInstrument] and [setInstrument]. *)
Definition resolve_bank (bankId : BankId) : Eff t (Z * Z * Z) :=
  bankIdPtr <- invoke malloc [AInt 4] ;;
  poke8 bankIdPtr (if JS.truthy (JS.or_zero (percussive bankId)) then 1 else 0) ;;
  poke8 (bankIdPtr + 1) (JS.or_zero (msb bankId)) ;;
  poke8 (bankIdPtr + 2) (JS.or_zero (lsb bankId)) ;;
  bankPtr <- invoke malloc [AInt (Z.of_nat SIZEOF_ADL_BANK)] ;;
  h <- player ;;
  bankResult <- invoke adl_getBank [h; AInt bankIdPtr; AInt 1; AInt bankPtr] ;;
  ret (bankIdPtr, bankPtr, bankResult).

Definition failure (e : string) : OpResult := mkOpResult false None (Some e).

Definition getInstrument (bankId : BankId) (programNumber : Z) : Eff t OpResult :=
  try_catch
    (bank <- resolve_bank bankId ;;
     let '(bankIdPtr, bankPtr, bankResult) := bank in
     if negb (bankResult =? 0) then
       invoke free [AInt bankIdPtr] ;;
       invoke free [AInt bankPtr] ;;
       ret (failure "Failed to get bank")
     else
       instPtr <- invoke malloc [AInt (Z.of_nat SIZEOF_ADL_INSTRUMENT)] ;;
       h <- player ;;
       instResult <- invoke adl_getInstrument [h; AInt bankPtr; AInt programNumber; AInt instPtr] ;;
       instrument <-
         (if instResult =? 0
          then inst <- readInstrumentFromMemory instPtr ;; ret (Some inst)
          else ret None) ;;
       invoke free [AInt bankIdPtr] ;;
       invoke free [AInt bankPtr] ;;
       invoke free [AInt instPtr] ;;
       match instrument with
       | Some inst => ret (mkOpResult true (Some inst) None)
       | None => ret (failure "Failed to get instrument")
       end)
    (fun e => ret (failure e)).

Definition setInstrument (bankId : BankId) (programNumber : Z) (inst : Instrument)
  : Eff t OpResult :=
  try_catch
    (bank <- resolve_bank bankId ;;
     let '(bankIdPtr, bankPtr, bankResult) := bank in
     if negb (bankResult =? 0) then
       invoke free [AInt bankIdPtr] ;;
       invoke free [AInt bankPtr] ;;
       ret (failure "Failed to get/create bank")
     else
       instPtr <- invoke malloc [AInt (Z.of_nat SIZEOF_ADL_INSTRUMENT)] ;;
       writeInstrumentToMemory instPtr inst ;;
       h <- player ;;
       setResult <- invoke adl_setInstrument [h; AInt bankPtr; AInt programNumber; AInt instPtr] ;;
       when (setResult =? 0) (invoke adl_reset [h] ;; ret tt) ;;
       invoke free [AInt bankIdPtr] ;;
       invoke free [AInt bankPtr] ;;
       invoke free [AInt instPtr] ;;
       if setResult =? 0 then ret (mkOpResult true None None)
       else ret (failure "Failed to set instrument"))
    (fun e => ret (failure e)).

(** [loadBank] and [loadMidiData] copy the file into the heap, hand it
    to the export [open] and free the copy. *)
Definition open_data (open : Fn) (data : list Z) : Eff t Z :=
  dataPtr <- invoke malloc [AInt (Z.of_nat (length data))] ;;
  poke_bytes data dataPtr ;;
  h <- player ;;
  r <- invoke open [h; AInt dataPtr; AInt (Z.of_nat (length data))] ;;
  invoke free [AInt dataPtr] ;;
  ret r.

Definition loadBank (data : list Z) : Eff t unit :=
  try_catch
    (r <- open_data adl_openBankData data ;;
     if r =? 0 then post (Out.bankLoaded true None)
     else post (Out.bankLoaded false (Some "Failed to load bank data")))
    (fun e => post (Out.bankLoaded false (Some e))).

Definition loadMidiData (data : list Z) : Eff t unit :=
  try_catch
    (r <- open_data adl_openData data ;;
     if r =? 0 then
       h <- player ;;
       duration <- invoke_num adl_totalTimeLength [h] ;;
       post (Out.midiLoaded true (Some duration) None)
     else post (Out.midiLoaded false None (Some "Failed to parse MIDI data")))
    (fun e => post (Out.midiLoaded false None (Some e))).

(** The loop of [getEmbeddedBankList], from index [i] for [n] rounds. *)
Fixpoint bank_names (m : M) (namesPtr : Z) (i : Z) (n : nat) : list (Z * string) :=
  match n with
  | O => []
  | S k =>
      let strPtr := getValue m (namesPtr + i * 4) "i32" in
      let name := if strPtr =? 0 then "Bank " +:+ pretty i else UTF8ToString m strPtr in
      (i, name) :: bank_names m namesPtr (i + 1) k
  end.

Definition getEmbeddedBankList : Eff t (list (Z * string)) :=
  count <- invoke adl_getBanksCount [] ;;
  namesPtr <- invoke adl_getBankNames [] ;;
  peek (fun m => bank_names m namesPtr 0 (Z.to_nat count)).

(** [ptr ? UTF8ToString(ptr) : fallback] *)
Definition string_at (ptr : Z) (fallback : string) : Eff t string :=
  if ptr =? 0 then ret fallback else peek (fun m => UTF8ToString m ptr).

(** A case of the [switch] that forwards to one export and ignores the
    result. *)
Definition forward (f : Fn) (args : list Z) : Eff t unit :=
  h <- player ;; invoke f (h :: (AInt <$> args)) ;; ret tt.

(** A case that queries one export and posts the answer. *)
Definition query (f : Fn) (reply : Z -> Out.t) : Eff t unit :=
  h <- player ;; r <- invoke f [h] ;; post (reply r).

Definition handleMessage (msg : Msg.t) : Eff t unit :=
  rdy <- gets ready ;;
  if negb rdy && negb (Msg.is_ping msg) then ret tt else
  match msg with
  | Msg.ping => post (Out.pong rdy)
  | Msg.noteOn channel note velocity => forward adl_rt_noteOn [channel; note; velocity]
  | Msg.noteOff channel note => forward adl_rt_noteOff [channel; note]
  | Msg.pitchBend channel msb lsb => forward adl_rt_pitchBendML [channel; msb; lsb]
  | Msg.controlChange channel controller value =>
      forward adl_rt_controllerChange [channel; controller; value]
  | Msg.programChange channel program => forward adl_rt_patchChange [channel; program]
  | Msg.noteAfterTouch channel note pressure =>
      forward adl_rt_noteAfterTouch [channel; note; pressure]
  | Msg.channelAfterTouch channel pressure =>
      forward adl_rt_channelAfterTouch [channel; pressure]
  | Msg.bankChange channel bank => forward adl_rt_bankChange [channel; bank]
  | Msg.bankChangeMSB channel msb => forward adl_rt_bankChangeMSB [channel; msb]
  | Msg.bankChangeLSB channel lsb => forward adl_rt_bankChangeLSB [channel; lsb]
  | Msg.resetState => forward adl_rt_resetState []
  | Msg.panic => forward adl_panic []
  | Msg.configure s =>
      modify (fun p => with_settings (assign_settings (settings p) s) p) ;;
      applySettings s ;;
      post Out.configured
  | Msg.loadBank data => loadBank data
  | Msg.setBank bank =>
      h <- player ;;
      r <- invoke adl_setBank [h; AInt bank] ;;
      post (Out.bankSet (r =? 0) bank)
  | Msg.getInstrument bankId programNumber =>
      r <- getInstrument bankId programNumber ;;
      post (Out.instrumentLoaded (success r) (instrument r) (error r))
  | Msg.setInstrument bankId programNumber inst =>
      r <- setInstrument bankId programNumber inst ;;
      post (Out.instrumentSet (success r) (error r))
  | Msg.setNumChips chips => forward adl_setNumChips [chips]
  | Msg.setNumFourOpChannels channels => forward adl_setNumFourOpsChn [channels]
  | Msg.getNumFourOpChannels => query adl_getNumFourOpsChn Out.numFourOpChannels
  | Msg.setScaleModulators enabled => forward adl_setScaleModulators [b2z enabled]
  | Msg.setFullRangeBrightness enabled => forward adl_setFullRangeBrightness [b2z enabled]
  | Msg.setAutoArpeggio enabled => forward adl_setAutoArpeggio [b2z enabled]
  | Msg.getAutoArpeggio =>
      query adl_getAutoArpeggio (fun r => Out.autoArpeggio (negb (r =? 0)))
  | Msg.setChannelAllocMode mode => forward adl_setChannelAllocMode [mode]
  | Msg.getChannelAllocMode => query adl_getChannelAllocMode Out.channelAllocMode
  | Msg.setVolumeModel model => forward adl_setVolumeRangeModel [model]
  | Msg.setPercMode enabled => forward adl_setPercMode [b2z enabled]
  | Msg.setVibrato enabled => forward adl_setHVibrato [b2z enabled]
  | Msg.setTremolo enabled => forward adl_setHTremolo [b2z enabled]
  | Msg.setRunAtPcmRate enabled => forward adl_setRunAtPcmRate [b2z enabled]
  | Msg.switchEmulator emulator =>
      h <- player ;;
      r <- invoke adl_switchEmulator [h; AInt emulator] ;;
      post (Out.emulatorSwitched (r =? 0) emulator)
  | Msg.getEmulatorName =>
      h <- player ;;
      namePtr <- invoke adl_chipEmulatorName [h] ;;
      name <- string_at namePtr "Unknown" ;;
      post (Out.emulatorName name)
  | Msg.getLibraryVersion =>
      ptr <- invoke adl_linkedLibraryVersion [] ;;
      v <- string_at ptr "Unknown" ;;
      post (Out.libraryVersion v)
  | Msg.getVersion =>
      ptr <- invoke adl_linkedVersion [] ;;
      v <- (if ptr =? 0 then ret None
            else peek (fun m => Some (getValue m ptr "i16",
                                      getValue m (ptr + 2) "i16",
                                      getValue m (ptr + 4) "i16"))) ;;
      post (Out.version v)
  | Msg.getNumChips => query adl_getNumChips Out.numChips
  | Msg.getNumChipsObtained => query adl_getNumChipsObtained Out.numChipsObtained
  | Msg.getVolumeModel => query adl_getVolumeRangeModel Out.volumeModel
  | Msg.getEmbeddedBanks =>
      banks <- getEmbeddedBankList ;;
      post (Out.embeddedBanks banks)
  | Msg.loadMidi data => loadMidiData data
  | Msg.getMusicTitle =>
      h <- player ;;
      ptr <- invoke adl_metaMusicTitle [h] ;;
      title <- string_at ptr "" ;;
      post (Out.musicTitle title)
  | Msg.getMusicCopyright =>
      h <- player ;;
      ptr <- invoke adl_metaMusicCopyright [h] ;;
      copyright <- string_at ptr "" ;;
      post (Out.musicCopyright copyright)
  | Msg.play =>
      h <- player ;;
      atEnd <- invoke adl_atEnd [h] ;;
      when (negb (atEnd =? 0)) (invoke adl_positionRewind [h] ;; ret tt) ;;
      modify (with_playMode file)
  | Msg.stop =>
      modify (with_playMode realtime) ;;
      h <- player ;;
      invoke adl_positionRewind [h] ;;
      invoke adl_panic [h] ;;
      ret tt
  | Msg.seek position =>
      h <- player ;; invoke adl_positionSeek [h; ANum position] ;; ret tt
  | Msg.setLoop enabled => forward adl_setLoopEnabled [b2z enabled]
  | Msg.setTempo tempo =>
      h <- player ;; invoke adl_setTempo [h; ANum tempo] ;; ret tt
  | Msg.getState =>
      h <- player ;;
      position <- invoke_num adl_positionTell [h] ;;
      duration <- invoke_num adl_totalTimeLength [h] ;;
      atEnd <- invoke adl_atEnd [h] ;;
      mode <- gets playMode ;;
      post (Out.state position duration (negb (atEnd =? 0)) mode)
  | Msg.reset =>
      h <- player ;;
      invoke adl_reset [h] ;;
      modify (with_playMode realtime)
  | Msg.other _ => ret tt
  end.

(** [new Int16Array(buffer, byteOffset, length)] over the heap: a
    [RangeError] ([None]) for an odd offset or a window past the end of
    the buffer; otherwise element [k] is the 16-bit cell at byte
    [byteOffset + 2 * k]. *)
Definition int16_view (m : M) (byteOffset len : Z) : option (Z -> Z) :=
  if (byteOffset mod 2 =? 0) && (0 <=? byteOffset)
     && (byteOffset + 2 * len <=? HEAPU8_length m)
  then Some (fun k => HEAP16_get m (byteOffset / 2 + k))
  else None.

(** [chans[c][i] = v]; a store past the end of a typed array is ignored. *)
Definition store (chans : list (list Q)) (c i : nat) (v : Q) : list (list Q) :=
  alter (fun ch => <[i := v]> ch) c chans.

(** The conversion loop of [process] from frame [i] for [n] more frames;
    [r] is the index of the channel that [right] refers to (0 when
    [right] is the same array as [left]). *)
Fixpoint deinterleave (heap16 : Z -> Z) (r : nat) (i n : nat) (chans : list (list Q))
  : list (list Q) :=
  match n with
  | O => chans
  | S k =>
      let chans := store chans 0 i (sample_to_float (heap16 (Z.of_nat (i * 2)))) in
      let chans := store chans r i (sample_to_float (heap16 (Z.of_nat (i * 2 + 1)))) in
      deinterleave heap16 r (S i) k chans
  end.

(** [process(_inputs, outputs, _parameters)].  The method returns [true]
    on every path; what is returned here is [outputs] as the call
    leaves it. *)
Definition process (outputs : list (list (list Q))) : Eff t (list (list (list Q))) :=
  p <- get ;;
  let heap_ok := match adl p with Some m => HEAP16_defined m | None => false end in
  if negb (ready p) || falsy_ptr (midi p) || negb heap_ok then ret outputs else
  match outputs !! 0%nat with
  | None | Some [] => ret outputs
  | Some ((left_ :: rest) as output) =>
      let r := match rest with [] => 0%nat | _ :: _ => 1%nat end in
      let frames := length left_ in
      try_catch
        (let sampleCount := Z.of_nat (frames * 2) in
         h <- player ;;
         match playMode p with
         | file =>
             invoke adl_play [h; AInt sampleCount; ptr_arg (bufferPtr p)] ;;
             atEnd <- invoke adl_atEnd [h] ;;
             when (negb (atEnd =? 0))
               (invoke adl_panic [h] ;;
                modify (with_playMode realtime) ;;
                post Out.playbackEnded)
         | realtime =>
             invoke adl_generate [h; AInt sampleCount; ptr_arg (bufferPtr p)] ;;
             ret tt
         end ;;
         currentBuffer <- peek HEAP16_buffer ;;
         cached <- gets cachedHeapBuffer ;;
         when (negb (bool_decide (cached = Some currentBuffer)))
           (modify (with_cachedHeapBuffer (Some currentBuffer))) ;;
         view <- peek (fun m => int16_view m (default 0 (bufferPtr p)) sampleCount) ;;
         match view with
         | None => throw "RangeError"
         | Some heap16 =>
             ret (<[0%nat := deinterleave heap16 r 0 frames output]> outputs)
         end)
        (fun e => post (Out.processingError e) ;; ret outputs)
  end.

End Processor.
Arguments t M : clear implicits.
End AdlMidiProcessor.

(* ===================================================================== *)
(** * src/libadlmidi.js : AdlMidi *)
(* ===================================================================== *)

Module AdlMidi.

(** What a promise of this class resolves with. *)
Inductive Value :=
  | VUndefined
  | VInstrument (i : option Instrument)
  | VName (s : option string).

Inductive PromiseState :=
  | Pending
  | Fulfilled (v : Value)
  | Rejected (reason : string).

(** [resolve(v)] and [reject(new Error(reason))] of the promise [p]:
    both do nothing once the promise has settled. *)
Definition settle (p : nat) (s : PromiseState) (ps : gmap nat PromiseState)
  : gmap nat PromiseState :=
  match ps !! p with
  | Some Pending => <[p := s]> ps
  | _ => ps
  end.

(** A pending [setTimeout]: its delay in milliseconds and its callback.
    The only callback in this class rejects a promise. *)
Record Timer := mkTimer {
  delay : Z;
  callback : gmap nat PromiseState -> gmap nat PromiseState
}.

(** Everything a message handler of this class can touch besides the
    handler registry. *)
Record Env := mkEnv {
  ready : bool;
  node : bool;
  promises : gmap nat PromiseState;
  next_promise : nat;
  timers : gmap nat Timer;
  next_timer : nat;
  (** messages posted on [this.node.port], oldest first *)
  sent : list Msg.t
}.

Definition with_ready (b : bool) (e : Env) : Env :=
  mkEnv b (node e) (promises e) (next_promise e) (timers e) (next_timer e) (sent e).
Definition with_node (b : bool) (e : Env) : Env :=
  mkEnv (ready e) b (promises e) (next_promise e) (timers e) (next_timer e) (sent e).
Definition with_promises (ps : gmap nat PromiseState) (e : Env) : Env :=
  mkEnv (ready e) (node e) ps (next_promise e) (timers e) (next_timer e) (sent e).
Definition with_timers (ts : gmap nat Timer) (e : Env) : Env :=
  mkEnv (ready e) (node e) (promises e) (next_promise e) ts (next_timer e) (sent e).

Definition resolve (p : nat) (v : Value) (e : Env) : Env :=
  with_promises (settle p (Fulfilled v) (promises e)) e.
Definition reject (p : nat) (reason : string) (e : Env) : Env :=
  with_promises (settle p (Rejected reason) (promises e)) e.

(** [new Promise(...)]: the fresh promise and the environment holding it. *)
Definition new_promise (e : Env) : nat * Env :=
  (next_promise e,
   mkEnv (ready e) (node e) (<[next_promise e := Pending]> (promises e))
         (S (next_promise e)) (timers e) (next_timer e) (sent e)).

Definition setTimeout (cb : gmap nat PromiseState -> gmap nat PromiseState) (ms : Z)
  (e : Env) : nat * Env :=
  (next_timer e,
   mkEnv (ready e) (node e) (promises e) (next_promise e)
         (<[next_timer e := mkTimer ms cb]> (timers e)) (S (next_timer e)) (sent e)).

Definition clearTimeout (id : nat) (e : Env) : Env :=
  with_timers (delete id (timers e)) e.

(** [#send(msg)] *)
Definition send (m : Msg.t) (e : Env) : Env :=
  if node e
  then mkEnv (ready e) (node e) (promises e) (next_promise e) (timers e) (next_timer e)
             (sent e ++ [m])
  else e.

(** The handlers given to [#onceMessage] in this class settle promises,
    cancel the timer, set [#ready]; none of them reaches the registry. *)
Definition Handler : Type := Out.t -> Env -> Env.

(** [#messageHandlers] is a [Map<string, Set<Function>>].  A [Set] of
    functions is kept as the list of its members in insertion order;
    each wrapper closure has its own identity, the number it is paired
    with.  [fired] records the wrappers that ran their handler, in
    order; no method reads it. *)
Record t := mk {
  messageHandlers : gmap string (list (nat * Handler));
  next_handler : nat;
  env : Env;
  fired : list nat
}.

Definition with_env (e : Env) (c : t) : t :=
  mk (messageHandlers c) (next_handler c) e (fired c).
Definition on_env (f : Env -> Env) (c : t) : t := with_env (f (env c)) c.

(** [new AdlMidi()] *)
Definition new : t :=
  {| messageHandlers := ∅; next_handler := 0%nat;
     env := mkEnv false false ∅ 0%nat ∅ 0%nat [];
     fired := [] |}.

(** [set.delete(w)] for the wrapper with identity [id]. *)
Definition set_delete (id : nat) (set : list (nat * Handler)) : list (nat * Handler) :=
  filter (fun w => w.1 ≠ id) set.

Definition set_has (id : nat) (set : list (nat * Handler)) : bool :=
  bool_decide (id ∈ set.*1).

(** The body of [wrappedHandler]: delete itself from the set of its
    type, then call the handler. *)
Definition wrappedHandler (type : string) (id : nat) (handler : Handler) (msg : Out.t)
  (c : t) : t :=
  let c := mk (alter (set_delete id) type (messageHandlers c))
              (next_handler c) (env c) (fired c) in
  mk (messageHandlers c) (next_handler c) (handler msg (env c)) (fired c ++ [id]).

(** [#onceMessage(type, handler)] *)
Definition onceMessage (type : string) (handler : Handler) (c : t) : t :=
  let mh := match messageHandlers c !! type with
            | Some _ => messageHandlers c
            | None => <[type := []]> (messageHandlers c)
            end in
  let id := next_handler c in
  mk (alter (fun set => set ++ [(id, handler)]) type mh) (S id) (env c) (fired c).

(** [handlers.forEach(handler => handler(msg))] over the members the
    set had when the iteration started: a member deleted before its
    turn is skipped.  No handler of this class adds to the set while it
    is iterated. *)
Fixpoint forEach (type : string) (members : list (nat * Handler)) (msg : Out.t) (c : t) : t :=
  match members with
  | [] => c
  | (id, h) :: rest =>
      let live := default [] (messageHandlers c !! type) in
      forEach type rest msg
        (if set_has id live then wrappedHandler type id h msg c else c)
  end.

(** [#handleMessage(msg)] *)
Definition handleMessage (msg : Out.t) (c : t) : t :=
  match messageHandlers c !! Out.type msg with
  | Some handlers => forEach (Out.type msg) handlers msg c
  | None => c
  end.

(** [s || fallback] on an optional string. *)
Definition or_string (s : option string) (fallback : string) : string :=
  match s with
  | Some "" | None => fallback
  | Some x => x
  end.

Definition TIMEOUT_MESSAGE : string := "Timeout waiting for WASM initialization".

(** The three closures of the handshake, for the promise [p] and the
    timer [timeout]. *)
Definition on_timeout (p : nat) : gmap nat PromiseState -> gmap nat PromiseState :=
  settle p (Rejected TIMEOUT_MESSAGE).
Definition on_ready (p timeout : nat) : Handler :=
  fun _ e => resolve p VUndefined (with_ready true (clearTimeout timeout e)).
Definition on_error (p timeout : nat) : Handler :=
  fun msg e => reject p (default "" (Out.message_of msg)) (clearTimeout timeout e).

(** The end of [init]: the node exists, [port.onmessage] is set, and
    the executor of the returned promise runs.  Returns the promise and
    the timer. *)
Definition init_handshake (c : t) : nat * nat * t :=
  let e := with_node true (env c) in
  let '(p, e) := new_promise e in
  let '(timeout, e) := setTimeout (on_timeout p) 10000 e in
  let c := with_env e c in
  let c := onceMessage "ready" (on_ready p timeout) c in
  let c := onceMessage "error" (on_error p timeout) c in
  (p, timeout, c).

(** A request: the executor registers the one-shot handler for the
    reply's type and then sends. *)
Definition request (reply : string) (on_reply : nat -> Handler) (m : Msg.t) (c : t)
  : nat * t :=
  let '(p, e) := new_promise (env c) in
  let c := with_env e c in
  let c := onceMessage reply (on_reply p) c in
  (p, on_env (send m) c).

Definition configure (s : Settings) : t -> nat * t :=
  request "configured" (fun p _ e => resolve p VUndefined e) (Msg.configure s).

Definition loadBank (data : list Z) : t -> nat * t :=
  request "bankLoaded"
    (fun p msg e => if Out.success_of msg then resolve p VUndefined e
                    else reject p (or_string (Out.error_of msg) "Failed to load bank") e)
    (Msg.loadBank data).

Definition setBank (bank : Z) : t -> nat * t :=
  request "bankSet"
    (fun p msg e => if Out.success_of msg then resolve p VUndefined e
                    else reject p ("Failed to set bank " +:+ pretty bank) e)
    (Msg.setBank bank).

Definition getInstrument (bankId : BankId) (programNumber : Z) : t -> nat * t :=
  request "instrumentLoaded"
    (fun p msg e => if Out.success_of msg
                    then resolve p (VInstrument (Out.instrument_of msg)) e
                    else reject p (or_string (Out.error_of msg) "Failed to get instrument") e)
    (Msg.getInstrument bankId programNumber).

Definition setInstrument (bankId : BankId) (programNumber : Z) (inst : Instrument)
  : t -> nat * t :=
  request "instrumentSet"
    (fun p msg e => if Out.success_of msg then resolve p VUndefined e
                    else reject p (or_string (Out.error_of msg) "Failed to set instrument") e)
    (Msg.setInstrument bankId programNumber inst).

Definition switchEmulator (emulator : Z) : t -> nat * t :=
  request "emulatorSwitched"
    (fun p msg e =>
       if Out.success_of msg then resolve p VUndefined e
       else reject p ("Failed to switch to emulator " +:+ pretty emulator +:+
                      ". It may not be available in this build profile.") e)
    (Msg.switchEmulator emulator).

Definition getEmulatorName : t -> nat * t :=
  request "emulatorName" (fun p msg e => resolve p (VName (Out.name_of msg)) e)
    Msg.getEmulatorName.

(** Fire-and-forget commands. *)
Definition noteOn (channel note velocity : Z) : t -> t :=
  on_env (send (Msg.noteOn channel note velocity)).
Definition noteOff (channel note : Z) : t -> t :=
  on_env (send (Msg.noteOff channel note)).
Definition pitchBend (channel value : Z) : t -> t :=
  let lsb := JS.band value 0x7F in
  let msb := JS.band (JS.sar value 7) 0x7F in
  on_env (send (Msg.pitchBend channel msb lsb)).
Definition panic : t -> t := on_env (send Msg.panic).
Definition reset : t -> t := on_env (send Msg.reset).

Definition controlChange (channel controller value : Z) : t -> t :=
  on_env (send (Msg.controlChange channel controller value)).
Definition programChange (channel program : Z) : t -> t :=
  on_env (send (Msg.programChange channel program)).
Definition resetState : t -> t := on_env (send Msg.resetState).
Definition setNumChips (chips : Z) : t -> t := on_env (send (Msg.setNumChips chips)).
Definition setVolumeModel (model : Z) : t -> t :=
  on_env (send (Msg.setVolumeModel model)).
Definition setPercussionMode (enabled : bool) : t -> t :=
  on_env (send (Msg.setPercMode enabled)).
Definition setVibrato (enabled : bool) : t -> t := on_env (send (Msg.setVibrato enabled)).
Definition setTremolo (enabled : bool) : t -> t := on_env (send (Msg.setTremolo enabled)).

(** [close()]: the node is disconnected and dropped, [#ready] is cleared;
    the handler registry is left as it is. *)
Definition close : t -> t := on_env (fun e => with_ready false (with_node false e)).

(** The fire-and-forget methods as data, each with its arguments. *)
Inductive Command :=
  | c_noteOn (channel note velocity : Z)
  | c_noteOff (channel note : Z)
  | c_pitchBend (channel value : Z)
  | c_controlChange (channel controller value : Z)
  | c_programChange (channel program : Z)
  | c_resetState
  | c_panic
  | c_setNumChips (chips : Z)
  | c_setVolumeModel (model : Z)
  | c_setPercussionMode (enabled : bool)
  | c_setVibrato (enabled : bool)
  | c_setTremolo (enabled : bool)
  | c_reset.

Definition perform (cmd : Command) : t -> t :=
  match cmd with
  | c_noteOn channel note velocity => noteOn channel note velocity
  | c_noteOff channel note => noteOff channel note
  | c_pitchBend channel value => pitchBend channel value
  | c_controlChange channel controller value => controlChange channel controller value
  | c_programChange channel program => programChange channel program
  | c_resetState => resetState
  | c_panic => panic
  | c_setNumChips chips => setNumChips chips
  | c_setVolumeModel model => setVolumeModel model
  | c_setPercussionMode enabled => setPercussionMode enabled
  | c_setVibrato enabled => setVibrato enabled
  | c_setTremolo enabled => setTremolo enabled
  | c_reset => reset
  end.

(** The methods that return a promise, as data. *)
Inductive Request :=
  | q_configure (settings : Settings)
  | q_loadBank (data : list Z)
  | q_setBank (bank : Z)
  | q_getInstrument (bankId : BankId) (programNumber : Z)
  | q_setInstrument (bankId : BankId) (programNumber : Z) (instrument : Instrument)
  | q_switchEmulator (emulator : Z)
  | q_getEmulatorName.

Definition ask (q : Request) : t -> nat * t :=
  match q with
  | q_configure settings => configure settings
  | q_loadBank data => loadBank data
  | q_setBank bank => setBank bank
  | q_getInstrument bankId programNumber => getInstrument bankId programNumber
  | q_setInstrument bankId programNumber instrument =>
      setInstrument bankId programNumber instrument
  | q_switchEmulator emulator => switchEmulator emulator
  | q_getEmulatorName => getEmulatorName
  end.

(** What can happen to the object between two of its own method calls:
    the port delivers a message, or a timer expires. *)
Inductive Event :=
  | Deliver (msg : Out.t)
  | Expire (timer : nat).

Definition expire (id : nat) (e : Env) : Env :=
  match timers e !! id with
  | Some tm => with_promises (callback tm (promises e)) (with_timers (delete id (timers e)) e)
  | None => e
  end.

Definition step (ev : Event) (c : t) : t :=
  match ev with
  | Deliver msg => handleMessage msg c
  | Expire id => on_env (expire id) c
  end.

Definition run (evs : list Event) (c : t) : t := foldl (fun c ev => step ev c) c evs.

(** A history of the object: registrations of one-shot handlers
    interleaved with events. *)
Inductive Action :=
  | Once (type : string) (handler : Handler)
  | Happens (ev : Event).

Definition act (a : Action) (c : t) : t :=
  match a with
  | Once type h => onceMessage type h c
  | Happens ev => step ev c
  end.

Definition history (l : list Action) (c : t) : t := foldl (fun c a => act a c) c l.

(** The wrappers currently registered, over all types. *)
Definition registered (c : t) (id : nat) : Prop :=
  ∃ type set, messageHandlers c !! type = Some set ∧ id ∈ set.*1.

End AdlMidi.

(* ===================================================================== *)
(** * A small concrete module, to run the definitions *)
(* ===================================================================== *)

Module Toy.

(** A byte heap with a bump allocator, one stored instrument, a ramp as
    sample source and scripted status codes for the other exports. *)
Record t := mk {
  bytes : gmap Z Z;
  brk : Z;
  size : Z;
  stored : list Z;
  status : Fn -> Z
}.

Definition with_bytes (b : gmap Z Z) (m : t) : t :=
  mk b (brk m) (size m) (stored m) (status m).

Definition load8 (m : t) (a : Z) : Z := default 0 (bytes m !! a).
Definition store8 (a v : Z) (m : t) : t := with_bytes (<[a := v]> (bytes m)) m.

Fixpoint store_bytes (a : Z) (l : list Z) (m : t) : t :=
  match l with
  | [] => m
  | b :: rest => store_bytes (a + 1) rest (store8 a b m)
  end.

Definition load16 (m : t) (k : Z) : Z :=
  JS.signed 16 (load8 m (2 * k) + 256 * load8 m (2 * k + 1)).

(** Sample [k] of a block: a ramp [100, 200, ...], negated on odd [k]. *)
Definition ramp (k : nat) : Z :=
  let v := 100 * (Z.of_nat k + 1) in if Nat.even k then v else - v.

Fixpoint fill (ptr : Z) (k n : nat) (m : t) : t :=
  match n with
  | O => m
  | S n' =>
      let u := JS.to_uint16 (ramp k) in
      fill ptr (S k) n'
        (store8 (ptr + 2 * Z.of_nat k + 1) (u / 256)
           (store8 (ptr + 2 * Z.of_nat k) (u mod 256) m))
  end.

Definition int_arg (a : option arg) : Z :=
  match a with Some (AInt z) => z | _ => 0 end.

Definition call (f : Fn) (args : list arg) (m : t) : Z * t :=
  match f with
  | malloc =>
      let n := int_arg (args !! 0%nat) in
      (brk m, mk (bytes m) (brk m + 8 * ((n + 7) / 8)) (size m) (stored m) (status m))
  | adl_generate | adl_play =>
      (0, fill (int_arg (args !! 2%nat)) 0 (Z.to_nat (int_arg (args !! 1%nat))) m)
  | adl_getInstrument =>
      (status m f,
       if status m f =? 0 then store_bytes (int_arg (args !! 3%nat)) (stored m) m else m)
  | adl_setInstrument =>
      (status m f,
       if status m f =? 0
       then mk (bytes m) (brk m) (size m)
               ((fun k => load8 m (int_arg (args !! 3%nat) + Z.of_nat k)) <$> seq 0 40)
               (status m)
       else m)
  | _ => (status m f, m)
  end.

#[global] Instance wasm : Wasm t := {|
  ccall := call;
  ccall_num := fun f _ m => (inject_Z (status m f), m);
  HEAPU8_get := load8;
  HEAPU8_set := store8;
  HEAPU8_length := size;
  HEAP16_defined := fun _ => true;
  HEAP16_get := load16;
  HEAP16_buffer := size;
  getValue := fun m a _ => load8 m a;
  UTF8ToString := fun _ _ => "toy"
|}.

(** The player handle is 1; every other export answers 0 (success, not
    at end). *)
Definition ok (f : Fn) : Z := match f with adl_init => 1 | _ => 0 end.

Definition fresh (st : Fn -> Z) : t :=
  mk ∅ 1024 65536 (replicate 40 0) st.

(** Scripts that make one export fail. *)
Definition failing (g : Fn) (f : Fn) : Z :=
  match f, g with
  | adl_getBank, adl_getBank => -1
  | adl_getInstrument, adl_getInstrument => -1
  | adl_setInstrument, adl_setInstrument => -1
  | adl_atEnd, adl_atEnd => 1
  | _, _ => ok f
  end.

End Toy.


(* ===================================================================== *)
(** * Vocabulary of the properties *)
(* ===================================================================== *)

(** Exhaustive check of a boolean property on [0 .. n-1]. *)
Definition Zall (n : nat) (P : Z -> bool) : bool :=
  forallb P (Z.of_nat <$> seq 0 n).

Definition is_byte (b : Z) : Prop := 0 <= b <= 255.

(** The documented ranges of the numeric [Operator] fields. *)
Definition operator_in_range (op : Operator) : Prop :=
  0 <= freqMult op <= 15 ∧ 0 <= keyScaleLevel op <= 3 ∧
  0 <= totalLevel op <= 63 ∧
  0 <= attack op <= 15 ∧ 0 <= decay op <= 15 ∧
  0 <= sustain op <= 15 ∧ 0 <= release op <= 15 ∧
  0 <= waveform op <= 7.

(** An optional number that is given and lies in [lo .. hi]. *)
Definition present (lo hi : Z) (x : option Z) : Prop :=
  match x with Some v => lo <= v <= hi | None => False end.

Definition four_operators (ops : option (list (option Operator))) : Prop :=
  match ops with
  | Some [Some a; Some b; Some c; Some d] =>
      operator_in_range a ∧ operator_in_range b ∧
      operator_in_range c ∧ operator_in_range d
  | _ => False
  end.

(** The documented ranges of the [Instrument] fields, all of them given. *)
Definition instrument_in_range (inst : Instrument) : Prop :=
  present (- 2 ^ 31) (2 ^ 31 - 1) (version inst) ∧
  present (- 32768) 32767 (noteOffset1 inst) ∧
  present (- 32768) 32767 (noteOffset2 inst) ∧
  present (- 128) 127 (velocityOffset inst) ∧
  present (- 128) 127 (secondVoiceDetune inst) ∧
  present 0 255 (percussionKey inst) ∧
  is_Some (is4op inst) ∧ is_Some (isPseudo4op inst) ∧ is_Some (isBlank inst) ∧
  present 0 7 (rhythmMode inst) ∧
  present 0 7 (feedback1 inst) ∧ present 0 1 (connection1 inst) ∧
  present 0 7 (feedback2 inst) ∧ present 0 1 (connection2 inst) ∧
  four_operators (operators inst) ∧
  present 0 65535 (delayOnMs inst) ∧ present 0 65535 (delayOffMs inst).

(** [ops[i] = v] on a JavaScript array: an index past the end extends the
    array, leaving holes in between. *)
Definition array_set {A} (l : list (option A)) (i : nat) (v : A) : list (option A) :=
  if (i <? length l)%nat then <[i := Some v]> l
  else l ++ replicate (i - length l) None ++ [Some v].

(** The instrument with its [operators] array replaced. *)
Definition set_operators (ops : list (option Operator)) (inst : Instrument) : Instrument :=
  mkInstrument (version inst) (noteOffset1 inst) (noteOffset2 inst) (velocityOffset inst)
    (secondVoiceDetune inst) (percussionKey inst) (is4op inst) (isPseudo4op inst)
    (isBlank inst) (rhythmMode inst) (feedback1 inst) (connection1 inst) (feedback2 inst)
    (connection2 inst) (Some ops) (delayOnMs inst) (delayOffMs inst).

(** A 4-operator electric piano patch, every field at a non-default value. *)
Definition sample_operator (k : Z) : Operator :=
  {| am := true; vibrato := false; sustaining := true; ksr := true;
     freqMult := 1 + k; keyScaleLevel := k mod 4; totalLevel := 20 + k;
     attack := 15 - k; decay := 4 + k; sustain := 2 * k; release := 7;
     waveform := k |}.

Definition sample_instrument : Instrument :=
  {| version := Some (-3); noteOffset1 := Some (-12); noteOffset2 := Some 7;
     velocityOffset := Some (-5); secondVoiceDetune := Some 3;
     percussionKey := Some 200;
     is4op := Some true; isPseudo4op := Some false; isBlank := Some false;
     rhythmMode := Some 5;
     feedback1 := Some 6; connection1 := Some 1;
     feedback2 := Some 3; connection2 := Some 0;
     operators := Some [Some (sample_operator 0); Some (sample_operator 1);
                        Some (sample_operator 2); Some (sample_operator 3)];
     delayOnMs := Some 40000; delayOffMs := Some 513 |}.

#[global] Instance Fn_eq_dec : EqDecision Fn.
Proof. solve_decision. Defined.

(** The calls an operation added to a trace that was [before]. *)
Definition new_calls (before after : list Call) : list Call :=
  drop (length before) after.

(** The calls of one export in a trace, and what its first call returned. *)
Definition calls_to (f : Fn) (tr : list Call) : list Call :=
  filter (fun c => call_fn c = f) tr.
Definition status_of (f : Fn) (tr : list Call) : option arg :=
  call_result <$> head (calls_to f tr).


(** An [AdlMidiCore] on which [init] has succeeded: the module is loaded
    and the player handle is not null. *)
Definition core_initialized {M} (c : AdlMidiCore.t M) : Prop :=
  is_Some (AdlMidiCore._module c) ∧ falsy_ptr (AdlMidiCore._player c) = false.

(** The module held by the core exposes its [HEAP16] view. *)
Definition exposes_HEAP16 {M} `{Wasm M} (c : AdlMidiCore.t M) : Prop :=
  ∃ m, AdlMidiCore._module c = Some m ∧ HEAP16_defined m = true.


(** A computation that leaves a projection of the state as it was. *)
Definition keeps {S X A} (proj : S -> X) (m : Eff S A) : Prop :=
  ∀ s, proj (snd (m s)) = proj s.

(** A processor whose [initWasm] has completed: the ready flag is set, the
    player handle is not null and the module with its [HEAP16] view is
    there. *)
Definition processor_running {M} `{Wasm M} (p : AdlMidiProcessor.t M) : Prop :=
  AdlMidiProcessor.ready p = true ∧ falsy_ptr (AdlMidiProcessor.midi p) = false ∧
  ∃ m, AdlMidiProcessor.adl p = Some m ∧ HEAP16_defined m = true.

(** The messages an operation posted on a port that held [before]. *)
Definition posted (before after : list Out.t) : list Out.t :=
  drop (length before) after.

Definition is_playbackEnded (m : Out.t) : bool :=
  match m with Out.playbackEnded => true | _ => false end.

(** The registry of one-shot handlers is well formed: wrapper identities
    are unique, below the allocation counter, and no registered wrapper
    has fired. *)
Record registry_ok (c : AdlMidi.t) : Prop := {
  fired_nodup : NoDup (AdlMidi.fired c);
  fired_bound : ∀ id, id ∈ AdlMidi.fired c -> (id < AdlMidi.next_handler c)%nat;
  sets_nodup : ∀ type (set : list (nat * AdlMidi.Handler)),
    AdlMidi.messageHandlers c !! type = Some set -> NoDup set.*1;
  sets_bound : ∀ type (set : list (nat * AdlMidi.Handler)) id,
    AdlMidi.messageHandlers c !! type = Some set -> id ∈ set.*1 ->
    (id < AdlMidi.next_handler c)%nat;
  sets_fresh : ∀ type (set : list (nat * AdlMidi.Handler)) id,
    AdlMidi.messageHandlers c !! type = Some set -> id ∈ set.*1 ->
    id ∉ AdlMidi.fired c;
  sets_disjoint : ∀ t1 t2 (s1 s2 : list (nat * AdlMidi.Handler)) id,
    AdlMidi.messageHandlers c !! t1 = Some s1 ->
    AdlMidi.messageHandlers c !! t2 = Some s2 ->
    id ∈ s1.*1 -> id ∈ s2.*1 -> t1 = t2
}.

(** The initialisation handshake as the specification words it: the
    first of ready, error and timeout decides. *)
Module Handshake.

Inductive Decisive :=
  | by_ready
  | by_error (message : string)
  | by_timeout.

Definition decisive (timeout : nat) (ev : AdlMidi.Event) : option Decisive :=
  match ev with
  | AdlMidi.Deliver msg =>
      if decide (Out.type msg = "ready") then Some by_ready
      else if decide (Out.type msg = "error")
           then Some (by_error (default "" (Out.message_of msg)))
           else None
  | AdlMidi.Expire id => if decide (id = timeout) then Some by_timeout else None
  end.

Definition first_decisive (timeout : nat) (evs : list AdlMidi.Event) : option Decisive :=
  head (omap (decisive timeout) evs).

Definition expected (d : option Decisive) : AdlMidi.PromiseState :=
  match d with
  | None => AdlMidi.Pending
  | Some by_ready => AdlMidi.Fulfilled AdlMidi.VUndefined
  | Some (by_error message) => AdlMidi.Rejected message
  | Some by_timeout => AdlMidi.Rejected AdlMidi.TIMEOUT_MESSAGE
  end.

(** The object right after the handshake was set up on a new [AdlMidi],
    with the promise and the timer it created. *)
Definition start : AdlMidi.t := (AdlMidi.init_handshake AdlMidi.new).2.
Definition promise : nat := (AdlMidi.init_handshake AdlMidi.new).1.1.
Definition timer : nat := (AdlMidi.init_handshake AdlMidi.new).1.2.

(** What is left of the handshake at any later time: which handlers
    still wait, whether the timer is armed, the promise and [#ready]. *)
Record Shape := mkShape {
  ready_waits : bool;
  error_waits : bool;
  timer_armed : bool;
  outcome : AdlMidi.PromiseState;
  flag : bool
}.

Definition represents (c : AdlMidi.t) (s : Shape) : Prop :=
  AdlMidi.messageHandlers c =
    {[ "ready" := if ready_waits s then [(0%nat, AdlMidi.on_ready 0 0)] else [];
       "error" := if error_waits s then [(1%nat, AdlMidi.on_error 0 0)] else [] ]} ∧
  AdlMidi.env c =
    AdlMidi.mkEnv (flag s) true {[ 0%nat := outcome s ]} 1
      (if timer_armed s then {[ 0%nat := AdlMidi.mkTimer 10000 (AdlMidi.on_timeout 0) ]}
       else ∅) 1 [].

Definition settled (o : AdlMidi.PromiseState) (by_ : AdlMidi.PromiseState)
  : AdlMidi.PromiseState :=
  match o with AdlMidi.Pending => by_ | _ => o end.

Definition shape_step (ev : AdlMidi.Event) (s : Shape) : Shape :=
  match decisive 0 ev with
  | Some by_ready =>
      if ready_waits s
      then mkShape false (error_waits s) false
                   (settled (outcome s) (expected (Some by_ready))) true
      else s
  | Some (by_error m) =>
      if error_waits s
      then mkShape (ready_waits s) false false
                   (settled (outcome s) (expected (Some (by_error m)))) (flag s)
      else s
  | Some by_timeout =>
      if timer_armed s
      then mkShape (ready_waits s) (error_waits s) false
                   (settled (outcome s) (expected (Some by_timeout))) (flag s)
      else s
  | None => s
  end.

Definition initial : Shape := mkShape true true true AdlMidi.Pending false.

(** A shape in which nothing has been decided yet still has everything
    armed. *)
Definition coherent (s : Shape) : Prop :=
  outcome s = AdlMidi.Pending ->
  ready_waits s = true ∧ error_waits s = true ∧ timer_armed s = true.

End Handshake.

(** Concrete sessions over the toy module. *)
Definition no_settings : Settings := mkSettings None None None None None None.
Definition bank0 : BankId := mkBankId (Some 0) (Some 0) (Some 0).

Definition toy_core (script : Fn -> Z) : AdlMidiCore.t Toy.t :=
  exec (AdlMidiCore.init 44100) (AdlMidiCore.create (Toy.fresh script)).

Definition toy_processor (script : Fn -> Z) : AdlMidiProcessor.t Toy.t :=
  exec (AdlMidiProcessor.initWasm (inl (Toy.fresh script)))
       (AdlMidiProcessor.constructor None no_settings).

(** The same patch with a hole in slot 1 and no slot 3. *)
Definition sparse_operators : list (option Operator) :=
  [Some (sample_operator 0); None; Some (sample_operator 2)].
Definition sparse_instrument : Instrument :=
  set_operators sparse_operators sample_instrument.

(* ===================================================================== *)
(** * Vocabulary of the further properties *)
(* ===================================================================== *)

(** The operator with every multi-bit field reduced to the bits that
    [encodeOperator] stores. *)
Definition wrap_operator (op : Operator) : Operator :=
  {| am := am op; vibrato := vibrato op; sustaining := sustaining op; ksr := ksr op;
     freqMult := freqMult op mod 16;
     keyScaleLevel := keyScaleLevel op mod 4;
     totalLevel := totalLevel op mod 64;
     attack := attack op mod 16; decay := decay op mod 16;
     sustain := sustain op mod 16; release := release op mod 16;
     waveform := waveform op mod 8 |}.

(** The operator the encoder takes for slot [i]. *)
Definition slot (inst : Instrument) (i : nat) : Operator :=
  default defaultOperator (operator_at inst i).

(** The instrument with absent fields defaulted as [encodeInstrument]
    defaults them and every field reduced to what its bytes can hold. *)
Definition wrap_instrument (inst : Instrument) : Instrument :=
  {| version := Some (JS.signed 32 (JS.to_uint32 (JS.or_zero (version inst))));
     noteOffset1 := Some (JS.signed 16 (JS.to_uint16 (JS.or_zero (noteOffset1 inst))));
     noteOffset2 := Some (JS.signed 16 (JS.to_uint16 (JS.or_zero (noteOffset2 inst))));
     velocityOffset := Some (JS.signed 8 (JS.to_uint8 (JS.or_zero (velocityOffset inst))));
     secondVoiceDetune :=
       Some (JS.signed 8 (JS.to_uint8 (JS.or_zero (secondVoiceDetune inst))));
     percussionKey := Some (JS.to_uint8 (JS.or_zero (percussionKey inst)));
     is4op := Some (JS.flag (is4op inst));
     isPseudo4op := Some (JS.flag (isPseudo4op inst));
     isBlank := Some (JS.flag (isBlank inst));
     rhythmMode := Some (JS.or_zero (rhythmMode inst) mod 8);
     feedback1 := Some (JS.or_zero (feedback1 inst) mod 8);
     connection1 := Some (JS.or_zero (connection1 inst) mod 2);
     feedback2 := Some (JS.or_zero (feedback2 inst) mod 8);
     connection2 := Some (JS.or_zero (connection2 inst) mod 2);
     operators := Some [Some (wrap_operator (slot inst 0)); Some (wrap_operator (slot inst 1));
                        Some (wrap_operator (slot inst 2)); Some (wrap_operator (slot inst 3))];
     delayOnMs := Some (JS.to_uint16 (JS.or_zero (delayOnMs inst)));
     delayOffMs := Some (JS.to_uint16 (JS.or_zero (delayOffMs inst))) |}.

(** A 40-byte image with the bits that no field of [Instrument] reads set
    to zero: bits 6-7 of the flags byte, bits 4-7 of the two
    feedback/connection bytes, bits 3-7 of the four waveform bytes and the
    two bytes of padding. *)
Definition clear_unused (bytes : list Z) : list Z :=
  imap (fun (i : nat) b =>
          if decide (i = 11%nat) then Z.land b 0x3F
          else if decide (i = 12%nat ∨ i = 13%nat) then Z.land b 0x0F
          else if decide (i ∈ [18; 23; 28; 33]%nat) then Z.land b 0x07
          else if decide (38 <= i)%nat then 0
          else b)
       (take 40 bytes).

(** The message of the error thrown by [_ensurePlayer]. *)
Definition NOT_INITIALIZED : string := "Synthesizer not initialized - call init() first".

(** The toy module as a build that does not export its [HEAP16] view. *)
Definition headless : Wasm Toy.t := {|
  ccall := Toy.call;
  ccall_num := fun f _ m => (inject_Z (Toy.status m f), m);
  HEAPU8_get := Toy.load8;
  HEAPU8_set := Toy.store8;
  HEAPU8_length := Toy.size;
  HEAP16_defined := fun _ => false;
  HEAP16_get := Toy.load16;
  HEAP16_buffer := Toy.size;
  getValue := fun m a _ => Toy.load8 m a;
  UTF8ToString := fun _ _ => "toy"
|}.

(** A core initialised over that module. *)
Definition headless_core : AdlMidiCore.t Toy.t :=
  exec (AdlMidiCore.init (H := headless) 44100) (AdlMidiCore.create (Toy.fresh Toy.ok)).

(** A call as the pair of the export and its arguments. *)
Definition request_of (k : Call) : Fn * list arg := (call_fn k, call_args k).

(** A computation under which a property of the state is stable, on
    every path, the throwing ones included. *)
Definition preserves {S A} (P : S -> Prop) (m : Eff S A) : Prop :=
  ∀ s, P s -> P (snd (m s)).

(** The session holds a module and the player [p], at sample rate [sr]. *)
Definition holds_player {M} (p : option Z) (sr : Z) (c : AdlMidiCore.t M) : Prop :=
  is_Some (AdlMidiCore._module c) ∧ AdlMidiCore._player c = p ∧
  AdlMidiCore._sampleRate c = sr.

(** Entry [k] of the list of embedded banks read from the module [m]
    through the table of name pointers at [namesPtr]. *)
Definition bank_entry `{Wasm M} (m : M) (namesPtr : Z) (k : nat) : Z * string :=
  let strPtr := getValue m (namesPtr + Z.of_nat k * 4) "i32" in
  (Z.of_nat k,
   if strPtr =? 0 then "Bank " +:+ pretty (Z.of_nat k) else UTF8ToString m strPtr).



(** The type of the message that [handleMessage] posts in answer to
    [msg]; [None] for the messages that are not answered. *)
Definition reply_type (msg : Msg.t) : option string :=
  match msg with
  | Msg.ping => Some "pong"
  | Msg.configure _ => Some "configured"
  | Msg.loadBank _ => Some "bankLoaded"
  | Msg.setBank _ => Some "bankSet"
  | Msg.getInstrument _ _ => Some "instrumentLoaded"
  | Msg.setInstrument _ _ _ => Some "instrumentSet"
  | Msg.getNumFourOpChannels => Some "numFourOpChannels"
  | Msg.getAutoArpeggio => Some "autoArpeggio"
  | Msg.getChannelAllocMode => Some "channelAllocMode"
  | Msg.switchEmulator _ => Some "emulatorSwitched"
  | Msg.getEmulatorName => Some "emulatorName"
  | Msg.getLibraryVersion => Some "libraryVersion"
  | Msg.getVersion => Some "version"
  | Msg.getNumChips => Some "numChips"
  | Msg.getNumChipsObtained => Some "numChipsObtained"
  | Msg.getVolumeModel => Some "volumeModel"
  | Msg.getEmbeddedBanks => Some "embeddedBanks"
  | Msg.loadMidi _ => Some "midiLoaded"
  | Msg.getMusicTitle => Some "musicTitle"
  | Msg.getMusicCopyright => Some "musicCopyright"
  | Msg.getState => Some "state"
  | _ => None
  end.

(** The processor is ready and holds the module and the player [md]. *)
Definition serving {M} (md : option Z) (p : AdlMidiProcessor.t M) : Prop :=
  AdlMidiProcessor.ready p = true ∧ AdlMidiProcessor.midi p = md ∧
  is_Some (AdlMidiProcessor.adl p).

(** On a serving processor the computation returns, stays serving, and
    posts messages of exactly the types [tags], in order. *)
Definition answers {M A} (md : option Z) (tags : list string)
  (m : Eff (AdlMidiProcessor.t M) A) : Prop :=
  ∀ p, serving md p ->
    serving md (exec m p) ∧ (∃ a, result m p = Ret a) ∧
    ∃ added, AdlMidiProcessor.port (exec m p) = AdlMidiProcessor.port p ++ added ∧
             Out.type <$> added = tags.

(** The client after the messages [msgs] have been appended to what it
    posted, everything else as it was. *)
Definition posting (msgs : list Msg.t) (c : AdlMidi.t) : AdlMidi.t :=
  AdlMidi.with_env
    (AdlMidi.mkEnv (AdlMidi.ready (AdlMidi.env c)) (AdlMidi.node (AdlMidi.env c))
       (AdlMidi.promises (AdlMidi.env c)) (AdlMidi.next_promise (AdlMidi.env c))
       (AdlMidi.timers (AdlMidi.env c)) (AdlMidi.next_timer (AdlMidi.env c))
       (AdlMidi.sent (AdlMidi.env c) ++ msgs)) c.

(** No request of the client is waiting for its reply: the only one-shot
    handlers still registered are those of the handshake. *)
Definition no_request_in_flight (c : AdlMidi.t) : Prop :=
  ∀ type, type ≠ "ready" -> type ≠ "error" ->
    default [] (AdlMidi.messageHandlers c !! type) = [].

(* END OF DEFINITIONS *)

(* ===================================================================== *)
(** * Properties of the struct codec *)
(* ===================================================================== *)

Lemma Zall_spec (n : nat) (P : Z -> bool) :
  Zall n P = true -> ∀ z, 0 <= z < Z.of_nat n -> P z = true.
Proof.
  unfold Zall. rewrite forallb_forall. intros Hall z Hz.
  apply Hall. apply list_elem_of_In, list_elem_of_fmap.
  exists (Z.to_nat z). split; [lia|].
  apply elem_of_seq. lia.
Qed.

(** [brute z n]: a goal [L = true] in which [z] ranges over [0 .. n-1]
    becomes the exhaustive check of [L] over that range. *)
Ltac brute z n :=
  match goal with
  | |- ?L = true =>
      let f := eval pattern z in L in
      match f with
      | ?F _ => refine (Zall_spec n F _ z _); [ | unfold is_byte in *; lia ]
      end
  end.
Ltac checked := vm_compute; reflexivity.

Ltac unfold_operator_codec :=
  unfold decodeOperator, encodeOperator;
  cbv [JS.byte_at lookup list_lookup default id];
  unfold reg_avekf, reg_ksl_l, reg_atdec, reg_susrel, reg_waveform;
  cbn [am vibrato sustaining ksr freqMult keyScaleLevel totalLevel
       attack decay sustain release waveform].

Ltac instrument_fields :=
  cbn [version noteOffset1 noteOffset2 velocityOffset secondVoiceDetune percussionKey
       is4op isPseudo4op isBlank rhythmMode feedback1 connection1 feedback2 connection2
       operators delayOnMs delayOffMs].

Section OperatorCodec.

Lemma decode_encode_operator (op : Operator) :
  operator_in_range op -> decodeOperator (encodeOperator op) = op.
Proof.
  destruct op as [a v s k m ksl tl ar dr sl rr w].
  unfold operator_in_range.
  cbn [freqMult keyScaleLevel totalLevel attack decay sustain release waveform].
  intros (Hm & Hksl & Htl & Har & Hdr & Hsl & Hrr & Hw).
  unfold_operator_codec.
  f_equal.
  1-4: apply eqb_prop; destruct a, v, s, k; brute m 16%nat; checked.
  - apply Z.eqb_eq. destruct a, v, s, k; brute m 16%nat; checked.
  - apply Z.eqb_eq. brute tl 64%nat. brute ksl 4%nat. checked.
  - apply Z.eqb_eq. brute tl 64%nat. brute ksl 4%nat. checked.
  - apply Z.eqb_eq. brute dr 16%nat. brute ar 16%nat. checked.
  - apply Z.eqb_eq. brute dr 16%nat. brute ar 16%nat. checked.
  - apply Z.eqb_eq. brute rr 16%nat. brute sl 16%nat. checked.
  - apply Z.eqb_eq. brute rr 16%nat. brute sl 16%nat. checked.
  - apply Z.eqb_eq. brute w 8%nat. checked.
Qed.

Lemma encode_decode_operator (b0 b1 b2 b3 b4 : Z) :
  is_byte b0 -> is_byte b1 -> is_byte b2 -> is_byte b3 -> is_byte b4 ->
  encodeOperator (decodeOperator [b0; b1; b2; b3; b4])
  = [b0; b1; b2; b3; Z.land b4 0x07].
Proof.
  intros H0 H1 H2 H3 H4.
  unfold_operator_codec.
  f_equal; [|f_equal; [|f_equal; [|f_equal; [|f_equal]]]]; apply Z.eqb_eq.
  - brute b0 256%nat. checked.
  - brute b1 256%nat. checked.
  - brute b2 256%nat. checked.
  - brute b3 256%nat. checked.
  - brute b4 256%nat. checked.
Qed.

(** [x & mask] for a mask of [n] low bits. *)
Lemma band_ones_range (x n : Z) :
  0 <= n <= 30 -> 0 <= JS.band x (Z.ones n) <= Z.ones n.
Proof.
  intros Hn. unfold JS.band.
  assert (0 < 2 ^ n <= 2 ^ 30) as Hpow
    by (split; [lia | apply Z.pow_le_mono_r; lia]).
  assert (JS.to_int32 (Z.ones n) = Z.ones n) as ->.
  { unfold JS.to_int32. rewrite Z.ones_equiv.
    rewrite Z.mod_small; lia. }
  rewrite Z.land_ones by lia. rewrite Z.ones_equiv.
  pose proof (Z.mod_pos_bound (JS.to_int32 x) (2 ^ n)). lia.
Qed.

Lemma decode_operator_in_range (bytes : list Z) :
  operator_in_range (decodeOperator bytes).
Proof.
  unfold operator_in_range, decodeOperator.
  cbn [freqMult keyScaleLevel totalLevel attack decay sustain release waveform].
  pose proof (fun x => band_ones_range x 4 ltac:(lia)) as H4.
  pose proof (fun x => band_ones_range x 2 ltac:(lia)) as H2.
  pose proof (fun x => band_ones_range x 6 ltac:(lia)) as H6.
  pose proof (fun x => band_ones_range x 3 ltac:(lia)) as H3.
  change (Z.ones 4) with 15 in H4. change (Z.ones 2) with 3 in H2.
  change (Z.ones 6) with 63 in H6. change (Z.ones 3) with 7 in H3.
  repeat split; first [apply H4 | apply H2 | apply H6 | apply H3].
Qed.

End OperatorCodec.

(** C1. For every operator whose numeric fields lie in their documented
    ranges, decoding its encoding gives the operator back, field for
    field; for every buffer of five bytes, encoding its decoding gives the
    register bits that the decoder reads (all eight bits of the first four
    registers, the low three bits of the waveform register); and the
    decoder only produces operators in range.  So the two functions are
    inverse to each other between in-range operators and masked
    buffers. *)
Theorem operator_codec_mutual_inverse :
  (∀ op, operator_in_range op -> decodeOperator (encodeOperator op) = op) ∧
  (∀ b0 b1 b2 b3 b4,
     is_byte b0 -> is_byte b1 -> is_byte b2 -> is_byte b3 -> is_byte b4 ->
     encodeOperator (decodeOperator [b0; b1; b2; b3; b4])
     = [b0; b1; b2; b3; Z.land b4 0x07]) ∧
  (∀ bytes, operator_in_range (decodeOperator bytes)).
Proof.
  split; [exact decode_encode_operator|].
  split; [exact encode_decode_operator|exact decode_operator_in_range].
Qed.

Lemma operator_codec_witness :
  operator_in_range (sample_operator 3) ∧
  decodeOperator (encodeOperator (sample_operator 3)) = sample_operator 3 ∧
  (is_byte 0xB5 ∧ is_byte 0x7F ∧ is_byte 0xC4 ∧ is_byte 0x29 ∧ is_byte 0xFE) ∧
  encodeOperator (decodeOperator [0xB5; 0x7F; 0xC4; 0x29; 0xFE])
  = [0xB5; 0x7F; 0xC4; 0x29; Z.land 0xFE 0x07].
Proof.
  assert (operator_in_range (sample_operator 3)) as Hr
    by (unfold operator_in_range; repeat split; by vm_compute).
  assert (is_byte 0xB5 ∧ is_byte 0x7F ∧ is_byte 0xC4 ∧ is_byte 0x29 ∧ is_byte 0xFE)
    as Hb by (unfold is_byte; lia).
  split; [exact Hr|].
  split; [exact (proj1 operator_codec_mutual_inverse _ Hr)|].
  split; [exact Hb|].
  destruct Hb as (H0 & H1 & H2 & H3 & H4).
  exact (proj1 (proj2 operator_codec_mutual_inverse) _ _ _ _ _ H0 H1 H2 H3 H4).
Defined.

Section InstrumentCodec.

Lemma encodeInstrument_layout (inst : Instrument) :
  encodeInstrument inst =
    JS.le_bytes 4 (JS.to_uint32 (JS.or_zero (version inst)))
    ++ JS.le_bytes 2 (JS.to_uint16 (JS.or_zero (noteOffset1 inst)))
    ++ JS.le_bytes 2 (JS.to_uint16 (JS.or_zero (noteOffset2 inst)))
    ++ [ JS.to_uint8 (JS.or_zero (velocityOffset inst)) mod 256;
         JS.to_uint8 (JS.or_zero (secondVoiceDetune inst)) mod 256;
         JS.to_uint8 (JS.or_zero (percussionKey inst));
         JS.to_uint8 (inst_flags inst);
         JS.to_uint8 (fb_conn (feedback1 inst) (connection1 inst));
         JS.to_uint8 (fb_conn (feedback2 inst) (connection2 inst)) ]
    ++ encodeOperator (default defaultOperator (operator_at inst 0))
    ++ encodeOperator (default defaultOperator (operator_at inst 1))
    ++ encodeOperator (default defaultOperator (operator_at inst 2))
    ++ encodeOperator (default defaultOperator (operator_at inst 3))
    ++ JS.le_bytes 2 (JS.to_uint16 (JS.or_zero (delayOnMs inst)))
    ++ JS.le_bytes 2 (JS.to_uint16 (JS.or_zero (delayOffMs inst)))
    ++ [0; 0].
Proof. reflexivity. Qed.

Lemma encodeInstrument_length (inst : Instrument) :
  length (encodeInstrument inst) = 40%nat.
Proof. rewrite encodeInstrument_layout. reflexivity. Qed.

Lemma recompose2 (u : Z) :
  0 <= u < 65536 -> u mod 256 + 256 * ((u / 256) mod 256 + 256 * 0) = u.
Proof. intros. Z.div_mod_to_equations. lia. Qed.

Lemma recompose4 (u : Z) :
  0 <= u < 2 ^ 32 ->
  u mod 256 + 256 * ((u / 256) mod 256 + 256 * ((u / 256 / 256) mod 256
    + 256 * ((u / 256 / 256 / 256) mod 256 + 256 * 0))) = u.
Proof. intros. Z.div_mod_to_equations. lia. Qed.

Lemma int32_roundtrip (v : Z) :
  - 2 ^ 31 <= v <= 2 ^ 31 - 1 ->
  JS.signed 32
    (JS.to_uint32 v mod 256 + 256 * ((JS.to_uint32 v / 256) mod 256
     + 256 * ((JS.to_uint32 v / 256 / 256) mod 256
     + 256 * ((JS.to_uint32 v / 256 / 256 / 256) mod 256 + 256 * 0)))) = v.
Proof.
  intros Hv. unfold JS.to_uint32.
  rewrite recompose4 by (apply Z.mod_pos_bound; lia).
  unfold JS.signed. change (32 - 1) with 31.
  destruct (Z.ltb_spec (v mod 2 ^ 32) (2 ^ 31)); Z.div_mod_to_equations; lia.
Qed.

Lemma int16_roundtrip (v : Z) :
  - 32768 <= v <= 32767 ->
  JS.signed 16
    (JS.to_uint16 v mod 256 + 256 * ((JS.to_uint16 v / 256) mod 256 + 256 * 0)) = v.
Proof.
  intros Hv. unfold JS.to_uint16.
  rewrite recompose2 by (apply Z.mod_pos_bound; lia).
  unfold JS.signed. change (2 ^ (16 - 1)) with 32768. change (2 ^ 16) with 65536.
  destruct (Z.ltb_spec (v mod 65536) 32768); Z.div_mod_to_equations; lia.
Qed.

Lemma uint16_roundtrip (v : Z) :
  0 <= v <= 65535 ->
  JS.to_uint16 v mod 256 + 256 * ((JS.to_uint16 v / 256) mod 256 + 256 * 0) = v.
Proof.
  intros Hv. unfold JS.to_uint16.
  rewrite recompose2 by (apply Z.mod_pos_bound; lia).
  apply Z.mod_small. lia.
Qed.

Lemma int8_roundtrip (v : Z) :
  - 128 <= v <= 127 -> JS.signed 8 (JS.to_uint8 v mod 256 + 256 * 0) = v.
Proof.
  intros Hv. unfold JS.to_uint8, JS.signed.
  change (2 ^ (8 - 1)) with 128. change (2 ^ 8) with 256.
  rewrite Z.mod_mod by lia.
  destruct (Z.ltb_spec (v mod 256 + 256 * 0) 128); Z.div_mod_to_equations; lia.
Qed.

Lemma decode_encode_instrument (inst : Instrument) :
  instrument_in_range inst -> decodeInstrument (encodeInstrument inst) = Some inst.
Proof.
  destruct inst as [ver no1 no2 vo svd pk f4 fp fb rm fb1 c1 fb2 c2 ops don doff].
  unfold instrument_in_range, present, four_operators.
  instrument_fields.
  intros (Hver & Hno1 & Hno2 & Hvo & Hsvd & Hpk & [b4 ->] & [bp ->] & [bb ->] & Hrm
          & Hfb1 & Hc1 & Hfb2 & Hc2 & Hops & Hdon & Hdoff).
  destruct ver as [ver|]; [|contradiction]. destruct no1 as [no1|]; [|contradiction].
  destruct no2 as [no2|]; [|contradiction]. destruct vo as [vo|]; [|contradiction].
  destruct svd as [svd|]; [|contradiction]. destruct pk as [pk|]; [|contradiction].
  destruct rm as [rm|]; [|contradiction]. destruct fb1 as [fb1|]; [|contradiction].
  destruct c1 as [c1|]; [|contradiction]. destruct fb2 as [fb2|]; [|contradiction].
  destruct c2 as [c2|]; [|contradiction]. destruct don as [don|]; [|contradiction].
  destruct doff as [doff|]; [|contradiction].
  destruct ops as [[|[o0|] [|[o1|] [|[o2|] [|[o3|] [|? ?]]]]]|]; try contradiction.
  destruct Hops as (Ho0 & Ho1 & Ho2 & Ho3).
  rewrite encodeInstrument_layout.
  instrument_fields.
  cbv [operator_at operators mjoin option_join mbind option_bind lookup list_lookup
       default id JS.or_zero JS.le_bytes app encodeOperator].
  unfold decodeInstrument.
  cbv [length Nat.ltb Nat.leb SIZEOF_ADL_INSTRUMENT SIZEOF_ADL_OPERATOR OPERATOR_OFFSET
       JS.getInt32 JS.getInt16 JS.getUint16 JS.getInt8 JS.le_read JS.byte_at JS.slice
       lookup list_lookup default id take drop Nat.add Nat.mul Nat.sub].
  fold (encodeOperator o0) (encodeOperator o1) (encodeOperator o2) (encodeOperator o3).
  rewrite !decode_encode_operator by assumption.
  rewrite int32_roundtrip, !int16_roundtrip, !int8_roundtrip, !uint16_roundtrip
    by assumption.
  unfold inst_flags, fb_conn.
  cbn [is4op isPseudo4op isBlank rhythmMode JS.flag JS.or_zero default id].
  do 2 f_equal.
  - f_equal. apply Z.mod_small. lia.
  - f_equal. apply eqb_prop. destruct b4, bp, bb; brute rm 8%nat; checked.
  - f_equal. apply eqb_prop. destruct b4, bp, bb; brute rm 8%nat; checked.
  - f_equal. apply eqb_prop. destruct b4, bp, bb; brute rm 8%nat; checked.
  - f_equal. apply Z.eqb_eq. destruct b4, bp, bb; brute rm 8%nat; checked.
  - f_equal. apply Z.eqb_eq. brute c1 2%nat. brute fb1 8%nat. checked.
  - f_equal. apply Z.eqb_eq. brute c1 2%nat. brute fb1 8%nat. checked.
  - f_equal. apply Z.eqb_eq. brute c2 2%nat. brute fb2 8%nat. checked.
  - f_equal. apply Z.eqb_eq. brute c2 2%nat. brute fb2 8%nat. checked.
Qed.

Lemma lookup_array_set {A} (l : list (option A)) (i k : nat) (v : A) :
  mjoin (array_set l i v !! k) = if decide (k = i) then Some v else mjoin (l !! k).
Proof.
  unfold array_set. destruct (Nat.ltb_spec i (length l)) as [Hlt|Hge].
  - destruct (decide (k = i)) as [->|Hne].
    + by rewrite list_lookup_insert_eq.
    + by rewrite list_lookup_insert_ne.
  - destruct (decide (k = i)) as [->|Hne].
    + rewrite lookup_app_r by lia.
      rewrite lookup_app_r by (rewrite length_replicate; lia).
      rewrite length_replicate.
      by replace (i - length l - (i - length l))%nat with 0%nat by lia.
    + destruct (decide (k < length l)%nat).
      * by rewrite lookup_app_l.
      * rewrite lookup_app_r by lia.
        rewrite (lookup_ge_None_2 l k) by lia.
        destruct (decide (k < i)%nat).
        -- rewrite lookup_app_l by (rewrite length_replicate; lia).
           rewrite lookup_replicate_2 by lia. done.
        -- rewrite lookup_ge_None_2; [done|].
           rewrite length_app, length_replicate. simpl. lia.
Qed.

Lemma missing_operator_default (inst : Instrument) (ops : list (option Operator))
  (i : nat) :
  operators inst = Some ops -> (i <= 3)%nat -> mjoin (ops !! i) = None ->
  encodeInstrument (set_operators (array_set ops i defaultOperator) inst)
  = encodeInstrument inst.
Proof.
  intros Hops Hi Hmiss.
  rewrite !encodeInstrument_layout.
  unfold operator_at, set_operators.
  instrument_fields.
  rewrite Hops.
  rewrite !lookup_array_set.
  unfold inst_flags, fb_conn.
  instrument_fields.
  destruct i as [|[|[|[|i]]]]; [| | | |lia].
  all: repeat case_decide; try lia; try discriminate; rewrite ?Hmiss; reflexivity.
Qed.

Lemma missing_operator_slot (inst : Instrument) (i : nat) :
  (i <= 3)%nat -> operator_at inst i = None ->
  JS.slice (OPERATOR_OFFSET + i * SIZEOF_ADL_OPERATOR)
           (OPERATOR_OFFSET + (i + 1) * SIZEOF_ADL_OPERATOR) (encodeInstrument inst)
  = encodeOperator defaultOperator.
Proof.
  intros Hi Hmiss. rewrite encodeInstrument_layout.
  destruct i as [|[|[|[|i]]]]; [| | | |lia]; rewrite Hmiss; reflexivity.
Qed.

End InstrumentCodec.

(** C2. For every instrument whose fields are all given and lie in their
    documented ranges (four in-range operators included), decoding its
    encoding gives the instrument back.  The encoding has 40 bytes: the
    scalar header at offsets 0-13 ([version] on four bytes, the two note
    offsets on two bytes each, then six single bytes), the four operators
    in five bytes each at offsets 14-33, the two delays on two bytes each
    at offsets 34 and 36, and two bytes of padding; every multi-byte
    field has its lowest byte first. *)
Theorem instrument_codec_roundtrip_layout (inst : Instrument) :
  instrument_in_range inst ->
  decodeInstrument (encodeInstrument inst) = Some inst ∧
  length (encodeInstrument inst) = 40%nat ∧
  JS.slice 0 14 (encodeInstrument inst) =
    [ JS.to_uint32 (JS.or_zero (version inst)) mod 256;
      (JS.to_uint32 (JS.or_zero (version inst)) / 256) mod 256;
      (JS.to_uint32 (JS.or_zero (version inst)) / 256 / 256) mod 256;
      (JS.to_uint32 (JS.or_zero (version inst)) / 256 / 256 / 256) mod 256;
      JS.to_uint16 (JS.or_zero (noteOffset1 inst)) mod 256;
      (JS.to_uint16 (JS.or_zero (noteOffset1 inst)) / 256) mod 256;
      JS.to_uint16 (JS.or_zero (noteOffset2 inst)) mod 256;
      (JS.to_uint16 (JS.or_zero (noteOffset2 inst)) / 256) mod 256;
      JS.to_uint8 (JS.or_zero (velocityOffset inst));
      JS.to_uint8 (JS.or_zero (secondVoiceDetune inst));
      JS.to_uint8 (JS.or_zero (percussionKey inst));
      JS.to_uint8 (inst_flags inst);
      JS.to_uint8 (fb_conn (feedback1 inst) (connection1 inst));
      JS.to_uint8 (fb_conn (feedback2 inst) (connection2 inst)) ] ∧
  (∀ k op, (k < 4)%nat -> operator_at inst k = Some op ->
     JS.slice (14 + 5 * k) (14 + 5 * k + 5) (encodeInstrument inst) = encodeOperator op) ∧
  JS.slice 34 38 (encodeInstrument inst) =
    [ JS.to_uint16 (JS.or_zero (delayOnMs inst)) mod 256;
      (JS.to_uint16 (JS.or_zero (delayOnMs inst)) / 256) mod 256;
      JS.to_uint16 (JS.or_zero (delayOffMs inst)) mod 256;
      (JS.to_uint16 (JS.or_zero (delayOffMs inst)) / 256) mod 256 ] ∧
  JS.slice 38 40 (encodeInstrument inst) = [0; 0].
Proof.
  intros Hrange.
  split; [by apply decode_encode_instrument|].
  split; [apply encodeInstrument_length|].
  rewrite encodeInstrument_layout.
  split; [|split; [|split]].
  - unfold JS.to_uint8. rewrite !Z.mod_mod by lia. reflexivity.
  - intros k op Hk Hop.
    destruct k as [|[|[|[|k]]]]; [| | | |lia]; rewrite Hop; reflexivity.
  - reflexivity.
  - reflexivity.
Qed.

Lemma instrument_codec_witness :
  instrument_in_range sample_instrument ∧
  decodeInstrument (encodeInstrument sample_instrument) = Some sample_instrument ∧
  JS.slice 34 38 (encodeInstrument sample_instrument) = [0x40; 0x9C; 0x01; 0x02].
Proof.
  assert (instrument_in_range sample_instrument) as Hr.
  { unfold instrument_in_range, sample_instrument, present, four_operators,
      operator_in_range.
    repeat split; try (by vm_compute); by eexists. }
  split; [exact Hr|].
  pose proof (instrument_codec_roundtrip_layout sample_instrument Hr)
    as (Hround & _ & _ & _ & Hdelays & _).
  split; [exact Hround|].
  rewrite Hdelays. reflexivity.
Defined.

(** C9. When the [operators] array of an instrument has no entry at slot
    [i] (a hole, or an array that ends before [i]), the encoder produces
    the same 40 bytes as for the instrument with [defaultOperator()]
    stored in slot [i]: slot [i] holds the encoding of the default
    operator and every other slot that has an operator holds that
    operator's encoding.  The default operator has total level 63, the
    largest attenuation an in-range operator can have, sustain 0 and
    release 15. *)
Theorem missing_operator_substitution :
  (∀ inst ops i,
     operators inst = Some ops -> (i <= 3)%nat -> mjoin (ops !! i) = None ->
     encodeInstrument inst
     = encodeInstrument (set_operators (array_set ops i defaultOperator) inst) ∧
     length (encodeInstrument inst) = 40%nat ∧
     JS.slice (14 + 5 * i) (14 + 5 * i + 5) (encodeInstrument inst)
     = encodeOperator defaultOperator ∧
     (∀ k op, (k <= 3)%nat -> mjoin (ops !! k) = Some op ->
        JS.slice (14 + 5 * k) (14 + 5 * k + 5) (encodeInstrument inst)
        = encodeOperator op)) ∧
  totalLevel defaultOperator = 63 ∧
  (∀ op, operator_in_range op -> totalLevel op <= totalLevel defaultOperator) ∧
  sustain defaultOperator = 0 ∧
  release defaultOperator = 15.
Proof.
  split; [|split; [reflexivity|split; [|split; reflexivity]]].
  - intros inst ops i Hops Hi Hmiss.
    assert (operator_at inst i = None) as Hat by (unfold operator_at; by rewrite Hops).
    split; [symmetry; by apply missing_operator_default|].
    split; [apply encodeInstrument_length|].
    split.
    + rewrite encodeInstrument_layout.
      destruct i as [|[|[|[|i]]]]; [| | | |lia]; rewrite Hat; reflexivity.
    + intros k op Hk Hop.
      assert (operator_at inst k = Some op) as Hatk
        by (unfold operator_at; by rewrite Hops).
      rewrite encodeInstrument_layout.
      destruct k as [|[|[|[|k]]]]; [| | | |lia]; rewrite Hatk; reflexivity.
  - intros op (_ & _ & Htl & _). simpl. lia.
Qed.

Lemma missing_operator_witness :
  (operators sparse_instrument = Some sparse_operators ∧ (3 <= 3)%nat
   ∧ mjoin (sparse_operators !! 3%nat) = None) ∧
  encodeInstrument sparse_instrument
  = encodeInstrument (set_operators
      [Some (sample_operator 0); None; Some (sample_operator 2); Some defaultOperator]
      sample_instrument) ∧
  JS.slice 19 24 (encodeInstrument sparse_instrument) = encodeOperator defaultOperator.
Proof.
  assert (operators sparse_instrument = Some sparse_operators ∧ (3 <= 3)%nat
          ∧ mjoin (sparse_operators !! 3%nat) = None)
    as Hhyp by (split; [reflexivity|split; [lia|reflexivity]]).
  split; [exact Hhyp|].
  destruct Hhyp as (H1 & H2 & H3).
  split.
  - exact (proj1 (proj1 missing_operator_substitution _ _ 3%nat H1 H2 H3)).
  - exact (proj1 (proj2 (proj2
      (proj1 missing_operator_substitution _ _ 1%nat H1 ltac:(lia) eq_refl)))).
Defined.

(* ===================================================================== *)
(** * Running method bodies symbolically *)
(* ===================================================================== *)

(** Names the result and the next module state of the outermost export
    call in the goal. *)
Ltac eff_call :=
  match goal with
  | |- context [ccall ?f ?a ?m] =>
      let r := fresh "r" in let m' := fresh "m" in let E := fresh "E" in
      destruct (ccall f a m) as [r m'] eqn:E
  | |- context [ccall_num ?f ?a ?m] =>
      let r := fresh "r" in let m' := fresh "m" in let E := fresh "E" in
      destruct (ccall_num f a m) as [r m'] eqn:E
  end.

Lemma new_calls_app (before added : list Call) :
  new_calls before (before ++ added) = added.
Proof. unfold new_calls. by rewrite drop_app_length. Qed.

Lemma new_calls_nil (before : list Call) : new_calls before before = [].
Proof. unfold new_calls. by rewrite drop_all. Qed.

Ltac trace_normalize :=
  rewrite <- ?app_assoc; cbn [app];
  first [rewrite new_calls_app | rewrite new_calls_nil].

Ltac status_cases :=
  repeat match goal with
  | E : (_ =? 0) = true |- _ => apply Z.eqb_eq in E; subst
  | E : (_ =? 0) = false |- _ => apply Z.eqb_neq in E
  end.

Ltac trace_facts :=
  repeat split; intros;
  repeat match goal with
  | Hc : _ ∧ _ |- _ => destruct Hc
  | Hc : _ ∨ _ |- _ => destruct Hc
  end;
  repeat match goal with
  | Hs : is_Some None |- _ => destruct Hs; discriminate
  | Hs : status_of _ _ = _ |- _ => vm_compute in Hs
  | Hs : status_of _ _ ≠ _ |- _ => vm_compute in Hs
  end;
  try reflexivity; try discriminate; try congruence;
  try (exfalso; match goal with Hn : _ -> False |- _ => apply Hn; reflexivity end);
  eauto.

Ltac proc_unfold :=
  cbv [bind ret throw get gets modify when try_catch exec result fst snd
       negb andb orb invoke invoke_num peek poke8 poke_bytes
       module_of set_module log trace_of
       AdlMidiProcessor.session AdlMidiProcessor.adl AdlMidiProcessor.midi
       AdlMidiProcessor.bufferPtr AdlMidiProcessor.bufferSize AdlMidiProcessor.ready
       AdlMidiProcessor.playMode AdlMidiProcessor.sampleRate
       AdlMidiProcessor.cachedHeapBuffer AdlMidiProcessor.settings
       AdlMidiProcessor.port AdlMidiProcessor.calls
       AdlMidiProcessor.with_adl AdlMidiProcessor.with_midi AdlMidiProcessor.with_bufferPtr
       AdlMidiProcessor.with_bufferSize AdlMidiProcessor.with_ready
       AdlMidiProcessor.with_playMode AdlMidiProcessor.with_cachedHeapBuffer
       AdlMidiProcessor.with_settings AdlMidiProcessor.with_port AdlMidiProcessor.with_calls
       AdlMidiProcessor.post AdlMidiProcessor.player AdlMidiProcessor.failure
       AdlMidiProcessor.forward AdlMidiProcessor.query AdlMidiProcessor.string_at].

Ltac proc_step := proc_unfold; try eff_call.

Ltac core_unfold :=
  cbv [bind ret throw get gets modify when try_catch exec result fst snd
       negb andb orb invoke invoke_num peek poke8 poke_bytes
       module_of set_module log trace_of
       AdlMidiCore.session AdlMidiCore._module AdlMidiCore._player
       AdlMidiCore._sampleRate AdlMidiCore._audioBuffer AdlMidiCore._audioBufferPtr
       AdlMidiCore.calls AdlMidiCore.with_module AdlMidiCore.with_player
       AdlMidiCore.with_sampleRate AdlMidiCore.with_audioBuffer
       AdlMidiCore.with_audioBufferPtr AdlMidiCore.with_calls
       AdlMidiCore._ensurePlayer].

Ltac core_step := core_unfold; try eff_call.

Ltac core_start c m Hp :=
  intros [[m ?Hmod] Hp]; destruct c as [?a ?pl ?sr ?ab ?abp ?cl];
  cbv [AdlMidiCore._module AdlMidiCore._player] in *; subst.

(** A decoder that succeeded was given exactly what [heap_slice] cut for
    a 40-byte window. *)
Lemma decoded_slice_length `{Wasm M} (m : M) (ptr : Z) (inst : Instrument) :
  decodeInstrument (heap_slice m ptr (ptr + Z.of_nat SIZEOF_ADL_INSTRUMENT)) = Some inst ->
  length (heap_slice m ptr (ptr + Z.of_nat SIZEOF_ADL_INSTRUMENT)) = 40%nat.
Proof.
  unfold decodeInstrument.
  destruct (Nat.ltb_spec
    (length (heap_slice m ptr (ptr + Z.of_nat SIZEOF_ADL_INSTRUMENT)))
    SIZEOF_ADL_INSTRUMENT) as [Hlt|Hge]; [discriminate|].
  intros _. unfold heap_slice in *. rewrite length_fmap, length_seq in *.
  unfold SIZEOF_ADL_INSTRUMENT in *. lia.
Qed.

(* ===================================================================== *)
(** * Instrument access *)
(* ===================================================================== *)

Section ProcessorInstruments.
Context {M : Type} `{Wasm M}.
Import AdlMidiProcessor.
Implicit Types p : AdlMidiProcessor.t M.


Lemma processor_getInstrument_spec p b n :
  is_Some (adl p) ->
  ∃ res, result (getInstrument b n) p = Ret res ∧
    let tr := new_calls (calls p) (calls (exec (getInstrument b n) p)) in
    (success res = true ↔ is_Some (instrument res)) ∧
    (∀ inst, instrument res = Some inst ->
       status_of adl_getBank tr = Some (AInt 0) ∧
       status_of adl_getInstrument tr = Some (AInt 0) ∧
       ∃ bytes, length bytes = 40%nat ∧ decodeInstrument bytes = Some inst) ∧
    (status_of adl_getBank tr ≠ Some (AInt 0) ->
       instrument res = None ∧ calls_to adl_getInstrument tr = []) ∧
    (status_of adl_getInstrument tr ≠ Some (AInt 0) -> instrument res = None).
Proof.
  intros [m Hadl]. destruct p as [a md bp bs rd pm sr ch st po cl]. cbn in Hadl. subst a.
  unfold getInstrument, resolve_bank, readInstrumentFromMemory.
  do 3 proc_step. proc_unfold.
  destruct (r1 =? 0) eqn:Er1; cbn [negb].
  - do 2 proc_step. proc_unfold.
    destruct (r3 =? 0) eqn:Er3.
    + destruct (decodeInstrument _) as [inst|] eqn:Edec.
      * do 3 proc_step. proc_unfold.
        eexists; split; [reflexivity|]. trace_normalize. status_cases.
        cbn zeta. cbn [success instrument]. trace_facts.
        match goal with Hi : Some _ = Some _ |- _ => injection Hi as <- end.
        eexists; split; [|exact Edec]. by eapply decoded_slice_length.
      * proc_unfold.
        eexists; split; [reflexivity|]. trace_normalize. status_cases.
        cbn zeta. cbn [success instrument]. trace_facts.
    + do 3 proc_step. proc_unfold.
      eexists; split; [reflexivity|]. trace_normalize. status_cases.
      cbn zeta. cbn [success instrument]. trace_facts.
  - do 2 proc_step. proc_unfold.
    eexists; split; [reflexivity|]. trace_normalize. status_cases.
    cbn zeta. cbn [success instrument]. trace_facts.
Qed.

End ProcessorInstruments.

Section CoreInstruments.
Context {M : Type} `{Wasm M}.
Import AdlMidiCore.
Implicit Types c : AdlMidiCore.t M.


Lemma core_getInstrument_spec c b n :
  core_initialized c ->
  let tr := new_calls (calls c) (calls (exec (getInstrument b n) c)) in
  (∀ inst, result (getInstrument b n) c = Ret (Some inst) ->
     status_of adl_getBank tr = Some (AInt 0) ∧
     status_of adl_getInstrument tr = Some (AInt 0) ∧
     ∃ bytes, length bytes = 40%nat ∧ decodeInstrument bytes = Some inst) ∧
  (status_of adl_getBank tr ≠ Some (AInt 0) ->
     result (getInstrument b n) c = Ret None ∧ calls_to adl_getInstrument tr = []) ∧
  (status_of adl_getInstrument tr ≠ Some (AInt 0) ->
     result (getInstrument b n) c = Ret None).
Proof.
  core_start c m Hp.
  unfold getInstrument, resolve_bank.
  core_unfold. rewrite Hp.
  do 3 core_step. core_unfold.
  destruct (r1 =? 0) eqn:Er1.
  - do 2 core_step. core_unfold.
    destruct (r3 =? 0) eqn:Er3.
    + destruct (decodeInstrument _) as [inst|] eqn:Edec.
      * do 3 core_step. core_unfold. trace_normalize. status_cases.
        cbn zeta. trace_facts.
        match goal with Hi : Ret _ = Ret _ |- _ => injection Hi as <- end.
        eexists; split; [|exact Edec]. by eapply decoded_slice_length.
      * core_unfold. trace_normalize. status_cases.
        cbn zeta. trace_facts.
    + do 3 core_step. core_unfold. trace_normalize. status_cases.
      cbn zeta. trace_facts.
  - do 2 core_step. core_unfold. trace_normalize. status_cases.
    cbn zeta. trace_facts.
Qed.

End CoreInstruments.

(** C8. [getInstrument] yields an instrument only when the bank
    resolution and the instrument read both returned status 0, and that
    instrument is the decoding of a full 40-byte buffer.  When the bank
    resolution fails the read is not attempted, and when either status is
    nonzero the result is the not-found one: [success: false] without an
    instrument in the processor, [null] in [AdlMidiCore]. *)
Theorem getInstrument_not_found_or_decoded {M : Type} `{Wasm M} :
  (∀ (p : AdlMidiProcessor.t M) bankId programNumber,
     is_Some (AdlMidiProcessor.adl p) ->
     ∃ res,
       result (AdlMidiProcessor.getInstrument bankId programNumber) p = Ret res ∧
       let tr := new_calls (AdlMidiProcessor.calls p)
                   (AdlMidiProcessor.calls
                      (exec (AdlMidiProcessor.getInstrument bankId programNumber) p)) in
       (success res = true ↔ is_Some (instrument res)) ∧
       (∀ inst, instrument res = Some inst ->
          status_of adl_getBank tr = Some (AInt 0) ∧
          status_of adl_getInstrument tr = Some (AInt 0) ∧
          ∃ bytes, length bytes = 40%nat ∧ decodeInstrument bytes = Some inst) ∧
       (status_of adl_getBank tr ≠ Some (AInt 0) ->
          success res = false ∧ instrument res = None ∧
          calls_to adl_getInstrument tr = []) ∧
       (status_of adl_getInstrument tr ≠ Some (AInt 0) ->
          success res = false ∧ instrument res = None)) ∧
  (∀ (c : AdlMidiCore.t M) bankId program,
     core_initialized c ->
     let tr := new_calls (AdlMidiCore.calls c)
                 (AdlMidiCore.calls (exec (AdlMidiCore.getInstrument bankId program) c)) in
     (∀ inst, result (AdlMidiCore.getInstrument bankId program) c = Ret (Some inst) ->
        status_of adl_getBank tr = Some (AInt 0) ∧
        status_of adl_getInstrument tr = Some (AInt 0) ∧
        ∃ bytes, length bytes = 40%nat ∧ decodeInstrument bytes = Some inst) ∧
     (status_of adl_getBank tr ≠ Some (AInt 0) ->
        result (AdlMidiCore.getInstrument bankId program) c = Ret None ∧
        calls_to adl_getInstrument tr = []) ∧
     (status_of adl_getInstrument tr ≠ Some (AInt 0) ->
        result (AdlMidiCore.getInstrument bankId program) c = Ret None)).
Proof.
  split.
  - intros p b n Hadl.
    destruct (processor_getInstrument_spec p b n Hadl)
      as (res & Hres & Hsucc & Hsome & Hbank & Hread).
    exists res. split; [exact Hres|]. cbn zeta.
    assert (instrument res = None -> success res = false) as Hnone.
    { intros Hi. destruct (success res) eqn:Es; [|done].
      destruct (proj1 Hsucc eq_refl) as [? Hx]. rewrite Hi in Hx. discriminate. }
    split; [exact Hsucc|]. split; [exact Hsome|]. split.
    + intros Hb. destruct (Hbank Hb) as [Hi Hc]. auto.
    + intros Hr. specialize (Hread Hr). auto.
  - intros c b n Hc. exact (core_getInstrument_spec c b n Hc).
Qed.

Lemma getInstrument_witness :
  (is_Some (AdlMidiProcessor.adl (toy_processor (Toy.failing adl_getBank))) ∧
   core_initialized (toy_core (Toy.failing adl_getInstrument))) ∧
  (∃ res, result (AdlMidiProcessor.getInstrument bank0 0)
            (toy_processor (Toy.failing adl_getBank)) = Ret res ∧
          success res = false ∧ instrument res = None) ∧
  result (AdlMidiCore.getInstrument bank0 0) (toy_core (Toy.failing adl_getInstrument))
  = Ret None.
Proof.
  assert (is_Some (AdlMidiProcessor.adl (toy_processor (Toy.failing adl_getBank))))
    as Hp by (by eexists).
  assert (core_initialized (toy_core (Toy.failing adl_getInstrument)))
    as Hc by (split; [by eexists|reflexivity]).
  split; [exact (conj Hp Hc)|]. split.
  - destruct (proj1 getInstrument_not_found_or_decoded _ bank0 0 Hp)
      as (res & Hres & _ & _ & Hbank & _).
    exists res. split; [exact Hres|].
    destruct (Hbank ltac:(vm_compute; discriminate)) as (Hs & Hi & _).
    exact (conj Hs Hi).
  - destruct (proj2 getInstrument_not_found_or_decoded _ bank0 0 Hc) as (_ & _ & Hread).
    exact (Hread ltac:(vm_compute; discriminate)).
Defined.




(* ===================================================================== *)
(** * Rendering in AdlMidiCore *)
(* ===================================================================== *)


Section CoreRender.
Context {M : Type} `{Wasm M}.
Import AdlMidiCore.
Implicit Types c : AdlMidiCore.t M.





End CoreRender.



(* ===================================================================== *)
(** * The processor: ready guard and playback mode *)
(* ===================================================================== *)

Section Keeps.
Context {S X : Type} (proj : S -> X).

Lemma keeps_ret {A} (a : A) : keeps proj (ret a).
Proof. by intros s. Qed.

Lemma keeps_throw {A} (e : string) : keeps proj (throw (A := A) e).
Proof. by intros s. Qed.

Lemma keeps_gets {A} (f : S -> A) : keeps proj (gets f).
Proof. by intros s. Qed.

Lemma keeps_get : keeps proj get.
Proof. by intros s. Qed.

Lemma keeps_bind {A B} (m : Eff S A) (k : A -> Eff S B) :
  keeps proj m -> (∀ a, keeps proj (k a)) -> keeps proj (bind m k).
Proof.
  intros Hm Hk s. unfold bind. specialize (Hm s).
  destruct (m s) as [[a|e] s']; cbn [snd] in *; [|done].
  by rewrite Hk.
Qed.

Lemma keeps_try_catch {A} (m : Eff S A) (h : string -> Eff S A) :
  keeps proj m -> (∀ e, keeps proj (h e)) -> keeps proj (try_catch m h).
Proof.
  intros Hm Hh s. unfold try_catch. specialize (Hm s).
  destruct (m s) as [[a|e] s']; cbn [snd] in *; [done|].
  by rewrite Hh.
Qed.

Lemma keeps_when (b : bool) (m : Eff S unit) :
  keeps proj m -> keeps proj (when b m).
Proof. destruct b; [done|]. intros _. apply keeps_ret. Qed.

Lemma keeps_modify (f : S -> S) :
  (∀ s, proj (f s) = proj s) -> keeps proj (modify f).
Proof. intros Hf s. apply Hf. Qed.

End Keeps.

Section KeepsModule.
Context {S M X : Type} `{Wasm M} `{Session S M} (proj : S -> X).
(** The projection does not look at the module or at the trace. *)
Hypothesis proj_set_module : ∀ m s, proj (set_module m s) = proj s.
Hypothesis proj_log : ∀ c s, proj (log c s) = proj s.

Lemma keeps_invoke f args : keeps proj (invoke f args).
Proof.
  intros s. unfold invoke. destruct (module_of s); [|done].
  destruct (ccall f args m). cbn [snd]. by rewrite proj_log, proj_set_module.
Qed.

Lemma keeps_invoke_num f args : keeps proj (invoke_num f args).
Proof.
  intros s. unfold invoke_num. destruct (module_of s); [|done].
  destruct (ccall_num f args m). cbn [snd]. by rewrite proj_log, proj_set_module.
Qed.

Lemma keeps_peek {A} (f : M -> A) : keeps proj (peek f).
Proof. intros s. unfold peek. by destruct (module_of s). Qed.

Lemma keeps_poke8 a v : keeps proj (poke8 a v).
Proof.
  intros s. unfold poke8. destruct (module_of s); [|done].
  cbn [snd]. by rewrite proj_set_module.
Qed.

Lemma keeps_poke_bytes l a : keeps proj (poke_bytes l a).
Proof.
  intros s. unfold poke_bytes. destruct (module_of s); [|done].
  cbn [snd]. by rewrite proj_set_module.
Qed.
End KeepsModule.

Ltac keeps_step :=
  first
    [ apply keeps_ret | apply keeps_throw | apply keeps_gets | apply keeps_get
    | apply keeps_invoke; [done..]
    | apply keeps_invoke_num; [done..]
    | apply keeps_peek | apply keeps_poke8; [done..] | apply keeps_poke_bytes; [done..]
    | apply keeps_modify; done
    | apply keeps_when
    | apply keeps_bind; [|intros ?]
    | apply keeps_try_catch; [|intros ?]
    | match goal with
      | |- keeps _ (if ?b then _ else _) => destruct b
      | |- keeps _ (match ?x with _ => _ end) => destruct x
      end ].

Section ProcessorMode.
Context {M : Type} `{Wasm M}.
Import AdlMidiProcessor.
Implicit Types p : AdlMidiProcessor.t M.

Ltac keeps_mode :=
  repeat first
    [ keeps_step
    | progress unfold post, player, forward, query, string_at, applySettings,
        loadBank, loadMidiData, open_data, getEmbeddedBankList,
        getInstrument, setInstrument, resolve_bank, readInstrumentFromMemory,
        writeInstrumentToMemory ].

Lemma handleMessage_keeps_mode (msg : Msg.t) :
  msg ≠ Msg.play -> msg ≠ Msg.stop -> msg ≠ Msg.reset ->
  keeps playMode (handleMessage (M := M) msg).
Proof.
  intros Hplay Hstop Hreset. unfold handleMessage.
  apply keeps_bind; [apply keeps_gets|]. intros rdy.
  destruct (negb rdy && negb (Msg.is_ping msg)); [apply keeps_ret|].
  destruct msg; try done.
  all: keeps_mode.
Qed.

Ltac running_start p m :=
  intros (?Hready & ?Hmidi & m & ?Hadl & ?Hheap);
  destruct p as [?a ?md ?bp ?bs ?rd ?pm ?sr ?ch ?st ?po ?cl];
  cbv [adl midi ready] in *; subst.

Lemma handleMessage_before_ready p (msg : Msg.t) :
  ready p = false ->
  handleMessage msg p =
    (Ret tt, if Msg.is_ping msg then with_port (port p ++ [Out.pong false]) p else p).
Proof.
  intros Hr. unfold handleMessage. proc_unfold.
  destruct p as [a md bp bs rd pm sr ch st po cl]. cbv [ready] in Hr. subst rd.
  destruct msg; reflexivity.
Qed.

Lemma handleMessage_ping p :
  handleMessage Msg.ping p = (Ret tt, with_port (port p ++ [Out.pong (ready p)]) p).
Proof.
  unfold handleMessage. proc_unfold.
  destruct p as [a md bp bs rd pm sr ch st po cl]. by destruct rd.
Qed.

Lemma play_transition p :
  processor_running p ->
  let p' := exec (handleMessage Msg.play) p in
  let tr := new_calls (calls p) (calls p') in
  playMode p' = file ∧ port p' = port p ∧
  ∃ atEnd, status_of adl_atEnd tr = Some (AInt atEnd) ∧
    call_fn <$> tr = (if atEnd =? 0 then [adl_atEnd] else [adl_atEnd; adl_positionRewind]).
Proof.
  running_start p m.
  unfold handleMessage. proc_unfold. cbn [negb andb].
  proc_step. proc_unfold.
  destruct (r =? 0) eqn:Er; cbn [negb].
  - proc_unfold. trace_normalize. cbn zeta.
    split; [reflexivity|]. split; [reflexivity|].
    exists r. rewrite Er. split; reflexivity.
  - proc_step. proc_unfold. trace_normalize. cbn zeta.
    split; [reflexivity|]. split; [reflexivity|].
    exists r. rewrite Er. split; reflexivity.
Qed.

Lemma stop_transition p :
  processor_running p ->
  let p' := exec (handleMessage Msg.stop) p in
  let tr := new_calls (calls p) (calls p') in
  playMode p' = realtime ∧ port p' = port p ∧
  call_fn <$> tr = [adl_positionRewind; adl_panic].
Proof.
  running_start p m.
  unfold handleMessage. proc_unfold. cbn [negb andb].
  do 2 proc_step. proc_unfold. trace_normalize. cbn zeta.
  split; [reflexivity|]. split; reflexivity.
Qed.

Lemma reset_transition p :
  processor_running p ->
  let p' := exec (handleMessage Msg.reset) p in
  let tr := new_calls (calls p) (calls p') in
  playMode p' = realtime ∧ port p' = port p ∧ call_fn <$> tr = [adl_reset].
Proof.
  running_start p m.
  unfold handleMessage. proc_unfold. cbn [negb andb].
  do 1 proc_step. proc_unfold. trace_normalize. cbn zeta.
  split; [reflexivity|]. split; reflexivity.
Qed.

Lemma posted_app (before added : list Out.t) : posted before (before ++ added) = added.
Proof. unfold posted. by rewrite drop_app_length. Qed.
Lemma posted_nil (before : list Out.t) : posted before before = [].
Proof. unfold posted. by rewrite drop_all. Qed.

Lemma process_file_mode p outputs ch rest :
  processor_running p -> playMode p = file -> outputs !! 0%nat = Some (ch :: rest) ->
  let p' := exec (process outputs) p in
  let tr := new_calls (calls p) (calls p') in
  let ended := filter is_playbackEnded (posted (port p) (port p')) in
  ∃ atEnd, status_of adl_atEnd tr = Some (AInt atEnd) ∧
    if atEnd =? 0
    then playMode p' = file ∧ ended = [] ∧
         call_fn <$> tr = [adl_play; adl_atEnd]
    else playMode p' = realtime ∧ ended = [Out.playbackEnded] ∧
         call_fn <$> tr = [adl_play; adl_atEnd; adl_panic].
Proof.
  intros Hrun Hmode Hout. revert Hrun. running_start p m.
  cbv [playMode] in Hmode. subst.
  unfold process. proc_unfold. rewrite Hmidi, Hheap, Hout. cbn [negb orb].
  proc_unfold.
  do 2 proc_step. proc_unfold.
  destruct (r0 =? 0) eqn:Er; cbn [negb].
  - proc_unfold. case_bool_decide; proc_unfold.
    all: match goal with |- context [AdlMidiProcessor.int16_view ?a ?b ?c] => destruct (AdlMidiProcessor.int16_view a b c) end; proc_unfold.
    all: trace_normalize; rewrite <- ?app_assoc, ?posted_app, ?posted_nil; cbn zeta.
    all: exists r0; rewrite Er; split; [reflexivity|].
    all: split; [reflexivity|]; split; reflexivity.
  - proc_step. proc_unfold. case_bool_decide; proc_unfold.
    all: match goal with |- context [AdlMidiProcessor.int16_view ?a ?b ?c] => destruct (AdlMidiProcessor.int16_view a b c) end; proc_unfold.
    all: trace_normalize; rewrite <- ?app_assoc, ?posted_app, ?posted_nil; cbn zeta.
    all: exists r0; rewrite Er; split; [reflexivity|].
    all: split; [reflexivity|]; split; reflexivity.
Qed.

Lemma process_realtime_mode p outputs :
  playMode p = realtime ->
  let p' := exec (process outputs) p in
  playMode p' = realtime ∧
  filter is_playbackEnded (posted (port p) (port p')) = [].
Proof.
  intros Hmode. destruct p as [a md bp bs rd pm sr ch st po cl].
  cbv [playMode] in Hmode. subst.
  unfold process. proc_unfold.
  destruct rd; [|by rewrite posted_nil].
  destruct (falsy_ptr md); [by rewrite posted_nil|].
  destruct a as [m|]; [|by rewrite posted_nil].
  destruct (HEAP16_defined m); [|by rewrite posted_nil].
  destruct (outputs !! 0%nat) as [[|c0 rest]|]; try by rewrite posted_nil.
  proc_step. proc_unfold. case_bool_decide; proc_unfold.
  all: match goal with |- context [AdlMidiProcessor.int16_view ?a ?b ?c] =>
         destruct (AdlMidiProcessor.int16_view a b c) end; proc_unfold.
  all: rewrite ?posted_app, ?posted_nil; split; reflexivity.
Qed.

Lemma process_idle p outputs :
  ready p = false ∨ outputs !! 0%nat = None ∨ outputs !! 0%nat = Some [] ->
  process outputs p = (Ret outputs, p).
Proof.
  intros Hcase. unfold process. proc_unfold.
  destruct p as [a md bp bs rd pm sr ch st po cl]. cbv [ready] in Hcase.
  destruct Hcase as [->|[Ho|Ho]]; [reflexivity|..]; rewrite Ho.
  all: destruct rd; [|reflexivity]; destruct (falsy_ptr md); [reflexivity|].
  all: destruct a as [m|]; [|reflexivity]; by destruct (HEAP16_defined m).
Qed.
End ProcessorMode.

(** C10. While the ready flag is not set, [handleMessage] returns without
    touching the processor for every message but ['ping']: the engine, the
    call trace, the settings and the playback mode are as they were and
    nothing is posted.  A ['ping'] is answered, before and after
    initialisation, by one ['pong'] carrying the current ready flag, and
    changes nothing else. *)
Theorem messages_before_ready_are_ignored {M : Type} `{Wasm M}
  (p : AdlMidiProcessor.t M) (msg : Msg.t) :
  (AdlMidiProcessor.ready p = false ->
     AdlMidiProcessor.handleMessage msg p =
       (Ret tt,
        if Msg.is_ping msg
        then AdlMidiProcessor.with_port (AdlMidiProcessor.port p ++ [Out.pong false]) p
        else p) ∧
     AdlMidiProcessor.adl (exec (AdlMidiProcessor.handleMessage msg) p)
       = AdlMidiProcessor.adl p ∧
     AdlMidiProcessor.calls (exec (AdlMidiProcessor.handleMessage msg) p)
       = AdlMidiProcessor.calls p ∧
     AdlMidiProcessor.settings (exec (AdlMidiProcessor.handleMessage msg) p)
       = AdlMidiProcessor.settings p ∧
     AdlMidiProcessor.playMode (exec (AdlMidiProcessor.handleMessage msg) p)
       = AdlMidiProcessor.playMode p) ∧
  AdlMidiProcessor.handleMessage Msg.ping p =
    (Ret tt,
     AdlMidiProcessor.with_port
       (AdlMidiProcessor.port p ++ [Out.pong (AdlMidiProcessor.ready p)]) p).
Proof.
  split; [|apply handleMessage_ping].
  intros Hr. unfold exec. rewrite (handleMessage_before_ready p msg Hr).
  split; [reflexivity|]. cbn [snd].
  destruct (Msg.is_ping msg); repeat split; by destruct p.
Qed.

Lemma messages_before_ready_witness :
  AdlMidiProcessor.ready (AdlMidiProcessor.constructor (M := Toy.t) None no_settings) = false ∧
  exec (AdlMidiProcessor.handleMessage (Msg.setBank 3))
    (AdlMidiProcessor.constructor (M := Toy.t) None no_settings)
  = AdlMidiProcessor.constructor None no_settings ∧
  AdlMidiProcessor.port
    (exec (AdlMidiProcessor.handleMessage Msg.ping)
       (AdlMidiProcessor.constructor (M := Toy.t) None no_settings))
  = [Out.pong false].
Proof.
  assert (AdlMidiProcessor.ready
            (AdlMidiProcessor.constructor (M := Toy.t) None no_settings) = false)
    as Hr by reflexivity.
  split; [exact Hr|]. split.
  - unfold exec.
    rewrite (proj1 (proj1 (messages_before_ready_are_ignored _ (Msg.setBank 3)) Hr)).
    reflexivity.
  - unfold exec.
    rewrite (proj1 (proj1 (messages_before_ready_are_ignored _ Msg.ping) Hr)).
    reflexivity.
Defined.

(** C3, corrected.  The playback mode is [realtime] or [file] and starts
    as [realtime], with the ready flag not set.  While the ready flag is
    not set no message and no render call changes the mode.  On a
    processor that completed its initialisation: ['play'] asks the engine
    whether it is at the end, rewinds exactly when it is, and moves to
    [file]; ['stop'] moves to [realtime] and calls rewind then panic;
    ['reset'] calls the full reset and moves to [realtime]; a render call
    that has an output channel to fill, in [file] mode, calls [adl_play]
    and asks for at-end: when the engine reports the end it calls panic,
    moves to [realtime] and posts exactly one ['playbackEnded'], otherwise
    it stays in [file] and posts none.  A render call in [realtime] mode,
    a render call without an output channel, and every message other than
    ['play'], ['stop'] and ['reset'] leave the mode as it was. *)
Theorem playback_mode_machine {M : Type} `{Wasm M} :
  (∀ sampleRate overrides,
     AdlMidiProcessor.playMode (AdlMidiProcessor.constructor (M := M) sampleRate overrides)
       = realtime ∧
     AdlMidiProcessor.ready (AdlMidiProcessor.constructor (M := M) sampleRate overrides)
       = false) ∧
  (∀ (p : AdlMidiProcessor.t M) msg outputs,
     AdlMidiProcessor.ready p = false ->
     AdlMidiProcessor.playMode (exec (AdlMidiProcessor.handleMessage msg) p)
       = AdlMidiProcessor.playMode p ∧
     exec (AdlMidiProcessor.process outputs) p = p) ∧
  (∀ (p : AdlMidiProcessor.t M),
     processor_running p ->
     let p' := exec (AdlMidiProcessor.handleMessage Msg.play) p in
     let tr := new_calls (AdlMidiProcessor.calls p) (AdlMidiProcessor.calls p') in
     AdlMidiProcessor.playMode p' = file ∧
     AdlMidiProcessor.port p' = AdlMidiProcessor.port p ∧
     ∃ atEnd, status_of adl_atEnd tr = Some (AInt atEnd) ∧
       call_fn <$> tr =
         (if atEnd =? 0 then [adl_atEnd] else [adl_atEnd; adl_positionRewind])) ∧
  (∀ (p : AdlMidiProcessor.t M),
     processor_running p ->
     let p' := exec (AdlMidiProcessor.handleMessage Msg.stop) p in
     let tr := new_calls (AdlMidiProcessor.calls p) (AdlMidiProcessor.calls p') in
     AdlMidiProcessor.playMode p' = realtime ∧
     AdlMidiProcessor.port p' = AdlMidiProcessor.port p ∧
     call_fn <$> tr = [adl_positionRewind; adl_panic]) ∧
  (∀ (p : AdlMidiProcessor.t M),
     processor_running p ->
     let p' := exec (AdlMidiProcessor.handleMessage Msg.reset) p in
     let tr := new_calls (AdlMidiProcessor.calls p) (AdlMidiProcessor.calls p') in
     AdlMidiProcessor.playMode p' = realtime ∧
     AdlMidiProcessor.port p' = AdlMidiProcessor.port p ∧
     call_fn <$> tr = [adl_reset]) ∧
  (∀ (p : AdlMidiProcessor.t M) outputs channel rest,
     processor_running p -> AdlMidiProcessor.playMode p = file ->
     outputs !! 0%nat = Some (channel :: rest) ->
     let p' := exec (AdlMidiProcessor.process outputs) p in
     let tr := new_calls (AdlMidiProcessor.calls p) (AdlMidiProcessor.calls p') in
     let ended :=
       filter is_playbackEnded (posted (AdlMidiProcessor.port p) (AdlMidiProcessor.port p')) in
     ∃ atEnd, status_of adl_atEnd tr = Some (AInt atEnd) ∧
       if atEnd =? 0
       then AdlMidiProcessor.playMode p' = file ∧ ended = [] ∧
            call_fn <$> tr = [adl_play; adl_atEnd]
       else AdlMidiProcessor.playMode p' = realtime ∧ ended = [Out.playbackEnded] ∧
            call_fn <$> tr = [adl_play; adl_atEnd; adl_panic]) ∧
  (∀ (p : AdlMidiProcessor.t M) outputs,
     AdlMidiProcessor.playMode p = realtime ->
     let p' := exec (AdlMidiProcessor.process outputs) p in
     AdlMidiProcessor.playMode p' = realtime ∧
     filter is_playbackEnded (posted (AdlMidiProcessor.port p) (AdlMidiProcessor.port p'))
       = []) ∧
  (∀ (p : AdlMidiProcessor.t M) outputs,
     outputs !! 0%nat = None ∨ outputs !! 0%nat = Some [] ->
     exec (AdlMidiProcessor.process outputs) p = p) ∧
  (∀ (p : AdlMidiProcessor.t M) msg,
     msg ≠ Msg.play -> msg ≠ Msg.stop -> msg ≠ Msg.reset ->
     AdlMidiProcessor.playMode (exec (AdlMidiProcessor.handleMessage msg) p)
       = AdlMidiProcessor.playMode p).
Proof.
  split; [by intros|].
  split.
  { intros p msg outputs Hr. split.
    - unfold exec. rewrite (handleMessage_before_ready p msg Hr). cbn [snd].
      by destruct (Msg.is_ping msg), p.
    - unfold exec. by rewrite process_idle by auto. }
  split; [exact play_transition|].
  split; [exact stop_transition|].
  split; [exact reset_transition|].
  split; [exact process_file_mode|].
  split; [exact process_realtime_mode|].
  split.
  { intros p outputs Ho. unfold exec. by rewrite process_idle by auto. }
  intros p msg H1 H2 H3. exact (handleMessage_keeps_mode msg H1 H2 H3 p).
Qed.

Lemma playback_mode_witness :
  (processor_running (toy_processor (Toy.failing adl_atEnd)) ∧
   AdlMidiProcessor.playMode
     (exec (AdlMidiProcessor.handleMessage Msg.play) (toy_processor (Toy.failing adl_atEnd)))
   = file ∧
   [[[0%Q; 0%Q]; [0%Q; 0%Q]]] !! 0%nat = Some ([0%Q; 0%Q] :: [[0%Q; 0%Q]])) ∧
  AdlMidiProcessor.playMode
    (exec (AdlMidiProcessor.process [[[0%Q; 0%Q]; [0%Q; 0%Q]]])
       (exec (AdlMidiProcessor.handleMessage Msg.play)
          (toy_processor (Toy.failing adl_atEnd))))
  = realtime.
Proof.
  assert (processor_running (toy_processor (Toy.failing adl_atEnd))) as Hrun.
  { split; [reflexivity|]. split; [reflexivity|]. eexists. split; reflexivity. }
  assert (processor_running
            (exec (AdlMidiProcessor.handleMessage Msg.play)
               (toy_processor (Toy.failing adl_atEnd)))) as Hrun'.
  { split; [reflexivity|]. split; [reflexivity|]. eexists. split; reflexivity. }
  pose proof (proj1 (proj1 (proj2 (proj2 playback_mode_machine)) _ Hrun)) as Hplay.
  split; [split; [exact Hrun|split; [exact Hplay|reflexivity]]|].
  destruct (proj1 (proj2 (proj2 (proj2 (proj2 (proj2 playback_mode_machine)))))
              _ [[[0%Q; 0%Q]; [0%Q; 0%Q]]] _ _ Hrun' Hplay eq_refl)
    as (atEnd & Hstatus & Hcase).
  vm_compute in Hstatus. injection Hstatus as <-.
  exact (proj1 Hcase).
Defined.

(** C3 as stated fails in the initial state: the processor as constructed
    is in [realtime] mode and a ['play'] message leaves it there, because
    the ready flag is not set yet. *)
Lemma play_before_ready_stays_realtime :
  AdlMidiProcessor.playMode (AdlMidiProcessor.constructor (M := Toy.t) None no_settings)
  = realtime ∧
  AdlMidiProcessor.playMode
    (exec (AdlMidiProcessor.handleMessage Msg.play)
       (AdlMidiProcessor.constructor (M := Toy.t) None no_settings))
  ≠ file.
Proof. split; [reflexivity|]. vm_compute. discriminate. Qed.

(* ===================================================================== *)
(** * The one-shot handler registry of AdlMidi *)
(* ===================================================================== *)

Section Registry.
Import AdlMidi.
Implicit Types c : AdlMidi.t.

Lemma new_ok : registry_ok new.
Proof.
  split; cbn; intros; try done; try (by apply NoDup_nil); by set_solver.
Qed.

Lemma set_delete_ids id (set : list (nat * Handler)) x :
  x ∈ (set_delete id set).*1 ↔ x ∈ set.*1 ∧ x ≠ id.
Proof.
  unfold set_delete. rewrite !list_elem_of_fmap. split.
  - intros ([i h] & -> & Hin). apply list_elem_of_filter in Hin as [Hne Hin].
    split; [|done]. by exists (i, h).
  - intros (([i h] & -> & Hin) & Hne). exists (i, h). split; [done|].
    apply list_elem_of_filter. done.
Qed.

Lemma set_delete_nodup id (set : list (nat * Handler)) :
  NoDup set.*1 -> NoDup (set_delete id set).*1.
Proof.
  intros Hnd. eapply sublist_NoDup; [exact Hnd|].
  apply fmap_sublist. apply sublist_filter.
Qed.

Lemma wrappedHandler_ok tag id h msg c set :
  registry_ok c -> messageHandlers c !! tag = Some set -> id ∈ set.*1 ->
  registry_ok (wrappedHandler tag id h msg c).
Proof.
  intros [Hfd Hfb Hsn Hsb Hsf Hsd] Hset Hid. unfold wrappedHandler.
  split; cbn [fired next_handler messageHandlers].
  - apply NoDup_app. split; [done|]. split; [|apply NoDup_singleton].
    intros x Hx ->%list_elem_of_singleton. by eapply Hsf.
  - intros x [Hx| ->%list_elem_of_singleton]%elem_of_app; [by apply Hfb|].
    by eapply Hsb.
  - intros ty s. rewrite lookup_alter. case_decide as Hty.
    + subst. rewrite Hset. cbn. intros [= <-]. apply set_delete_nodup. by eapply Hsn.
    + intros Hs. by eapply Hsn.
  - intros ty s x. rewrite lookup_alter. case_decide as Hty.
    + subst. rewrite Hset. cbn. intros [= <-] [Hx _]%set_delete_ids. by eapply Hsb.
    + intros Hs Hx. by eapply Hsb.
  - intros ty s x. rewrite lookup_alter. case_decide as Hty.
    + subst. rewrite Hset. cbn. intros [= <-] [Hx Hne]%set_delete_ids.
      rewrite elem_of_app, list_elem_of_singleton. intros [Hf|?]; [|done].
      by eapply Hsf.
    + intros Hs Hx. rewrite elem_of_app, list_elem_of_singleton. intros [Hf| ->].
      * by eapply Hsf.
      * apply Hty. by eapply (Hsd tag ty set s).
  - intros t1 t2 s1 s2 x. rewrite !lookup_alter.
    repeat case_decide; subst; rewrite ?Hset; cbn; try done.
    + intros [= <-] Hs2 [Hx _]%set_delete_ids Hx2. eapply Hsd; eauto.
    + intros Hs1 [= <-] Hx1 [Hx _]%set_delete_ids. eapply Hsd; eauto.
    + intros. by eapply Hsd.
Qed.

Lemma forEach_ok tag members msg c :
  registry_ok c -> registry_ok (forEach tag members msg c).
Proof.
  revert c. induction members as [|[id h] rest IH]; intros c Hok; [done|].
  cbn [forEach]. apply IH. unfold set_has. case_bool_decide as Hin; [|done].
  destruct (messageHandlers c !! tag) as [set|] eqn:Hset; cbn in Hin.
  - by eapply wrappedHandler_ok.
  - by apply elem_of_nil in Hin.
Qed.

Lemma handleMessage_ok msg c : registry_ok c -> registry_ok (handleMessage msg c).
Proof.
  intros Hok. unfold handleMessage.
  destruct (messageHandlers c !! Out.type msg); [by apply forEach_ok|done].
Qed.

Lemma onceMessage_lookup_eq tag h c :
  messageHandlers (onceMessage tag h c) !! tag
  = Some (default [] (messageHandlers c !! tag) ++ [(next_handler c, h)]).
Proof.
  unfold onceMessage. cbn [messageHandlers]. rewrite lookup_alter_eq.
  destruct (messageHandlers c !! tag) as [set|] eqn:Hset.
  - by rewrite Hset.
  - by rewrite lookup_insert_eq.
Qed.

Lemma onceMessage_lookup_ne tag h c ty :
  ty ≠ tag ->
  messageHandlers (onceMessage tag h c) !! ty = messageHandlers c !! ty.
Proof.
  intros Hne. unfold onceMessage. cbn [messageHandlers].
  rewrite lookup_alter_ne by done.
  destruct (messageHandlers c !! tag); [done|]. by rewrite lookup_insert_ne.
Qed.

Lemma onceMessage_ok tag h c : registry_ok c -> registry_ok (onceMessage tag h c).
Proof.
  intros [Hfd Hfb Hsn Hsb Hsf Hsd].
  assert (∀ x, x ∈ (default [] (messageHandlers c !! tag)).*1 ->
            (x < next_handler c)%nat ∧ (x ∉ fired c) ∧
            ∀ ty s, messageHandlers c !! ty = Some s -> x ∈ s.*1 -> ty = tag) as Hold.
  { intros x Hx. destruct (messageHandlers c !! tag) as [set|] eqn:Hset; cbn in Hx.
    - split; [by eapply Hsb|]. split; [by eapply Hsf|].
      intros ty s Hs Hxs. by eapply (Hsd ty tag).
    - by apply elem_of_nil in Hx. }
  assert (NoDup (default [] (messageHandlers c !! tag)).*1) as Hnd.
  { destruct (messageHandlers c !! tag) as [set|] eqn:Hset; cbn;
      [by eapply Hsn|apply NoDup_nil_2]. }
  assert (∀ ty s x, messageHandlers (onceMessage tag h c) !! ty = Some s -> x ∈ s.*1 ->
            (ty = tag ∧ (x = next_handler c ∨
                         x ∈ (default [] (messageHandlers c !! tag)).*1)) ∨
            (ty ≠ tag ∧ messageHandlers c !! ty = Some s)) as Hcase.
  { intros ty s x Hs Hx. destruct (decide (ty = tag)) as [->|Hne].
    - left. split; [done|]. rewrite onceMessage_lookup_eq in Hs.
      injection Hs as <-. rewrite fmap_app in Hx.
      apply elem_of_app in Hx as [Hx| ->%list_elem_of_singleton]; auto.
    - right. split; [done|]. by rewrite onceMessage_lookup_ne in Hs. }
  split.
  - done.
  - intros x Hx. specialize (Hfb x Hx). unfold onceMessage; cbn [next_handler]. lia.
  - intros ty s Hs. destruct (decide (ty = tag)) as [->|Hne].
    + rewrite onceMessage_lookup_eq in Hs. injection Hs as <-.
      rewrite fmap_app. apply NoDup_app. split; [done|]. split; [|apply NoDup_singleton].
      intros x Hx ->%list_elem_of_singleton. apply Hold in Hx as (Hlt & _ & _). cbn in Hlt. lia.
    + rewrite onceMessage_lookup_ne in Hs by done. by eapply Hsn.
  - intros ty s x Hs Hx. unfold onceMessage at 1; cbn [next_handler].
    destruct (Hcase ty s x Hs Hx) as [[-> [-> |Hx']]|[Hne Hs']].
    + lia.
    + apply Hold in Hx' as (Hlt & _ & _). lia.
    + specialize (Hsb ty s x Hs' Hx). lia.
  - intros ty s x Hs Hx. unfold onceMessage at 1; cbn [fired].
    destruct (Hcase ty s x Hs Hx) as [[-> [-> |Hx']]|[Hne Hs']].
    + intros Hf. apply Hfb in Hf. lia.
    + by apply Hold in Hx' as (_ & ? & _).
    + by eapply Hsf.
  - intros t1 t2 s1 s2 x Hs1 Hs2 Hx1 Hx2.
    destruct (Hcase t1 s1 x Hs1 Hx1) as [[E1 C1]|[Hne1 Hs1']];
    destruct (Hcase t2 s2 x Hs2 Hx2) as [[E2 C2]|[Hne2 Hs2']]; subst.
    + done.
    + destruct C1 as [E|Hx'].
      * specialize (Hsb t2 s2 _ Hs2' Hx2). lia.
      * apply Hold in Hx' as (_ & _ & Hty). symmetry. by eapply Hty.
    + destruct C2 as [E|Hx'].
      * specialize (Hsb t1 s1 _ Hs1' Hx1). lia.
      * apply Hold in Hx' as (_ & _ & Hty). by eapply Hty.
    + by eapply Hsd.
Qed.

Lemma act_ok a c : registry_ok c -> registry_ok (act a c).
Proof.
  intros Hok. destruct a as [tag h|[msg|id]]; cbn.
  - by apply onceMessage_ok.
  - by apply handleMessage_ok.
  - destruct Hok. by split.
Qed.

Lemma history_ok l c : registry_ok c -> registry_ok (history l c).
Proof.
  revert c. induction l as [|a l IH]; intros c Hok; [done|].
  cbn. apply IH. by apply act_ok.
Qed.

Lemma set_delete_head id h (rest : list (nat * Handler)) :
  id ∉ rest.*1 -> set_delete id ((id, h) :: rest) = rest.
Proof.
  intros Hni. unfold set_delete. rewrite filter_cons. cbn.
  case_decide; [done|].
  induction rest as [|[i g] rest IH]; [done|].
  rewrite fmap_cons, not_elem_of_cons in Hni. destruct Hni as [Hne Hni].
  rewrite filter_cons. cbn. case_decide; [|done]. f_equal. by apply IH.
Qed.

Lemma insert_after_alter {A} (f : A -> A) (k : string) (v : A) (m : gmap string A) :
  <[k := v]> (alter f k m) = <[k := v]> m.
Proof.
  apply map_eq. intros j. destruct (decide (k = j)) as [->|Hne].
  - by rewrite !lookup_insert_eq.
  - by rewrite !lookup_insert_ne, lookup_alter_ne.
Qed.

(** What the iteration does when it starts on the whole set: every
    member runs once, in registration order, and the set ends empty. *)
Lemma forEach_fires tag (members : list (nat * Handler)) msg c :
  messageHandlers c !! tag = Some members -> NoDup members.*1 ->
  forEach tag members msg c =
    mk (<[tag := []]> (messageHandlers c)) (next_handler c)
       (foldl (fun e w => w.2 msg e) (env c) members)
       (fired c ++ members.*1).
Proof.
  revert c. induction members as [|[w h] rest IH]; intros c Hset Hnd.
  - cbn. rewrite app_nil_r. rewrite insert_id by done. by destruct c.
  - cbn [forEach]. rewrite Hset. cbn [from_option id].
    unfold set_has. rewrite bool_decide_eq_true_2 by (cbn; left).
    rewrite fmap_cons in Hnd. apply NoDup_cons in Hnd as [Hni Hnd].
    rewrite IH; [| |done].
    + unfold wrappedHandler. cbn [messageHandlers next_handler env fired foldl snd].
      rewrite insert_after_alter. rewrite <- app_assoc. reflexivity.
    + unfold wrappedHandler. cbn [messageHandlers].
      rewrite lookup_alter_eq, Hset. cbn. f_equal. by apply set_delete_head.
Qed.

Lemma handleMessage_fires msg c (set : list (nat * Handler)) :
  registry_ok c -> messageHandlers c !! Out.type msg = Some set ->
  handleMessage msg c =
    mk (<[Out.type msg := []]> (messageHandlers c)) (next_handler c)
       (foldl (fun e w => w.2 msg e) (env c) set)
       (fired c ++ set.*1).
Proof.
  intros Hok Hset. unfold handleMessage. rewrite Hset.
  apply forEach_fires; [done|]. by eapply sets_nodup.
Qed.

Lemma handleMessage_dropped msg c :
  messageHandlers c !! Out.type msg = None ∨ messageHandlers c !! Out.type msg = Some [] ->
  handleMessage msg c = c.
Proof. unfold handleMessage. by intros [-> | ->]. Qed.
End Registry.

(* ===================================================================== *)
(** * The initialisation handshake of AdlMidi *)
(* ===================================================================== *)

Section HandshakeProofs.
Import AdlMidi Handshake.

Lemma start_represents : represents start initial.
Proof. split; reflexivity. Qed.

Lemma settle_singleton (o s : PromiseState) :
  settle 0 s {[ 0%nat := o ]} = {[ 0%nat := settled o s ]}.
Proof.
  unfold settle. rewrite lookup_singleton_eq.
  destruct o; cbn; [|done..]. by rewrite insert_singleton_eq.
Qed.

Lemma disarm (ta : bool) (tm : Timer) :
  delete 0%nat (if ta then {[ 0%nat := tm ]} else ∅ : gmap nat Timer) = ∅.
Proof. destruct ta; [apply delete_singleton_eq|apply delete_empty]. Qed.

(** Delivery to a registry of the handshake's form, the handlers kept
    abstract. *)
Lemma deliver_to (hr he : Handler) (rw ew : bool) nh e fl msg :
  handleMessage msg
    (mk {[ "ready" := if rw then [(0%nat, hr)] else [];
           "error" := if ew then [(1%nat, he)] else [] ]} nh e fl)
  = if decide (Out.type msg = "ready") then
      mk {[ "ready" := []; "error" := if ew then [(1%nat, he)] else [] ]} nh
         (if rw then hr msg e else e) (if rw then fl ++ [0%nat] else fl)
    else if decide (Out.type msg = "error") then
      mk {[ "ready" := if rw then [(0%nat, hr)] else []; "error" := [] ]} nh
         (if ew then he msg e else e) (if ew then fl ++ [1%nat] else fl)
    else
      mk {[ "ready" := if rw then [(0%nat, hr)] else [];
            "error" := if ew then [(1%nat, he)] else [] ]} nh e fl.
Proof.
  unfold handleMessage. cbn [messageHandlers].
  destruct (decide (Out.type msg = "ready")) as [->|Hnr].
  - destruct rw, ew; vm_compute; reflexivity.
  - destruct (decide (Out.type msg = "error")) as [->|Hne].
    + destruct rw, ew; vm_compute; reflexivity.
    + rewrite lookup_insert_ne by done. rewrite lookup_singleton_ne by done.
      reflexivity.
Qed.

Lemma represents_step c s ev :
  represents c s -> represents (step ev c) (shape_step ev s).
Proof.
  destruct c as [mh nh e fl]. destruct s as [rw ew ta o f].
  unfold represents. cbn [messageHandlers env ready_waits error_waits timer_armed
                          outcome flag].
  intros [-> ->].
  destruct ev as [msg|t]; unfold shape_step, decisive; cbn [step].
  - rewrite deliver_to.
    destruct (decide (Out.type msg = "ready")) as [Hr|Hnr].
    + destruct rw; cbn [messageHandlers env ready_waits error_waits timer_armed
                          outcome flag]; [|done].
      split; [done|].
      unfold on_ready, resolve, with_ready, clearTimeout, with_timers, with_promises.
      cbn [ready node promises next_promise timers next_timer sent].
      by rewrite settle_singleton, disarm.
    + destruct (decide (Out.type msg = "error")) as [He|Hne]; [|done].
      destruct ew; cbn [messageHandlers env ready_waits error_waits timer_armed
                          outcome flag]; [|done].
      split; [done|].
      unfold on_error, reject, clearTimeout, with_timers, with_promises.
      cbn [ready node promises next_promise timers next_timer sent].
      by rewrite settle_singleton, disarm.
  - unfold on_env, expire, with_env. cbn [env messageHandlers next_handler fired].
    cbn [ready node promises next_promise timers next_timer sent].
    destruct (decide (t = 0%nat)) as [->|Hne].
    + destruct ta; cbn [messageHandlers env ready_waits error_waits timer_armed
                          outcome flag].
      * rewrite lookup_singleton_eq. split; [done|].
        unfold with_timers, with_promises.
        cbn [ready node promises next_promise timers next_timer sent callback].
        unfold on_timeout. rewrite settle_singleton.
        by rewrite delete_singleton_eq.
      * rewrite lookup_empty. done.
    + destruct ta.
      * rewrite lookup_singleton_ne by done. done.
      * rewrite lookup_empty. done.
Qed.

Lemma represents_run evs c s :
  represents c s -> represents (run evs c) (foldl (fun s ev => shape_step ev s) s evs).
Proof.
  revert c s. induction evs as [|ev evs IH]; intros c s Hrep; [done|].
  cbn. apply IH. by apply represents_step.
Qed.

Lemma first_decisive_cons t ev evs :
  first_decisive t (ev :: evs) =
    match decisive t ev with Some d => Some d | None => first_decisive t evs end.
Proof. unfold first_decisive. cbn. by destruct (decisive t ev). Qed.

Lemma shape_run evs s :
  coherent s ->
  let s' := foldl (fun s ev => shape_step ev s) s evs in
  outcome s' = settled (outcome s) (expected (first_decisive 0 evs)) ∧
  (outcome s = Pending ->
     timer_armed s' = bool_decide (first_decisive 0 evs = None)).
Proof.
  revert s. induction evs as [|ev evs IH]; intros s Hco; cbn zeta.
  - cbn. split; [by destruct (outcome s)|].
    intros Hp. by destruct (Hco Hp) as (_ & _ & ->).
  - cbn [foldl]. rewrite first_decisive_cons.
    destruct (decisive 0 ev) as [d|] eqn:Hd.
    +
      assert (coherent (shape_step ev s) ∧
              outcome (shape_step ev s) = settled (outcome s) (expected (Some d)) ∧
              (outcome s = Pending -> timer_armed (shape_step ev s) = false ∧
                                      outcome (shape_step ev s) ≠ Pending)) as (Hco' & Ho & Hta).
      { unfold shape_step. rewrite Hd. unfold coherent in *.
        destruct s as [rw ew ta o f]; cbn in *.
        destruct o, d, rw, ew, ta; cbn; repeat split; intros; try done;
          try (destruct (Hco eq_refl) as (? & ? & ?); done). }
      destruct (IH _ Hco') as [IHo IHt]. rewrite IHo, Ho.
      split.
      * destruct (outcome s); [|done..]. by destruct d.
      * intros Hp. destruct (Hta Hp) as [Hf Hnp].
        rewrite bool_decide_eq_false_2 by done.
        clear IHo IHt Ho Hta.
        assert (∀ evs s, timer_armed s = false ->
                  timer_armed (foldl (fun s ev => shape_step ev s) s evs) = false) as Hstay.
        { clear. intros evs. induction evs as [|e evs IH]; intros s Hs; [done|].
          cbn. apply IH. unfold shape_step.
          destruct (decisive 0 e) as [[]|]; destruct s as [[] [] ta o f]; cbn in *;
            by subst. }
        by apply Hstay.
    + assert (shape_step ev s = s) as -> by (unfold shape_step; by rewrite Hd).
      apply IH. done.
Qed.
End HandshakeProofs.

(** C4. Along every history of a new [AdlMidi] (any interleaving of
    one-shot registrations, delivered messages and expiring timers, with
    arbitrary handlers that may send), no wrapper runs its handler twice
    and a wrapper that has run is no longer registered.  A delivered
    message runs the handlers registered for its type once each, in
    registration order, leaves the set of that type empty, so that the
    same message delivered again changes nothing.  A message whose type
    has no registered handler leaves the object exactly as it was. *)
Theorem one_shot_handlers_fire_at_most_once :
  (∀ l, NoDup (AdlMidi.fired (AdlMidi.history l AdlMidi.new)) ∧
        ∀ id, id ∈ AdlMidi.fired (AdlMidi.history l AdlMidi.new) ->
              ¬ AdlMidi.registered (AdlMidi.history l AdlMidi.new) id) ∧
  (∀ l msg (set : list (nat * AdlMidi.Handler)),
     AdlMidi.messageHandlers (AdlMidi.history l AdlMidi.new) !! Out.type msg = Some set ->
     let c := AdlMidi.history l AdlMidi.new in
     let c' := AdlMidi.handleMessage msg c in
     AdlMidi.fired c' = AdlMidi.fired c ++ set.*1 ∧
     AdlMidi.env c' = foldl (fun e w => w.2 msg e) (AdlMidi.env c) set ∧
     AdlMidi.messageHandlers c' = <[Out.type msg := []]> (AdlMidi.messageHandlers c) ∧
     AdlMidi.handleMessage msg c' = c') ∧
  (∀ c msg,
     AdlMidi.messageHandlers c !! Out.type msg = None ∨
     AdlMidi.messageHandlers c !! Out.type msg = Some [] ->
     AdlMidi.handleMessage msg c = c).
Proof.
  split; [|split].
  - intros l. pose proof (history_ok l _ new_ok) as Hok.
    split; [by apply fired_nodup|].
    intros id Hf (tag & set & Hset & Hin).
    by apply (sets_fresh _ Hok tag set id).
  - intros l msg set Hset. cbn zeta.
    pose proof (history_ok l _ new_ok) as Hok.
    rewrite (handleMessage_fires msg _ set Hok Hset).
    cbn [AdlMidi.fired AdlMidi.env AdlMidi.messageHandlers].
    split; [done|]. split; [done|]. split; [done|].
    apply handleMessage_dropped. right. cbn [AdlMidi.messageHandlers].
    apply lookup_insert_eq.
  - exact (fun c msg => handleMessage_dropped msg c).
Qed.

Lemma one_shot_handlers_witness :
  (AdlMidi.messageHandlers
     (AdlMidi.history [AdlMidi.Once "bankSet" (fun _ e => AdlMidi.send Msg.panic e)]
        AdlMidi.new) !! Out.type (Out.bankSet true 3)
   = Some [(0%nat, fun _ e => AdlMidi.send Msg.panic e)] ∧
   (AdlMidi.messageHandlers AdlMidi.new !! Out.type Out.configured = None ∨
    AdlMidi.messageHandlers AdlMidi.new !! Out.type Out.configured = Some [])) ∧
  AdlMidi.fired
    (AdlMidi.handleMessage (Out.bankSet true 3)
       (AdlMidi.history [AdlMidi.Once "bankSet" (fun _ e => AdlMidi.send Msg.panic e)]
          AdlMidi.new))
  = [0%nat] ∧
  AdlMidi.handleMessage Out.configured AdlMidi.new = AdlMidi.new.
Proof.
  assert (AdlMidi.messageHandlers
            (AdlMidi.history [AdlMidi.Once "bankSet" (fun _ e => AdlMidi.send Msg.panic e)]
               AdlMidi.new) !! Out.type (Out.bankSet true 3)
          = Some [(0%nat, fun _ e => AdlMidi.send Msg.panic e)]) as Hset by reflexivity.
  assert (AdlMidi.messageHandlers AdlMidi.new !! Out.type Out.configured = None ∨
          AdlMidi.messageHandlers AdlMidi.new !! Out.type Out.configured = Some [])
    as Hnone by (left; reflexivity).
  split; [exact (conj Hset Hnone)|]. split.
  - exact (proj1 (proj1 (proj2 one_shot_handlers_fire_at_most_once) _ _ _ Hset)).
  - exact (proj2 (proj2 one_shot_handlers_fire_at_most_once) _ _ Hnone).
Defined.

Section HandshakeOutcome.
Import AdlMidi Handshake.

Lemma first_decisive_app t evs late :
  first_decisive t evs ≠ None ->
  first_decisive t (evs ++ late) = first_decisive t evs.
Proof.
  induction evs as [|ev evs IH]; [done|].
  rewrite <- app_comm_cons, !first_decisive_cons.
  destruct (decisive t ev); [done|]. exact IH.
Qed.

Lemma first_decisive_snoc t evs ev :
  decisive t ev ≠ None -> first_decisive t (evs ++ [ev]) ≠ None.
Proof.
  intros Hd. induction evs as [|e evs IH].
  - cbn [app]. rewrite first_decisive_cons. by destruct (decisive t ev).
  - rewrite <- app_comm_cons, first_decisive_cons. by destruct (decisive t e).
Qed.

Lemma handshake_env evs :
  ∃ f, env (run evs start) =
    mkEnv f true {[ 0%nat := expected (first_decisive 0 evs) ]} 1
      (if bool_decide (first_decisive 0 evs = None)
       then {[ 0%nat := mkTimer 10000 (on_timeout 0) ]} else ∅) 1 [].
Proof.
  destruct (represents_run evs _ _ start_represents) as [_ Henv].
  destruct (shape_run evs initial) as [Ho Ht]; [by intros _|].
  cbn zeta in Ho, Ht. specialize (Ht eq_refl).
  rewrite Henv, Ho, Ht. cbn [outcome initial settled]. by eexists.
Qed.

End HandshakeOutcome.

(** C6. The handshake at the end of [init] registers a one-shot handler
    for ['ready'] and one for ['error'] and starts a timer of 10000 ms,
    with the promise pending.  After any sequence of delivered messages
    and timer expiries the promise is in the state decided by the first
    of: a ['ready'] message (fulfilled), an ['error'] message (rejected
    with its message), the expiry of the timer (rejected with the timeout
    message); it is pending if none happened.  The timer stays armed until
    that first decisive event and is gone after it, so after a ['ready']
    or an ['error'] it cannot fire.  Whatever arrives after the promise
    has settled leaves its state as it is. *)
Theorem init_handshake_first_event_decides :
  ((fun set : list (nat * AdlMidi.Handler) => set.*1)
     <$> AdlMidi.messageHandlers Handshake.start !! "ready" = Some [0%nat] ∧
   (fun set : list (nat * AdlMidi.Handler) => set.*1)
     <$> AdlMidi.messageHandlers Handshake.start !! "error" = Some [1%nat] ∧
   AdlMidi.delay <$> AdlMidi.timers (AdlMidi.env Handshake.start) !! Handshake.timer
     = Some 10000 ∧
   AdlMidi.promises (AdlMidi.env Handshake.start) !! Handshake.promise
     = Some AdlMidi.Pending) ∧
  (∀ evs,
     AdlMidi.promises (AdlMidi.env (AdlMidi.run evs Handshake.start)) !! Handshake.promise
     = Some (Handshake.expected (Handshake.first_decisive Handshake.timer evs))) ∧
  (∀ evs,
     AdlMidi.delay
       <$> AdlMidi.timers (AdlMidi.env (AdlMidi.run evs Handshake.start)) !! Handshake.timer
     = if bool_decide (Handshake.first_decisive Handshake.timer evs = None)
       then Some 10000 else None) ∧
  (∀ evs msg,
     Out.type msg = "ready" ∨ Out.type msg = "error" ->
     AdlMidi.timers
       (AdlMidi.env (AdlMidi.run (evs ++ [AdlMidi.Deliver msg]) Handshake.start))
       !! Handshake.timer = None) ∧
  (∀ evs late,
     Handshake.first_decisive Handshake.timer evs ≠ None ->
     AdlMidi.promises
       (AdlMidi.env (AdlMidi.run (evs ++ late) Handshake.start)) !! Handshake.promise
     = AdlMidi.promises
         (AdlMidi.env (AdlMidi.run evs Handshake.start)) !! Handshake.promise).
Proof.
  change Handshake.timer with 0%nat. change Handshake.promise with 0%nat.
  assert (∀ evs,
    AdlMidi.promises (AdlMidi.env (AdlMidi.run evs Handshake.start)) !! 0%nat
    = Some (Handshake.expected (Handshake.first_decisive 0 evs))) as Hout.
  { intros evs. destruct (handshake_env evs) as [f ->].
    cbn [AdlMidi.promises]. apply lookup_singleton_eq. }
  assert (∀ evs,
    AdlMidi.timers (AdlMidi.env (AdlMidi.run evs Handshake.start)) !! 0%nat
    = if bool_decide (Handshake.first_decisive 0 evs = None)
      then Some (AdlMidi.mkTimer 10000 (AdlMidi.on_timeout 0)) else None) as Htimer.
  { intros evs. destruct (handshake_env evs) as [f ->].
    cbn [AdlMidi.timers]. case_bool_decide; [apply lookup_singleton_eq|apply lookup_empty]. }
  split; [repeat split; reflexivity|].
  split; [exact Hout|].
  split; [intros evs; rewrite Htimer; by case_bool_decide|].
  split.
  - intros evs msg Hty. rewrite Htimer.
    rewrite bool_decide_eq_false_2; [done|].
    apply first_decisive_snoc. unfold Handshake.decisive.
    destruct Hty as [-> | ->]; by repeat case_decide.
  - intros evs late Hd. rewrite !Hout. by rewrite first_decisive_app.
Qed.

Lemma init_handshake_witness :
  ((Out.type (Out.error "boom") = "ready" ∨ Out.type (Out.error "boom") = "error") ∧
   Handshake.first_decisive Handshake.timer [AdlMidi.Expire 0] ≠ None) ∧
  AdlMidi.timers
    (AdlMidi.env
       (AdlMidi.run ([] ++ [AdlMidi.Deliver (Out.error "boom")]) Handshake.start))
    !! Handshake.timer = None ∧
  AdlMidi.promises
    (AdlMidi.env
       (AdlMidi.run ([AdlMidi.Expire 0] ++ [AdlMidi.Deliver Out.ready]) Handshake.start))
    !! Handshake.promise
  = Some (AdlMidi.Rejected AdlMidi.TIMEOUT_MESSAGE).
Proof.
  assert (Out.type (Out.error "boom") = "ready" ∨ Out.type (Out.error "boom") = "error")
    as Hty by (right; reflexivity).
  assert (Handshake.first_decisive Handshake.timer [AdlMidi.Expire 0] ≠ None)
    as Hd by (vm_compute; discriminate).
  split; [exact (conj Hty Hd)|]. split.
  - exact (proj1 (proj2 (proj2 (proj2 init_handshake_first_event_decides))) [] _ Hty).
  - rewrite (proj2 (proj2 (proj2 (proj2 init_handshake_first_event_decides)))
               [AdlMidi.Expire 0] [AdlMidi.Deliver Out.ready] Hd).
    rewrite (proj1 (proj2 init_handshake_first_event_decides) [AdlMidi.Expire 0]).
    reflexivity.
Defined.

(** A ['ready'] that arrives after the timeout does not touch the rejected
    promise, but its handler still runs and sets [#ready]. *)
Example late_ready_sets_the_flag :
  AdlMidi.ready
    (AdlMidi.env (AdlMidi.run [AdlMidi.Expire 0; AdlMidi.Deliver Out.ready] Handshake.start))
  = true ∧
  AdlMidi.fired (AdlMidi.run [AdlMidi.Expire 0; AdlMidi.Deliver Out.ready] Handshake.start)
  = [0%nat].
Proof. split; reflexivity. Qed.

(* ===================================================================== *)
(** * The operator codec outside its ranges *)
(* ===================================================================== *)

Lemma to_int32_mod (x n : Z) :
  0 <= n <= 32 -> JS.to_int32 x mod 2 ^ n = x mod 2 ^ n.
Proof.
  intros Hn. unfold JS.to_int32.
  assert (2 ^ 32 = 2 ^ n * 2 ^ (32 - n)) as E
    by (rewrite <- Z.pow_add_r by lia; f_equal; lia).
  assert (2 ^ 31 = 2 ^ 32 / 2) as E31 by reflexivity.
  assert (0 < 2 ^ n) by (apply Z.pow_pos_nonneg; lia).
  assert (0 < 2 ^ (32 - n)) by (apply Z.pow_pos_nonneg; lia).
  pose proof (Z.div_mod (x + 2 ^ 31) (2 ^ 32) ltac:(lia)) as Hd.
  replace ((x + 2 ^ 31) mod 2 ^ 32 - 2 ^ 31)
    with (x + (- ((x + 2 ^ 31) / 2 ^ 32) * 2 ^ (32 - n)) * 2 ^ n) by (rewrite E in Hd |- *; lia).
  apply Z.mod_add. lia.
Qed.

Lemma band_ones (x n : Z) :
  0 <= n <= 30 -> JS.band x (Z.ones n) = x mod 2 ^ n.
Proof.
  intros Hn. unfold JS.band.
  assert (0 < 2 ^ n <= 2 ^ 30) as Hpow
    by (split; [apply Z.pow_pos_nonneg; lia | apply Z.pow_le_mono_r; lia]).
  assert (JS.to_int32 (Z.ones n) = Z.ones n) as ->.
  { unfold JS.to_int32. rewrite Z.ones_equiv. rewrite Z.mod_small; lia. }
  rewrite Z.land_ones by lia. apply to_int32_mod. lia.
Qed.

Lemma band_masks (x : Z) :
  JS.band x 0x0F = x mod 16 ∧ JS.band x 0x03 = x mod 4 ∧ JS.band x 0x3F = x mod 64 ∧
  JS.band x 0x07 = x mod 8 ∧ JS.band x 0x01 = x mod 2 ∧ JS.band x 0x7F = x mod 128.
Proof.
  repeat split.
  - exact (band_ones x 4 ltac:(lia)).
  - exact (band_ones x 2 ltac:(lia)).
  - exact (band_ones x 6 ltac:(lia)).
  - exact (band_ones x 3 ltac:(lia)).
  - exact (band_ones x 1 ltac:(lia)).
  - exact (band_ones x 7 ltac:(lia)).
Qed.

Lemma encodeOperator_wrap (op : Operator) :
  encodeOperator (wrap_operator op) = encodeOperator op.
Proof.
  destruct op as [a v s k m ksl tl ar dr sl rr w].
  unfold encodeOperator, wrap_operator, reg_avekf, reg_ksl_l, reg_atdec, reg_susrel,
    reg_waveform.
  cbn [am vibrato sustaining ksr freqMult keyScaleLevel totalLevel
       attack decay sustain release waveform].
  destruct (band_masks m) as (Em & _).
  destruct (band_masks (m mod 16)) as (Em' & _).
  destruct (band_masks ksl) as (_ & Eksl & _).
  destruct (band_masks (ksl mod 4)) as (_ & Eksl' & _).
  destruct (band_masks tl) as (_ & _ & Etl & _).
  destruct (band_masks (tl mod 64)) as (_ & _ & Etl' & _).
  destruct (band_masks w) as (_ & _ & _ & Ew & _).
  destruct (band_masks (w mod 8)) as (_ & _ & _ & Ew' & _).
  pose proof (fun x => proj1 (band_masks x)) as E16.
  rewrite Em, Em', Eksl, Eksl', Etl, Etl', Ew, Ew', !E16.
  rewrite !Z.mod_mod by lia. reflexivity.
Qed.

Lemma wrap_operator_in_range (op : Operator) : operator_in_range (wrap_operator op).
Proof.
  unfold operator_in_range, wrap_operator.
  cbn [freqMult keyScaleLevel totalLevel attack decay sustain release waveform].
  repeat split; Z.div_mod_to_equations; lia.
Qed.

Lemma decode_encode_wraps (op : Operator) :
  decodeOperator (encodeOperator op) = wrap_operator op.
Proof.
  rewrite <- encodeOperator_wrap.
  apply decode_encode_operator, wrap_operator_in_range.
Qed.

Lemma encodeOperator_bytes (op : Operator) : Forall is_byte (encodeOperator op).
Proof.
  unfold encodeOperator, JS.to_uint8, is_byte.
  repeat constructor; Z.div_mod_to_equations; lia.
Qed.

(** X1.  Encoding an operator keeps only the low bits of each field:
    decoding the five bytes of any operator gives the operator with
    every multi-bit field reduced modulo its width (16, 4, 64, 16, 16,
    16, 16, 8), that operator is in range and encodes to the same bytes,
    and the result is always five bytes. *)
Theorem operator_fields_wrap (op : Operator) :
  decodeOperator (encodeOperator op) = wrap_operator op ∧
  operator_in_range (wrap_operator op) ∧
  encodeOperator (wrap_operator op) = encodeOperator op ∧
  length (encodeOperator op) = 5%nat ∧ Forall is_byte (encodeOperator op).
Proof.
  split; [apply decode_encode_wraps|].
  split; [apply wrap_operator_in_range|].
  split; [apply encodeOperator_wrap|].
  split; [reflexivity|apply encodeOperator_bytes].
Qed.

(* ===================================================================== *)
(** * The instrument codec outside its ranges *)
(* ===================================================================== *)

Lemma unsigned_signed (bits u : Z) :
  0 < bits -> 0 <= u < 2 ^ bits -> JS.signed bits u mod 2 ^ bits = u.
Proof.
  intros Hb Hu. unfold JS.signed.
  destruct (Z.ltb_spec u (2 ^ (bits - 1))).
  - apply Z.mod_small. lia.
  - replace (u - 2 ^ bits) with (u + (-1) * 2 ^ bits) by lia.
    rewrite Z.mod_add by lia. apply Z.mod_small. lia.
Qed.

Lemma signed_range (bits u : Z) :
  0 < bits -> 0 <= u < 2 ^ bits ->
  - 2 ^ (bits - 1) <= JS.signed bits u <= 2 ^ (bits - 1) - 1.
Proof.
  intros Hb Hu. unfold JS.signed.
  assert (2 ^ bits = 2 * 2 ^ (bits - 1)) as E.
  { replace bits with (1 + (bits - 1)) at 1 by lia. rewrite Z.pow_add_r by lia. reflexivity. }
  destruct (Z.ltb_spec u (2 ^ (bits - 1))); lia.
Qed.

Lemma encodeInstrument_wrap (inst : Instrument) :
  encodeInstrument (wrap_instrument inst) = encodeInstrument inst.
Proof.
  rewrite !encodeInstrument_layout.
  unfold wrap_instrument, operator_at, inst_flags, fb_conn.
  cbn [version noteOffset1 noteOffset2 velocityOffset secondVoiceDetune percussionKey
       is4op isPseudo4op isBlank rhythmMode feedback1 connection1 feedback2 connection2
       operators delayOnMs delayOffMs JS.or_zero JS.flag default from_option id
       lookup list_lookup mjoin option_join mbind option_bind].
  fold (operator_at inst 0) (operator_at inst 1) (operator_at inst 2) (operator_at inst 3).
  unfold slot. rewrite !encodeOperator_wrap.
  pose proof (fun x => proj1 (proj2 (proj2 (proj2 (band_masks x))))) as E8.
  pose proof (fun x => proj1 (proj2 (proj2 (proj2 (proj2 (band_masks x)))))) as E2.
  rewrite !E8, !E2, !Z.mod_mod by lia.
  unfold JS.to_uint32, JS.to_uint16, JS.to_uint8.
  change 65536 with (2 ^ 16). change 256 with (2 ^ 8).
  rewrite !(unsigned_signed 32), !(unsigned_signed 16), !(unsigned_signed 8)
    by first [lia | apply Z.mod_pos_bound; by apply Z.pow_pos_nonneg].
  rewrite !Z.mod_mod by lia.
  reflexivity.
Qed.

Lemma wrap_instrument_in_range (inst : Instrument) :
  instrument_in_range (wrap_instrument inst).
Proof.
  unfold instrument_in_range, wrap_instrument, present, four_operators.
  cbn [version noteOffset1 noteOffset2 velocityOffset secondVoiceDetune percussionKey
       is4op isPseudo4op isBlank rhythmMode feedback1 connection1 feedback2 connection2
       operators delayOnMs delayOffMs].
  unfold JS.to_uint32, JS.to_uint16, JS.to_uint8.
  pose proof (signed_range 32 (JS.or_zero (version inst) mod 2 ^ 32) ltac:(lia)
                (Z.mod_pos_bound _ (2 ^ 32) ltac:(reflexivity))) as H32.
  pose proof (fun v => signed_range 16 (v mod 65536) ltac:(lia)
                (Z.mod_pos_bound _ (2 ^ 16) ltac:(reflexivity))) as H16.
  pose proof (fun v => signed_range 8 (v mod 256) ltac:(lia)
                (Z.mod_pos_bound _ (2 ^ 8) ltac:(reflexivity))) as H8.
  change (2 ^ (32 - 1)) with (2 ^ 31) in H32.
  change (2 ^ (16 - 1)) with 32768 in H16. change (2 ^ (8 - 1)) with 128 in H8.
  repeat split; try (by eexists); try apply wrap_operator_in_range;
    first [apply H32 | apply H16 | apply H8 | (Z.div_mod_to_equations; lia)].
Qed.

Lemma le_bytes_bytes (n : nat) (u : Z) : Forall is_byte (JS.le_bytes n u).
Proof.
  revert u. induction n as [|n IH]; intros u; cbn [JS.le_bytes]; constructor; [|apply IH].
  unfold is_byte. Z.div_mod_to_equations; lia.
Qed.

Lemma encodeInstrument_bytes (inst : Instrument) : Forall is_byte (encodeInstrument inst).
Proof.
  rewrite encodeInstrument_layout.
  repeat (apply Forall_app; split);
    try apply le_bytes_bytes; try apply encodeOperator_bytes.
  - unfold JS.to_uint8, is_byte. repeat constructor; Z.div_mod_to_equations; lia.
  - unfold is_byte. repeat constructor; lia.
Qed.

(** X2.  Encoding an instrument never fails and silently wraps what is
    out of range: decoding the 40 bytes of any instrument gives the
    instrument with absent fields defaulted and every field wrapped to
    the width of its storage (two's complement for the signed ones),
    that instrument is in range and encodes to the same bytes, and the
    result is always 40 bytes. *)
Theorem instrument_fields_wrap (inst : Instrument) :
  decodeInstrument (encodeInstrument inst) = Some (wrap_instrument inst) ∧
  instrument_in_range (wrap_instrument inst) ∧
  encodeInstrument (wrap_instrument inst) = encodeInstrument inst ∧
  length (encodeInstrument inst) = 40%nat ∧ Forall is_byte (encodeInstrument inst).
Proof.
  split.
  { rewrite <- encodeInstrument_wrap.
    apply decode_encode_instrument, wrap_instrument_in_range. }
  split; [apply wrap_instrument_in_range|].
  split; [apply encodeInstrument_wrap|].
  split; [apply encodeInstrument_length|apply encodeInstrument_bytes].
Qed.

(* ===================================================================== *)
(** * Decoding arbitrary instrument bytes *)
(* ===================================================================== *)

Lemma le_bytes_read4 (b0 b1 b2 b3 : Z) :
  is_byte b0 -> is_byte b1 -> is_byte b2 -> is_byte b3 ->
  JS.le_bytes 4 (JS.to_uint32 (JS.signed 32
     (b0 + 256 * (b1 + 256 * (b2 + 256 * (b3 + 256 * 0)))))) = [b0; b1; b2; b3].
Proof.
  unfold is_byte. intros H0 H1 H2 H3.
  set (u := b0 + 256 * (b1 + 256 * (b2 + 256 * (b3 + 256 * 0)))).
  assert (0 <= u < 2 ^ 32) as Hu by (subst u; lia).
  unfold JS.to_uint32. rewrite unsigned_signed by lia.
  cbn [JS.le_bytes]. subst u.
  repeat f_equal; Z.div_mod_to_equations; lia.
Qed.

Lemma le_bytes_read2s (b0 b1 : Z) :
  is_byte b0 -> is_byte b1 ->
  JS.le_bytes 2 (JS.to_uint16 (JS.signed 16 (b0 + 256 * (b1 + 256 * 0)))) = [b0; b1].
Proof.
  unfold is_byte. intros H0 H1.
  set (u := b0 + 256 * (b1 + 256 * 0)).
  assert (0 <= u < 2 ^ 16) as Hu by (subst u; lia).
  unfold JS.to_uint16. change 65536 with (2 ^ 16). rewrite unsigned_signed by lia.
  cbn [JS.le_bytes]. subst u.
  repeat f_equal; Z.div_mod_to_equations; lia.
Qed.

Lemma le_bytes_read2u (b0 b1 : Z) :
  is_byte b0 -> is_byte b1 ->
  JS.le_bytes 2 (JS.to_uint16 (b0 + 256 * (b1 + 256 * 0))) = [b0; b1].
Proof.
  unfold is_byte. intros H0 H1.
  unfold JS.to_uint16. cbn [JS.le_bytes].
  repeat f_equal; Z.div_mod_to_equations; lia.
Qed.

Lemma byte_read1s (b : Z) :
  is_byte b -> JS.to_uint8 (JS.signed 8 (b + 256 * 0)) mod 256 = b.
Proof.
  unfold is_byte. intros Hb. unfold JS.to_uint8. change 256 with (2 ^ 8).
  rewrite Z.mod_mod by lia. rewrite unsigned_signed by lia. lia.
Qed.

Lemma flags_byte (b : Z) :
  is_byte b ->
  JS.to_uint8 (inst_flags
    (mkInstrument None None None None None None
       (Some (JS.truthy (JS.band b 0x01))) (Some (JS.truthy (JS.band b 0x02)))
       (Some (JS.truthy (JS.band b 0x04))) (Some (JS.band (JS.sar b 3) 0x07))
       None None None None None None None)) = Z.land b 0x3F.
Proof.
  intros Hb. apply Z.eqb_eq. brute b 256%nat. checked.
Qed.

Lemma fb_conn_byte (b : Z) :
  is_byte b ->
  JS.to_uint8 (fb_conn (Some (JS.band (JS.sar b 1) 0x07)) (Some (JS.band b 0x01)))
  = Z.land b 0x0F.
Proof.
  intros Hb. apply Z.eqb_eq. brute b 256%nat. checked.
Qed.

Ltac forty bytes Hlen :=
  do 40 (destruct bytes as [|? bytes]; [cbn [length] in Hlen; lia|]).

Lemma decode_total (bytes : list Z) :
  (40 <= length bytes)%nat -> is_Some (decodeInstrument bytes).
Proof.
  intros Hlen. unfold decodeInstrument.
  destruct (Nat.ltb_spec (length bytes) SIZEOF_ADL_INSTRUMENT) as [Hlt|_]; [|by eexists].
  unfold SIZEOF_ADL_INSTRUMENT in Hlt. lia.
Qed.

Lemma encode_decode_instrument (bytes : list Z) (inst : Instrument) :
  Forall is_byte bytes -> decodeInstrument bytes = Some inst ->
  encodeInstrument inst = clear_unused bytes.
Proof.
  intros Hb Hdec.
  assert (40 <= length bytes)%nat as Hlen.
  { unfold decodeInstrument in Hdec.
    destruct (Nat.ltb_spec (length bytes) SIZEOF_ADL_INSTRUMENT); [discriminate|].
    unfold SIZEOF_ADL_INSTRUMENT in *. lia. }
  forty bytes Hlen. clear Hlen.
  repeat match goal with
  | H : Forall _ (_ :: _) |- _ => apply Forall_cons in H as [? H]
  end.
  unfold decodeInstrument in Hdec.
  cbn [length Nat.ltb Nat.leb SIZEOF_ADL_INSTRUMENT] in Hdec.
  injection Hdec as <-.
  rewrite encodeInstrument_layout.
  cbv [version noteOffset1 noteOffset2 velocityOffset secondVoiceDetune percussionKey
       feedback1 connection1 feedback2 connection2 operators delayOnMs delayOffMs
       operator_at mjoin option_join mbind option_bind lookup list_lookup
       default from_option id JS.or_zero
       SIZEOF_ADL_OPERATOR OPERATOR_OFFSET
       JS.getInt32 JS.getInt16 JS.getUint16 JS.getInt8 JS.le_read JS.byte_at JS.slice
       take drop Nat.add Nat.mul Nat.sub].
  rewrite le_bytes_read4, !le_bytes_read2s, !le_bytes_read2u, !byte_read1s by assumption.
  rewrite !encode_decode_operator by assumption.
  rewrite !fb_conn_byte by assumption.
  match goal with
  | |- context [JS.to_uint8 (inst_flags ?i)] =>
      replace (JS.to_uint8 (inst_flags i)) with (Z.land z10 0x3F)
  end.
  2:{ symmetry. etransitivity; [|by apply flags_byte]. reflexivity. }
  unfold JS.to_uint8.
  rewrite (Z.mod_small z9) by (unfold is_byte in *; lia).
  reflexivity.
Qed.

Lemma read4_present (b0 b1 b2 b3 : Z) :
  is_byte b0 -> is_byte b1 -> is_byte b2 -> is_byte b3 ->
  present (- 2 ^ 31) (2 ^ 31 - 1)
    (Some (JS.signed 32 (b0 + 256 * (b1 + 256 * (b2 + 256 * (b3 + 256 * 0)))))).
Proof.
  unfold is_byte. intros. apply (signed_range 32); lia.
Qed.

Lemma read2_present (b0 b1 : Z) :
  is_byte b0 -> is_byte b1 ->
  present (- 32768) 32767 (Some (JS.signed 16 (b0 + 256 * (b1 + 256 * 0)))).
Proof.
  unfold is_byte. intros. apply (signed_range 16); lia.
Qed.

Lemma read2u_present (b0 b1 : Z) :
  is_byte b0 -> is_byte b1 -> present 0 65535 (Some (b0 + 256 * (b1 + 256 * 0))).
Proof. unfold is_byte, present. lia. Qed.

Lemma read1_present (b : Z) :
  is_byte b -> present (- 128) 127 (Some (JS.signed 8 (b + 256 * 0))).
Proof.
  unfold is_byte. intros. apply (signed_range 8); lia.
Qed.

Lemma band_present (x n hi : Z) :
  0 <= n <= 30 -> hi = Z.ones n -> present 0 hi (Some (JS.band x hi)).
Proof. intros Hn ->. by apply band_ones_range. Qed.

Lemma decode_in_range (bytes : list Z) (inst : Instrument) :
  Forall is_byte bytes -> decodeInstrument bytes = Some inst -> instrument_in_range inst.
Proof.
  intros Hb Hdec.
  assert (40 <= length bytes)%nat as Hlen.
  { unfold decodeInstrument in Hdec.
    destruct (Nat.ltb_spec (length bytes) SIZEOF_ADL_INSTRUMENT); [discriminate|].
    unfold SIZEOF_ADL_INSTRUMENT in *. lia. }
  forty bytes Hlen. clear Hlen.
  repeat match goal with
  | H : Forall _ (_ :: _) |- _ => apply Forall_cons in H as [? H]
  end.
  unfold decodeInstrument in Hdec.
  cbn [length Nat.ltb Nat.leb SIZEOF_ADL_INSTRUMENT] in Hdec.
  injection Hdec as <-.
  unfold instrument_in_range, four_operators.
  cbn [version noteOffset1 noteOffset2 velocityOffset secondVoiceDetune percussionKey
       is4op isPseudo4op isBlank rhythmMode feedback1 connection1 feedback2 connection2
       operators delayOnMs delayOffMs].
  cbv [JS.getInt32 JS.getInt16 JS.getUint16 JS.getInt8 JS.le_read JS.byte_at
       lookup list_lookup default from_option id].
  split; [by apply read4_present|].
  split; [by apply read2_present|].
  split; [by apply read2_present|].
  split; [by apply read1_present|].
  split; [by apply read1_present|].
  split; [assumption|].
  split; [by eexists|]. split; [by eexists|]. split; [by eexists|].
  split; [by apply (band_present _ 3)|].
  split; [by apply (band_present _ 3)|].
  split; [by apply (band_present _ 1)|].
  split; [by apply (band_present _ 3)|].
  split; [by apply (band_present _ 1)|].
  split; [split; [|split; [|split]]; apply decode_operator_in_range|].
  split; by apply read2u_present.
Qed.

(** X3.  Any buffer of at least 40 bytes decodes to an instrument that
    is in range; encoding it gives back the first 40 bytes with the
    unused bits of the flag, feedback and waveform bytes and the two
    padding bytes cleared, and those bytes decode to the same
    instrument. *)
Theorem instrument_bytes_roundtrip (bytes : list Z) :
  Forall is_byte bytes -> (40 <= length bytes)%nat ->
  ∃ inst, decodeInstrument bytes = Some inst ∧ instrument_in_range inst ∧
          encodeInstrument inst = clear_unused bytes ∧
          decodeInstrument (clear_unused bytes) = Some inst.
Proof.
  intros Hb Hlen. destruct (decode_total bytes Hlen) as [inst Hdec].
  exists inst. split; [exact Hdec|].
  pose proof (decode_in_range bytes inst Hb Hdec) as Hr.
  split; [exact Hr|].
  pose proof (encode_decode_instrument bytes inst Hb Hdec) as He.
  split; [exact He|].
  rewrite <- He. by apply decode_encode_instrument.
Qed.

Lemma instrument_bytes_witness :
  (Forall is_byte (replicate 42 255) ∧ (40 <= length (replicate 42 255))%nat) ∧
  ∃ inst, decodeInstrument (replicate 42 255) = Some inst ∧
          encodeInstrument inst = clear_unused (replicate 42 255).
Proof.
  assert (Forall is_byte (replicate 42 255)) as Hb
    by (apply Forall_replicate; unfold is_byte; lia).
  assert (40 <= length (replicate 42 255))%nat as Hlen by (rewrite length_replicate; lia).
  split; [exact (conj Hb Hlen)|].
  destruct (instrument_bytes_roundtrip _ Hb Hlen) as (inst & Hdec & _ & Henc & _).
  exists inst. exact (conj Hdec Henc).
Defined.

(* ===================================================================== *)
(** * AdlMidiCore: the player guard *)
(* ===================================================================== *)

Ltac core_methods :=
  cbv [AdlMidiCore.call AdlMidiCore.returning AdlMidiCore.on_player
       AdlMidiCore.reset AdlMidiCore.resetFull AdlMidiCore.panic AdlMidiCore.setBank
       AdlMidiCore.open_data AdlMidiCore.loadBankData AdlMidiCore.loadMidi
       AdlMidiCore.getBankCount AdlMidiCore.getEmbeddedBanks
       AdlMidiCore.setNumChips AdlMidiCore.setNumFourOpChannels
       AdlMidiCore.getNumFourOpChannels AdlMidiCore.setScaleModulators
       AdlMidiCore.setFullRangeBrightness AdlMidiCore.setAutoArpeggio
       AdlMidiCore.getAutoArpeggio AdlMidiCore.setChannelAllocMode
       AdlMidiCore.getChannelAllocMode AdlMidiCore.setSoftPan AdlMidiCore.setDeepVibrato
       AdlMidiCore.setDeepTremolo AdlMidiCore.switchEmulator AdlMidiCore.getEmulatorName
       AdlMidiCore.getLibraryVersion AdlMidiCore.getVersion AdlMidiCore.getNumChips
       AdlMidiCore.getNumChipsObtained AdlMidiCore.getVolumeModel
       AdlMidiCore.setVolumeModel AdlMidiCore.setRunAtPcmRate
       AdlMidiCore.noteOn AdlMidiCore.noteOff AdlMidiCore.noteAfterTouch
       AdlMidiCore.channelAfterTouch AdlMidiCore.controllerChange
       AdlMidiCore.programChange AdlMidiCore.bankChange AdlMidiCore.bankChangeMSB
       AdlMidiCore.bankChangeLSB AdlMidiCore.string_or_empty
       AdlMidiCore.getMusicTitle AdlMidiCore.getMusicCopyright
       AdlMidiCore.position AdlMidiCore.duration AdlMidiCore.seek AdlMidiCore.rewind
       AdlMidiCore.atEnd AdlMidiCore.setLooping AdlMidiCore.setTempo
       AdlMidiCore.generate AdlMidiCore.play AdlMidiCore.render
       AdlMidiCore.getInstrument AdlMidiCore.setInstrument AdlMidiCore.flag_arg].

Section CoreGuard.
Context {M : Type} `{Wasm M}.
Implicit Types c : AdlMidiCore.t M.

Lemma ensurePlayer_throws {A} (body : Eff (AdlMidiCore.t M) A) c :
  falsy_ptr (AdlMidiCore._player c) = true ->
  (AdlMidiCore._ensurePlayer ;; body) c = (Throw NOT_INITIALIZED, c).
Proof.
  intros Hp. core_unfold. destruct c as [a pl sr ab abp cl].
  cbv [AdlMidiCore._player] in Hp. by rewrite Hp.
Qed.

Lemma call_without_player c meth :
  falsy_ptr (AdlMidiCore._player c) = true -> AdlMidiCore.asks_for_player meth = true ->
  AdlMidiCore.call meth c = (Throw NOT_INITIALIZED, c).
Proof.
  intros Hp Hasks.
  destruct meth; try discriminate Hasks; clear Hasks.
  all: core_methods; core_unfold.
  all: destruct c as [a pl sr ab abp cl]; cbv [AdlMidiCore._player] in Hp.
  all: by rewrite Hp.
Qed.
End CoreGuard.

(** X4.  While the core holds no player (before [init], after a failed
    [init], after [close]), every method of [Method] that begins with
    [_ensurePlayer] throws 'Synthesizer not initialized - call init()
    first' and leaves the object as it was, making no call into the
    module. *)
Theorem core_methods_need_a_player {M : Type} `{Wasm M} (c : AdlMidiCore.t M)
  (meth : AdlMidiCore.Method) :
  falsy_ptr (AdlMidiCore._player c) = true ->
  AdlMidiCore.asks_for_player meth = true ->
  AdlMidiCore.call meth c =
    (Throw "Synthesizer not initialized - call init() first", c).
Proof. apply call_without_player. Qed.

Lemma core_methods_need_a_player_witness :
  (falsy_ptr (AdlMidiCore._player (AdlMidiCore.create (Toy.fresh Toy.ok))) = true ∧
   AdlMidiCore.asks_for_player (AdlMidiCore.m_generate 128) = true) ∧
  AdlMidiCore.call (AdlMidiCore.m_generate 128) (AdlMidiCore.create (Toy.fresh Toy.ok)) =
    (Throw "Synthesizer not initialized - call init() first",
     AdlMidiCore.create (Toy.fresh Toy.ok)).
Proof.
  assert (falsy_ptr (AdlMidiCore._player (AdlMidiCore.create (Toy.fresh Toy.ok))) = true)
    as Hp by reflexivity.
  assert (AdlMidiCore.asks_for_player (AdlMidiCore.m_generate 128) = true)
    as Ha by reflexivity.
  split; [exact (conj Hp Ha)|].
  exact (core_methods_need_a_player _ _ Hp Ha).
Defined.

(* ===================================================================== *)
(** * AdlMidiCore: rendering without the 16-bit view *)
(* ===================================================================== *)

Section RenderEdges.
Context {M : Type} `{Wasm M}.
Import AdlMidiCore.
Implicit Types c : AdlMidiCore.t M.

Ltac view_absent n :=
  match goal with
  | |- context [HEAP16_defined ?m] =>
      let Ev := fresh "Eview" in
      destruct (HEAP16_defined m) eqn:Ev;
      [ core_unfold; intros Hno; exfalso; apply Hno; eexists; split; [reflexivity|exact Ev]
      | destruct n eqn:?; [lia|]; core_unfold; intros _ ]
  end.

Lemma render_without_view (f : Fn) c (N : nat) :
  core_initialized c -> (1 <= N)%nat ->
  ¬ exposes_HEAP16 (exec (render f N) c) ->
  result (render f N) c = Throw TypeError_undefined ∧
  ∃ ptr r,
    _audioBufferPtr (exec (render f N) c) = Some ptr ∧
    last (new_calls (calls c) (calls (exec (render f N) c)))
    = Some (mkCall f [ptr_arg (_player c); AInt (Z.of_nat (N * 2)); AInt ptr] r).
Proof.
  intros Hc HN. revert Hc. core_start c m Hp.
  unfold exposes_HEAP16, render, ensure_buffer, HEAP16_view.
  core_unfold. rewrite Hp.
  destruct (must_allocate _ _) eqn:Ealloc.
  - destruct (falsy_ptr abp) eqn:Eabp; cbn [negb].
    + do 2 core_step. core_unfold. view_absent (N * 2)%nat.
      split; [reflexivity|]. eexists _, _. split; [reflexivity|].
      trace_normalize. reflexivity.
    + do 3 core_step. core_unfold. view_absent (N * 2)%nat.
      split; [reflexivity|]. eexists _, _. split; [reflexivity|].
      trace_normalize. reflexivity.
  - unfold must_allocate in Ealloc. cbv [_audioBufferPtr _audioBuffer] in Ealloc.
    apply orb_false_iff in Ealloc as [Eabp Elen].
    destruct ab as [buf|]; [|discriminate].
    destruct abp as [ptr|]; [|discriminate].
    do 1 core_step. core_unfold. view_absent (N * 2)%nat.
    split; [reflexivity|]. eexists _, _. split; [reflexivity|].
    trace_normalize. reflexivity.
Qed.

Lemma render_no_frames (f : Fn) c :
  core_initialized c -> result (render f 0) c = Ret [].
Proof.
  core_start c m Hp.
  unfold render, ensure_buffer, HEAP16_view.
  core_unfold. rewrite Hp.
  destruct (must_allocate _ _) eqn:Ealloc.
  - destruct (falsy_ptr abp) eqn:Eabp; cbn [negb].
    + do 2 core_step. core_unfold. by destruct (HEAP16_defined _).
    + do 3 core_step. core_unfold. by destruct (HEAP16_defined _).
  - do 1 core_step. core_unfold. by destruct (HEAP16_defined _).
Qed.

(** X5.  On a module that does not expose [HEAP16], [generate] and
    [play] with at least one frame throw the [TypeError] of reading a
    property of [undefined], and they do so after the engine call: the
    buffer is allocated and the last call made is the engine's, with
    the player, the sample count and the buffer pointer.  With no
    frames the view is never indexed and the result is empty. *)
Theorem render_needs_the_view (f : Fn) c (N : nat) :
  core_initialized c -> ¬ exposes_HEAP16 (exec (render f N) c) ->
  match N with
  | O => result (render f N) c = Ret []
  | S _ =>
      result (render f N) c = Throw TypeError_undefined ∧
      ∃ ptr r,
        _audioBufferPtr (exec (render f N) c) = Some ptr ∧
        last (new_calls (calls c) (calls (exec (render f N) c)))
        = Some (mkCall f [ptr_arg (_player c); AInt (Z.of_nat (N * 2)); AInt ptr] r)
  end.
Proof.
  intros Hc Hno. destruct N as [|N].
  - by apply render_no_frames.
  - apply render_without_view; [exact Hc | lia | exact Hno].
Qed.
End RenderEdges.

Lemma render_needs_the_view_witness :
  core_initialized headless_core ∧
  ¬ exposes_HEAP16 (H := headless)
      (exec (AdlMidiCore.render (H := headless) adl_generate 2) headless_core) ∧
  result (AdlMidiCore.render (H := headless) adl_generate 2) headless_core
  = Throw TypeError_undefined.
Proof.
  assert (core_initialized headless_core) as Hc by (split; [by eexists | reflexivity]).
  assert (¬ exposes_HEAP16 (H := headless)
            (exec (AdlMidiCore.render (H := headless) adl_generate 2) headless_core)) as Hno.
  { intros (m & _ & Hm). discriminate Hm. }
  split; [exact Hc|]. split; [exact Hno|].
  exact (proj1 (render_needs_the_view (H := headless) adl_generate headless_core 2 Hc Hno)).
Defined.

(* ===================================================================== *)
(** * AdlMidiCore: init and close *)
(* ===================================================================== *)

Section CoreLifecycle.
Context {M : Type} `{Wasm M}.
Import AdlMidiCore.
Implicit Types c : AdlMidiCore.t M.

Lemma init_without_module c sampleRate :
  _module c = None ->
  init sampleRate c =
    (Throw "AdlMidiCore not initialized - use AdlMidiCore.create()", c).
Proof.
  intros Hm. unfold init. core_unfold.
  destruct c as [a pl sr ab abp cl]. cbv [_module] in Hm. by subst a.
Qed.

Lemma init_with_module c sampleRate m :
  _module c = Some m ->
  let c' := exec (init sampleRate) c in
  let h := (ccall adl_init [AInt sampleRate] m).1 in
  new_calls (calls c) (calls c') = [mkCall adl_init [AInt sampleRate] (AInt h)] ∧
  _sampleRate c' = sampleRate ∧ _player c' = Some h ∧
  _module c' = Some (ccall adl_init [AInt sampleRate] m).2 ∧
  _audioBuffer c' = _audioBuffer c ∧ _audioBufferPtr c' = _audioBufferPtr c ∧
  result (init sampleRate) c =
    (if h =? 0 then Throw "Failed to initialize ADL MIDI player" else Ret true).
Proof.
  intros Hm. unfold init. core_unfold.
  destruct c as [a pl sr ab abp cl]. cbv [_module] in Hm. subst a.
  core_step. core_unfold. cbn [fst snd].
  destruct (r =? 0); core_unfold; trace_normalize; repeat split; reflexivity.
Qed.

Lemma close_with_module c :
  is_Some (_module c) ->
  let c' := exec close c in
  result close c = Ret tt ∧
  request_of <$> new_calls (calls c) (calls c') =
    (if falsy_ptr (_audioBufferPtr c) then [] else [(free, [ptr_arg (_audioBufferPtr c)])])
    ++ (if falsy_ptr (_player c) then [] else [(adl_close, [ptr_arg (_player c)])]) ∧
  falsy_ptr (_player c') = true ∧ falsy_ptr (_audioBufferPtr c') = true ∧
  (falsy_ptr (_audioBufferPtr c) = false -> _audioBuffer c' = None) ∧
  is_Some (_module c') ∧ _sampleRate c' = _sampleRate c.
Proof.
  intros [m Hm]. unfold close. core_unfold.
  destruct c as [a pl sr ab abp cl]. cbv [_module] in Hm. subst a.
  destruct (falsy_ptr abp) eqn:Eabp; cbn [negb]; [|core_step; core_unfold].
  all: destruct (falsy_ptr pl) eqn:Epl; cbn [negb]; [|core_step; core_unfold].
  all: trace_normalize; rewrite ?Eabp, ?Epl.
  all: repeat split; try reflexivity; try discriminate; by eexists.
Qed.

Lemma close_when_released c :
  falsy_ptr (_player c) = true -> falsy_ptr (_audioBufferPtr c) = true ->
  close c = (Ret tt, c).
Proof.
  intros Hp Hb. unfold close. core_unfold.
  destruct c as [a pl sr ab abp cl]. cbv [_player _audioBufferPtr] in *.
  rewrite Hb. core_unfold. by rewrite Hp.
Qed.
End CoreLifecycle.

(** X6.  [init]: without a module it throws and changes nothing; with
    one it calls [adl_init] once with the sample rate and stores the
    rate and the handle; a non-zero handle makes it return [true] and
    leaves the core initialised, the zero handle makes it throw 'Failed
    to initialize ADL MIDI player' and every player method throws
    afterwards. *)
Theorem core_init_outcome {M : Type} `{Wasm M} (c : AdlMidiCore.t M) (sampleRate : Z) :
  (AdlMidiCore._module c = None ->
     AdlMidiCore.init sampleRate c =
       (Throw "AdlMidiCore not initialized - use AdlMidiCore.create()", c)) ∧
  (∀ m, AdlMidiCore._module c = Some m ->
     let c' := exec (AdlMidiCore.init sampleRate) c in
     let h := (ccall adl_init [AInt sampleRate] m).1 in
     new_calls (AdlMidiCore.calls c) (AdlMidiCore.calls c')
       = [mkCall adl_init [AInt sampleRate] (AInt h)] ∧
     AdlMidiCore._sampleRate c' = sampleRate ∧
     AdlMidiCore._player c' = Some h ∧
     AdlMidiCore._audioBufferPtr c' = AdlMidiCore._audioBufferPtr c ∧
     (h ≠ 0 ->
        result (AdlMidiCore.init sampleRate) c = Ret true ∧ core_initialized c') ∧
     (h = 0 ->
        result (AdlMidiCore.init sampleRate) c
          = Throw "Failed to initialize ADL MIDI player" ∧
        ∀ meth, AdlMidiCore.asks_for_player meth = true ->
          AdlMidiCore.call meth c' =
            (Throw "Synthesizer not initialized - call init() first", c'))).
Proof.
  split; [apply init_without_module|].
  intros m Hm.
  destruct (init_with_module c sampleRate m Hm)
    as (Htr & Hsr & Hpl & Hmod & _ & Hptr & Hres).
  cbn zeta in *.
  split; [exact Htr|]. split; [exact Hsr|]. split; [exact Hpl|]. split; [exact Hptr|].
  split.
  - intros Hh. apply Z.eqb_neq in Hh. rewrite Hh in Hres. split; [exact Hres|].
    split; [rewrite Hmod; by eexists|]. rewrite Hpl. exact Hh.
  - intros Hh. rewrite Hh in Hres. split; [exact Hres|].
    intros meth Hasks. apply call_without_player; [|exact Hasks].
    rewrite Hpl, Hh. reflexivity.
Qed.

Lemma core_init_witness :
  (AdlMidiCore._module (AdlMidiCore.constructor (M := Toy.t)) = None ∧
   AdlMidiCore._module (AdlMidiCore.create (Toy.fresh Toy.ok)) = Some (Toy.fresh Toy.ok) ∧
   (ccall adl_init [AInt 48000] (Toy.fresh Toy.ok)).1 ≠ 0) ∧
  result (AdlMidiCore.init 48000) (AdlMidiCore.constructor (M := Toy.t))
    = Throw "AdlMidiCore not initialized - use AdlMidiCore.create()" ∧
  result (AdlMidiCore.init 48000) (AdlMidiCore.create (Toy.fresh Toy.ok)) = Ret true.
Proof.
  assert (AdlMidiCore._module (AdlMidiCore.constructor (M := Toy.t)) = None)
    as Hnone by reflexivity.
  assert (AdlMidiCore._module (AdlMidiCore.create (Toy.fresh Toy.ok))
          = Some (Toy.fresh Toy.ok)) as Hsome by reflexivity.
  assert ((ccall adl_init [AInt 48000] (Toy.fresh Toy.ok)).1 ≠ 0)
    as Hh by (vm_compute; discriminate).
  split; [exact (conj Hnone (conj Hsome Hh))|]. split.
  - unfold result.
    rewrite (proj1 (core_init_outcome (AdlMidiCore.constructor (M := Toy.t)) 48000) Hnone).
    reflexivity.
  - destruct (proj2 (core_init_outcome (AdlMidiCore.create (Toy.fresh Toy.ok)) 48000)
                _ Hsome) as (_ & _ & _ & _ & Hok & _).
    exact (proj1 (Hok Hh)).
Defined.

(** X7.  [close] on a core that holds its module returns normally; the
    calls it makes are [free] of the scratch buffer if there is one,
    then [adl_close] of the player if there is one; afterwards the
    buffer is dropped, a second [close] does nothing, and every player
    method throws. *)
Theorem core_close_releases {M : Type} `{Wasm M} (c : AdlMidiCore.t M) :
  is_Some (AdlMidiCore._module c) ->
  let c' := exec AdlMidiCore.close c in
  result AdlMidiCore.close c = Ret tt ∧
  request_of <$> new_calls (AdlMidiCore.calls c) (AdlMidiCore.calls c') =
    (if falsy_ptr (AdlMidiCore._audioBufferPtr c) then []
     else [(free, [ptr_arg (AdlMidiCore._audioBufferPtr c)])])
    ++ (if falsy_ptr (AdlMidiCore._player c) then []
        else [(adl_close, [ptr_arg (AdlMidiCore._player c)])]) ∧
  (falsy_ptr (AdlMidiCore._audioBufferPtr c) = false -> AdlMidiCore._audioBuffer c' = None) ∧
  AdlMidiCore.close c' = (Ret tt, c') ∧
  (∀ meth, AdlMidiCore.asks_for_player meth = true ->
     AdlMidiCore.call meth c' =
       (Throw "Synthesizer not initialized - call init() first", c')).
Proof.
  intros Hm.
  destruct (close_with_module c Hm) as (Hres & Htr & Hpl & Hptr & Hbuf & _).
  cbn zeta in *.
  split; [exact Hres|]. split; [exact Htr|]. split; [exact Hbuf|].
  split; [by apply close_when_released|].
  intros meth Hasks. by apply call_without_player.
Qed.

Lemma core_close_witness :
  is_Some (AdlMidiCore._module (exec (AdlMidiCore.generate 4) (toy_core Toy.ok))) ∧
  request_of <$>
    new_calls (AdlMidiCore.calls (exec (AdlMidiCore.generate 4) (toy_core Toy.ok)))
      (AdlMidiCore.calls
         (exec AdlMidiCore.close (exec (AdlMidiCore.generate 4) (toy_core Toy.ok))))
  = [(free, [AInt 1024]); (adl_close, [AInt 1])].
Proof.
  assert (is_Some (AdlMidiCore._module (exec (AdlMidiCore.generate 4) (toy_core Toy.ok))))
    as Hm by (by eexists).
  split; [exact Hm|].
  rewrite (proj1 (proj2 (core_close_releases _ Hm))). reflexivity.
Defined.

(* ===================================================================== *)
(** * AdlMidiCore: what a method call keeps *)
(* ===================================================================== *)

Section Preserves.
Context {S : Type} (P : S -> Prop).

Lemma preserves_ret {A} (a : A) : preserves P (ret a).
Proof. by intros s. Qed.
Lemma preserves_throw {A} (e : string) : preserves P (throw (A := A) e).
Proof. by intros s. Qed.
Lemma preserves_gets {A} (f : S -> A) : preserves P (gets f).
Proof. by intros s. Qed.
Lemma preserves_get : preserves P get.
Proof. by intros s. Qed.

Lemma preserves_bind {A B} (m : Eff S A) (k : A -> Eff S B) :
  preserves P m -> (∀ a, preserves P (k a)) -> preserves P (bind m k).
Proof.
  intros Hm Hk s Hs. unfold bind. specialize (Hm s Hs).
  destruct (m s) as [[a|e] s']; cbn [snd] in *; [|done].
  by apply Hk.
Qed.

Lemma preserves_try_catch {A} (m : Eff S A) (h : string -> Eff S A) :
  preserves P m -> (∀ e, preserves P (h e)) -> preserves P (try_catch m h).
Proof.
  intros Hm Hh s Hs. unfold try_catch. specialize (Hm s Hs).
  destruct (m s) as [[a|e] s']; cbn [snd] in *; [done|].
  by apply Hh.
Qed.

Lemma preserves_when (b : bool) (m : Eff S unit) :
  preserves P m -> preserves P (when b m).
Proof. destruct b; [done|]. intros _. apply preserves_ret. Qed.

Lemma preserves_modify (f : S -> S) :
  (∀ s, P s -> P (f s)) -> preserves P (modify f).
Proof. intros Hf s. apply Hf. Qed.
End Preserves.

Section PreservesModule.
Context {S M : Type} `{Wasm M} `{Session S M} (P : S -> Prop).
Hypothesis stable_set_module : ∀ m s, P s -> P (set_module m s).
Hypothesis stable_log : ∀ c s, P s -> P (log c s).

Lemma preserves_invoke f args : preserves P (invoke f args).
Proof.
  intros s Hs. unfold invoke. destruct (module_of s); [|done].
  destruct (ccall f args m). cbn [snd]. auto.
Qed.
Lemma preserves_invoke_num f args : preserves P (invoke_num f args).
Proof.
  intros s Hs. unfold invoke_num. destruct (module_of s); [|done].
  destruct (ccall_num f args m). cbn [snd]. auto.
Qed.
Lemma preserves_peek {A} (f : M -> A) : preserves P (peek f).
Proof. intros s Hs. unfold peek. by destruct (module_of s). Qed.
Lemma preserves_poke8 a v : preserves P (poke8 a v).
Proof. intros s Hs. unfold poke8. destruct (module_of s); [|done]. cbn [snd]. auto. Qed.
Lemma preserves_poke_bytes l a : preserves P (poke_bytes l a).
Proof.
  intros s Hs. unfold poke_bytes. destruct (module_of s); [|done]. cbn [snd]. auto.
Qed.
End PreservesModule.

Ltac preserves_step :=
  first
    [ apply preserves_ret | apply preserves_throw | apply preserves_gets
    | apply preserves_get
    | apply preserves_invoke; [assumption..]
    | apply preserves_invoke_num; [assumption..]
    | apply preserves_peek
    | apply preserves_poke8; [assumption..]
    | apply preserves_poke_bytes; [assumption..]
    | apply preserves_when
    | apply preserves_bind; [|intros ?]
    | apply preserves_try_catch; [|intros ?]
    | match goal with
      | |- preserves _ (if ?b then _ else _) => destruct b
      | |- preserves _ (match ?x with _ => _ end) => destruct x
      | |- preserves _ (let '(_, _) := ?x in _) => destruct x
      end ].

Section CoreInvariant.
Context {M : Type} `{Wasm M}.
Import AdlMidiCore.
Implicit Types c : AdlMidiCore.t M.

Lemma holds_set_module p sr (m : M) c :
  holds_player p sr c -> holds_player p sr (set_module m c).
Proof. intros (_ & Hp & Hs). split; [by eexists|]. by destruct c. Qed.

Lemma holds_log p sr (k : Call) c :
  holds_player p sr c -> holds_player p sr (log k c).
Proof. intros (Hm & Hp & Hs). by destruct c. Qed.

Lemma call_holds_player p sr meth :
  meth ≠ m_close -> (∀ r, meth ≠ m_init r) ->
  preserves (holds_player (M := M) p sr) (call meth).
Proof.
  intros Hclose Hinit.
  pose proof (holds_set_module p sr) as Hset.
  pose proof (holds_log p sr) as Hlog.
  destruct meth; try done; try (by specialize (Hinit sampleRate)).
  all: core_methods.
  all: unfold _ensurePlayer, ensure_buffer, resolve_bank.
  all: repeat first
         [ preserves_step
         | apply preserves_modify; intros [? ? ? ? ? ?] (Hm' & Hp' & Hs'); by split ].
Qed.

End CoreInvariant.

(** X8.  An initialised core stays initialised through every method of
    [Method] other than [init] and [close], whether the method returns
    or throws: the module is still held, and the player handle and the
    sample rate are unchanged. *)
Theorem core_session_stays_initialized {M : Type} `{Wasm M} (c : AdlMidiCore.t M)
  (meth : AdlMidiCore.Method) :
  core_initialized c ->
  meth ≠ AdlMidiCore.m_close -> (∀ r, meth ≠ AdlMidiCore.m_init r) ->
  let c' := exec (AdlMidiCore.call meth) c in
  core_initialized c' ∧
  AdlMidiCore._player c' = AdlMidiCore._player c ∧
  AdlMidiCore._sampleRate c' = AdlMidiCore._sampleRate c.
Proof.
  intros (Hm & Hp) Hclose Hinit. cbn zeta.
  destruct (call_holds_player (AdlMidiCore._player c) (AdlMidiCore._sampleRate c)
              meth Hclose Hinit c) as (Hm' & Hp' & Hs'); [by split|].
  unfold exec. split; [|by split]. split; [exact Hm'|]. by rewrite Hp'.
Qed.

Lemma core_session_witness :
  (core_initialized (toy_core Toy.ok) ∧
   AdlMidiCore.m_getInstrument bank0 3 ≠ AdlMidiCore.m_close ∧
   ∀ r, AdlMidiCore.m_getInstrument bank0 3 ≠ AdlMidiCore.m_init r) ∧
  core_initialized (exec (AdlMidiCore.call (AdlMidiCore.m_getInstrument bank0 3))
                      (toy_core Toy.ok)).
Proof.
  assert (core_initialized (toy_core Toy.ok)) as Hc by (split; [by eexists|reflexivity]).
  assert (AdlMidiCore.m_getInstrument bank0 3 ≠ AdlMidiCore.m_close) as H1 by discriminate.
  assert (∀ r, AdlMidiCore.m_getInstrument bank0 3 ≠ AdlMidiCore.m_init r)
    as H2 by discriminate.
  split; [exact (conj Hc (conj H1 H2))|].
  exact (proj1 (core_session_stays_initialized _ _ Hc H1 H2)).
Defined.

(* ===================================================================== *)
(** * AdlMidiCore: reuse of the scratch buffer *)
(* ===================================================================== *)

Section RenderReuse.
Context {M : Type} `{Wasm M}.
Import AdlMidiCore.
Implicit Types c : AdlMidiCore.t M.



End RenderReuse.



(* ===================================================================== *)
(** * The list of embedded banks *)
(* ===================================================================== *)

Section EmbeddedBanks.
Context {M : Type} `{Wasm M}.

Lemma core_bank_names (m : M) (namesPtr : Z) (i n : nat) :
  AdlMidiCore.bank_names m namesPtr (Z.of_nat i) n
  = bank_entry m namesPtr <$> seq i n.
Proof.
  revert i. induction n as [|n IH]; intros i; [reflexivity|].
  cbn [AdlMidiCore.bank_names seq fmap list_fmap].
  replace (Z.of_nat i + 1) with (Z.of_nat (S i)) by lia.
  rewrite IH. reflexivity.
Qed.

Lemma processor_bank_names (m : M) (namesPtr : Z) (i n : nat) :
  AdlMidiProcessor.bank_names m namesPtr (Z.of_nat i) n
  = bank_entry m namesPtr <$> seq i n.
Proof.
  revert i. induction n as [|n IH]; intros i; [reflexivity|].
  cbn [AdlMidiProcessor.bank_names seq fmap list_fmap].
  replace (Z.of_nat i + 1) with (Z.of_nat (S i)) by lia.
  rewrite IH. reflexivity.
Qed.

Lemma core_getEmbeddedBanks_spec (c : AdlMidiCore.t M) :
  is_Some (AdlMidiCore._module c) ->
  ∃ count namesPtr m',
    new_calls (AdlMidiCore.calls c) (AdlMidiCore.calls (exec AdlMidiCore.getEmbeddedBanks c))
      = [mkCall adl_getBanksCount [] (AInt count);
         mkCall adl_getBankNames [] (AInt namesPtr)] ∧
    AdlMidiCore._module (exec AdlMidiCore.getEmbeddedBanks c) = Some m' ∧
    result AdlMidiCore.getEmbeddedBanks c
      = Ret (bank_entry m' namesPtr <$> seq 0 (Z.to_nat count)).
Proof.
  intros [m Hm]. destruct c as [a pl sr ab abp cl]. cbv [AdlMidiCore._module] in Hm. subst a.
  unfold AdlMidiCore.getEmbeddedBanks.
  do 2 core_step. core_unfold. trace_normalize.
  eexists _, _, _. split; [reflexivity|]. split; [reflexivity|].
  change 0 with (Z.of_nat 0). by rewrite core_bank_names.
Qed.

Lemma processor_getEmbeddedBankList_spec (p : AdlMidiProcessor.t M) :
  is_Some (AdlMidiProcessor.adl p) ->
  ∃ count namesPtr m',
    new_calls (AdlMidiProcessor.calls p)
      (AdlMidiProcessor.calls (exec AdlMidiProcessor.getEmbeddedBankList p))
      = [mkCall adl_getBanksCount [] (AInt count);
         mkCall adl_getBankNames [] (AInt namesPtr)] ∧
    AdlMidiProcessor.adl (exec AdlMidiProcessor.getEmbeddedBankList p) = Some m' ∧
    result AdlMidiProcessor.getEmbeddedBankList p
      = Ret (bank_entry m' namesPtr <$> seq 0 (Z.to_nat count)).
Proof.
  intros [m Hm]. destruct p as [a md bp bs rd pm sr ch st po cl].
  cbv [AdlMidiProcessor.adl] in Hm. subst a.
  unfold AdlMidiProcessor.getEmbeddedBankList.
  do 2 proc_step. proc_unfold. trace_normalize.
  eexists _, _, _. split; [reflexivity|]. split; [reflexivity|].
  change 0 with (Z.of_nat 0). by rewrite processor_bank_names.
Qed.
End EmbeddedBanks.

(** X10.  [getEmbeddedBanks] of the core and [getEmbeddedBankList] of
    the processor call [adl_getBanksCount] and [adl_getBankNames] once
    each and return the same list: one entry per bank, numbered from 0
    in order, named by the string at the bank's slot of the name table
    or 'Bank <id>' where the slot is null. *)
Theorem embedded_banks_are_numbered {M : Type} `{Wasm M} :
  (∀ (m : M) namesPtr (n : nat),
     length (bank_entry m namesPtr <$> seq 0 n) = n ∧
     (bank_entry m namesPtr <$> seq 0 n).*1 = Z.of_nat <$> seq 0 n) ∧
  (∀ (c : AdlMidiCore.t M),
     is_Some (AdlMidiCore._module c) ->
     ∃ count namesPtr m',
       new_calls (AdlMidiCore.calls c)
         (AdlMidiCore.calls (exec AdlMidiCore.getEmbeddedBanks c))
         = [mkCall adl_getBanksCount [] (AInt count);
            mkCall adl_getBankNames [] (AInt namesPtr)] ∧
       AdlMidiCore._module (exec AdlMidiCore.getEmbeddedBanks c) = Some m' ∧
       result AdlMidiCore.getEmbeddedBanks c
         = Ret (bank_entry m' namesPtr <$> seq 0 (Z.to_nat count))) ∧
  (∀ (p : AdlMidiProcessor.t M),
     is_Some (AdlMidiProcessor.adl p) ->
     ∃ count namesPtr m',
       new_calls (AdlMidiProcessor.calls p)
         (AdlMidiProcessor.calls (exec AdlMidiProcessor.getEmbeddedBankList p))
         = [mkCall adl_getBanksCount [] (AInt count);
            mkCall adl_getBankNames [] (AInt namesPtr)] ∧
       AdlMidiProcessor.adl (exec AdlMidiProcessor.getEmbeddedBankList p) = Some m' ∧
       result AdlMidiProcessor.getEmbeddedBankList p
         = Ret (bank_entry m' namesPtr <$> seq 0 (Z.to_nat count))).
Proof.
  split; [|split].
  - intros m namesPtr n. split; [by rewrite length_fmap, length_seq|].
    rewrite <- list_fmap_compose. reflexivity.
  - exact core_getEmbeddedBanks_spec.
  - exact processor_getEmbeddedBankList_spec.
Qed.

Lemma embedded_banks_witness :
  is_Some (AdlMidiCore._module (AdlMidiCore.create (Toy.fresh (fun _ => 3)))) ∧
  result AdlMidiCore.getEmbeddedBanks (AdlMidiCore.create (Toy.fresh (fun _ => 3)))
  = Ret [(0, "Bank 0"); (1, "Bank 1"); (2, "Bank 2")].
Proof.
  assert (is_Some (AdlMidiCore._module (AdlMidiCore.create (Toy.fresh (fun _ => 3)))))
    as Hm by (by eexists).
  split; [exact Hm|].
  destruct (proj1 (proj2 embedded_banks_are_numbered) _ Hm)
    as (count & namesPtr & m' & Htr & Hmod & Hres).
  rewrite Hres.
  vm_compute in Htr. injection Htr as <- <-.
  vm_compute in Hmod. injection Hmod as <-.
  reflexivity.
Defined.

(* ===================================================================== *)
(** * AdlMidiProcessor: construction and initWasm *)
(* ===================================================================== *)

Section ProcessorInit.
Context {M : Type} `{Wasm M}.
Import AdlMidiProcessor.
Implicit Types p : AdlMidiProcessor.t M.



End ProcessorInit.


(* ===================================================================== *)
(** * AdlMidiProcessor: the reply to each message *)
(* ===================================================================== *)

Section Answers.
Context {M : Type} `{Wasm M}.
Import AdlMidiProcessor.
Implicit Types p : AdlMidiProcessor.t M.
Variable md : option Z.

Lemma answers_ret {A} (a : A) : answers (M := M) md [] (ret a).
Proof.
  intros p Hp. split; [exact Hp|]. split; [by eexists|].
  exists []. by rewrite app_nil_r.
Qed.

Lemma answers_gets {A} (f : t M -> A) : answers md [] (gets f).
Proof.
  intros p Hp. split; [exact Hp|]. split; [by eexists|].
  exists []. by rewrite app_nil_r.
Qed.

Lemma answers_bind {A B} (m : Eff (t M) A) (k : A -> Eff (t M) B) t1 t2 tags :
  answers md t1 m -> (∀ a, answers md t2 (k a)) -> tags = t1 ++ t2 ->
  answers md tags (bind m k).
Proof.
  intros Hm Hk -> p Hp.
  destruct (Hm p Hp) as (Hp1 & [a Ha] & added1 & Hport1 & Htags1).
  pose proof (Hk a (exec m p) Hp1) as (Hp2 & Hres & added2 & Hport2 & Htags2).
  unfold exec, result, bind in *.
  destruct (m p) as [o p1]. cbn [fst snd] in *. subst o.
  split; [exact Hp2|]. split; [exact Hres|].
  exists (added1 ++ added2). rewrite Hport2, Hport1, <- app_assoc.
  split; [reflexivity|]. by rewrite fmap_app, Htags1, Htags2.
Qed.

Lemma answers_try_catch {A} (m : Eff (t M) A) (h : string -> Eff (t M) A) tags :
  answers md tags m -> answers md tags (try_catch m h).
Proof.
  intros Hm p Hp.
  destruct (Hm p Hp) as (Hp1 & [a Ha] & Hadded).
  unfold exec, result, try_catch in *.
  destruct (m p) as [o p1]. cbn [fst snd] in *. subst o.
  split; [exact Hp1|]. split; [by eexists|exact Hadded].
Qed.

Lemma answers_when (b : bool) (m : Eff (t M) unit) :
  answers md [] m -> answers md [] (when b m).
Proof. destruct b; [done|]. intros _. apply answers_ret. Qed.

Lemma answers_post (msg : Out.t) : answers (M := M) md [Out.type msg] (post msg).
Proof.
  intros p (Hr & Hm & Ha). split; [by destruct p|]. split; [by eexists|].
  exists [msg]. split; [by destruct p|reflexivity].
Qed.

Lemma answers_modify (f : t M -> t M) :
  (∀ p, ready (f p) = ready p ∧ midi (f p) = midi p ∧ adl (f p) = adl p ∧
        port (f p) = port p) ->
  answers md [] (modify f).
Proof.
  intros Hf p (Hr & Hm & Ha). destruct (Hf p) as (Er & Em & Ea & Ep).
  unfold exec, result, modify. cbn [fst snd].
  split; [unfold serving; by rewrite Er, Em, Ea|]. split; [by eexists|].
  exists []. by rewrite Ep, app_nil_r.
Qed.

Lemma answers_invoke f args : answers (M := M) md [] (invoke f args).
Proof.
  intros p (Hr & Hm & [m Ha]). unfold exec, result, invoke.
  cbn [module_of session]. rewrite Ha.
  destruct (ccall f args m) as [r m']. cbn [fst snd].
  split; [split; [|split]; [by destruct p..|by eexists]|].
  split; [by eexists|]. exists []. rewrite app_nil_r. by destruct p.
Qed.

Lemma answers_invoke_num f args : answers (M := M) md [] (invoke_num f args).
Proof.
  intros p (Hr & Hm & [m Ha]). unfold exec, result, invoke_num.
  cbn [module_of session]. rewrite Ha.
  destruct (ccall_num f args m) as [r m']. cbn [fst snd].
  split; [split; [|split]; [by destruct p..|by eexists]|].
  split; [by eexists|]. exists []. rewrite app_nil_r. by destruct p.
Qed.

Lemma answers_peek {A} (f : M -> A) : answers (M := M) md [] (peek f).
Proof.
  intros p (Hr & Hm & [m Ha]). unfold exec, result, peek.
  cbn [module_of session]. rewrite Ha. cbn [fst snd].
  split; [split; [|split]; [done..|by eexists]|].
  split; [by eexists|]. exists []. by rewrite app_nil_r.
Qed.

Lemma answers_poke8 a v : answers (M := M) md [] (poke8 a v).
Proof.
  intros p (Hr & Hm & [m Ha]). unfold exec, result, poke8.
  cbn [module_of session]. rewrite Ha. cbn [fst snd].
  split; [split; [|split]; [by destruct p..|by eexists]|].
  split; [by eexists|]. exists []. rewrite app_nil_r. by destruct p.
Qed.

Lemma answers_poke_bytes l a : answers (M := M) md [] (poke_bytes l a).
Proof.
  intros p (Hr & Hm & [m Ha]). unfold exec, result, poke_bytes.
  cbn [module_of session]. rewrite Ha. cbn [fst snd].
  split; [split; [|split]; [by destruct p..|by eexists]|].
  split; [by eexists|]. exists []. rewrite app_nil_r. by destruct p.
Qed.
End Answers.

Ltac answers_step :=
  first
    [ apply answers_ret | apply answers_gets
    | match goal with |- answers ?md _ (AdlMidiProcessor.post ?m) =>
        let tag := eval cbv in (Out.type m) in
        exact (answers_post md m : answers md [tag] (AdlMidiProcessor.post m)) end
    | apply answers_invoke | apply answers_invoke_num | apply answers_peek
    | apply answers_poke8 | apply answers_poke_bytes
    | apply answers_when
    | apply answers_modify; by intros []
    | apply answers_try_catch
    | eapply answers_bind; [ | intros ?; cbv beta | ]
    | match goal with
      | |- answers _ _ (if ?b then _ else _) => destruct b
      | |- answers _ _ (match ?x with _ => _ end) => destruct x
      | |- @eq (list string) _ _ => reflexivity
      end ].

Section ProcessorAnswers.
Context {M : Type} `{Wasm M}.
Import AdlMidiProcessor.
Implicit Types p : AdlMidiProcessor.t M.
Variable md : option Z.

Lemma serving_set_module (m : M) p : serving md p -> serving md (set_module m p).
Proof. intros (Hr & Hm & Ha). split; [|split]; [by destruct p..|by eexists]. Qed.

Lemma serving_log (k : Call) p : serving md p -> serving md (log k p).
Proof. intros (Hr & Hm & Ha). by destruct p. Qed.

Lemma answers_getInstrument b n : answers md [] (getInstrument (M := M) b n).
Proof.
  intros p Hp.
  destruct (processor_getInstrument_spec p b n (proj2 (proj2 Hp))) as (res & Hres & _).
  split; [|split; [by exists res|]].
  - clear Hres. revert p Hp.
    change (preserves (serving md) (getInstrument (M := M) b n)).
    pose proof serving_set_module as Hset. pose proof serving_log as Hlog.
    unfold getInstrument, resolve_bank, readInstrumentFromMemory, player.
    repeat preserves_step.
  - exists []. rewrite app_nil_r. split; [|reflexivity].
    clear Hres Hp. revert p.
    change (keeps port (getInstrument (M := M) b n)).
    unfold getInstrument, resolve_bank, readInstrumentFromMemory, player.
    repeat keeps_step.
Qed.

Lemma answers_from_ready {A} (k : bool -> Eff (t M) A) tags :
  answers md tags (k true) -> answers md tags (bind (gets ready) k).
Proof.
  intros Hk p Hp. unfold exec, result, bind, gets.
  destruct Hp as (Hr & Hm & Ha). rewrite Hr. apply Hk. by split.
Qed.

Lemma handleMessage_answers (msg : Msg.t) :
  answers md (option_list (reply_type msg)) (handleMessage (M := M) msg).
Proof.
  unfold handleMessage. apply answers_from_ready. cbn [negb andb].
  destruct msg; cbn [reply_type option_list].
  all: try (eapply answers_bind;
            [apply answers_getInstrument | intros ?; answers_step | reflexivity]).
  all: unfold forward, query, player, string_at, applySettings, loadBank, loadMidiData,
         open_data, getEmbeddedBankList, setInstrument, resolve_bank,
         writeInstrumentToMemory.
  all: repeat answers_step.
Qed.
End ProcessorAnswers.

(** X12.  A ready processor that holds its module handles every message
    without throwing, whatever the engine answers: a query or request
    posts exactly one message, of the type of its reply; a command
    posts nothing; and the processor stays ready, with the same player
    and a module. *)
Theorem every_message_gets_its_reply {M} `{Wasm M} (p : AdlMidiProcessor.t M) (msg : Msg.t) :
  AdlMidiProcessor.ready p = true -> is_Some (AdlMidiProcessor.adl p) ->
  let p' := exec (AdlMidiProcessor.handleMessage msg) p in
  result (AdlMidiProcessor.handleMessage msg) p = Ret tt ∧
  Out.type <$> posted (AdlMidiProcessor.port p) (AdlMidiProcessor.port p')
  = option_list (reply_type msg) ∧
  AdlMidiProcessor.ready p' = true ∧
  AdlMidiProcessor.midi p' = AdlMidiProcessor.midi p ∧
  is_Some (AdlMidiProcessor.adl p').
Proof.
  intros Hr Ha p'.
  destruct (handleMessage_answers (AdlMidiProcessor.midi p) msg p)
    as ((Hr' & Hm' & Ha') & (a & Hres) & added & Hport & Htags).
  { by split. }
  fold p' in Hr', Hm', Ha', Hport.
  split; [by destruct a|]. split; [by rewrite Hport, posted_app|].
  split; [exact Hr'|]. split; [exact Hm' | exact Ha'].
Qed.

Lemma every_message_witness :
  AdlMidiProcessor.ready (toy_processor Toy.ok) = true ∧
  Out.type <$> posted (AdlMidiProcessor.port (toy_processor Toy.ok))
    (AdlMidiProcessor.port
       (exec (AdlMidiProcessor.handleMessage (Msg.setBank 5)) (toy_processor Toy.ok)))
  = ["bankSet"].
Proof.
  split; [reflexivity|].
  exact (proj1 (proj2 (every_message_gets_its_reply (toy_processor Toy.ok) (Msg.setBank 5)
                         eq_refl ltac:(by eexists)))).
Defined.

(* ===================================================================== *)
(** * AdlMidiProcessor: the samples process writes *)
(* ===================================================================== *)

Section Deinterleave.
Context {M : Type} `{Wasm M}.
Import AdlMidiProcessor.

Lemma deinterleave_stereo (h : Z -> Z) (i n : nat) (L R : list Q) (more : list (list Q)) :
  ∃ L' R',
    deinterleave h 1 i n (L :: R :: more) = L' :: R' :: more ∧
    length L' = length L ∧ length R' = length R ∧
    (∀ k, L' !! k =
       if decide (i <= k < i + n ∧ k < length L)%nat
       then Some (sample_to_float (h (Z.of_nat (k * 2)))) else L !! k) ∧
    (∀ k, R' !! k =
       if decide (i <= k < i + n ∧ k < length R)%nat
       then Some (sample_to_float (h (Z.of_nat (k * 2 + 1)))) else R !! k).
Proof.
  revert i L R. induction n as [|n IH]; intros i L R.
  - exists L, R. cbn [deinterleave]. repeat split; try done.
    all: intros k; case_decide; [lia|done].
  - cbn [deinterleave]. unfold store. cbn [alter list_alter].
    destruct (IH (S i) (<[i := sample_to_float (h (Z.of_nat (i * 2)))]> L)
                 (<[i := sample_to_float (h (Z.of_nat (i * 2 + 1)))]> R))
      as (L' & R' & Heq & HlenL & HlenR & HL & HR).
    exists L', R'. rewrite Heq. rewrite length_insert in HlenL, HlenR.
    split; [done|]. split; [done|]. split; [done|]. split.
    + intros k. rewrite HL, length_insert.
      destruct (decide (k = i)) as [->|Hne].
      * repeat case_decide; try lia; try done.
        -- by rewrite list_lookup_insert_eq by lia.
        -- rewrite lookup_ge_None_2; [|rewrite length_insert; lia].
           by rewrite lookup_ge_None_2 by lia.
      * rewrite list_lookup_insert_ne by done.
        repeat case_decide; try lia; done.
    + intros k. rewrite HR, length_insert.
      destruct (decide (k = i)) as [->|Hne].
      * repeat case_decide; try lia; try done.
        -- by rewrite list_lookup_insert_eq by lia.
        -- rewrite lookup_ge_None_2; [|rewrite length_insert; lia].
           by rewrite lookup_ge_None_2 by lia.
      * rewrite list_lookup_insert_ne by done.
        repeat case_decide; try lia; done.
Qed.

Lemma deinterleave_mono (h : Z -> Z) (i n : nat) (L : list Q) :
  ∃ L',
    deinterleave h 0 i n [L] = [L'] ∧ length L' = length L ∧
    (∀ k, L' !! k =
       if decide (i <= k < i + n ∧ k < length L)%nat
       then Some (sample_to_float (h (Z.of_nat (k * 2 + 1)))) else L !! k).
Proof.
  revert i L. induction n as [|n IH]; intros i L.
  - exists L. cbn [deinterleave]. repeat split; try done.
    intros k; case_decide; [lia|done].
  - cbn [deinterleave]. unfold store. cbn [alter list_alter].
    destruct (IH (S i) (<[i := sample_to_float (h (Z.of_nat (i * 2 + 1)))]>
                          (<[i := sample_to_float (h (Z.of_nat (i * 2)))]> L)))
      as (L' & Heq & HlenL & HL).
    exists L'. rewrite Heq. rewrite !length_insert in HlenL.
    split; [done|]. split; [done|].
    intros k. rewrite HL, !length_insert.
    destruct (decide (k = i)) as [->|Hne].
    + repeat case_decide; try lia; try done.
      * by rewrite list_lookup_insert_eq by (rewrite length_insert; lia).
      * rewrite lookup_ge_None_2; [|rewrite !length_insert; lia].
        by rewrite lookup_ge_None_2 by lia.
    + rewrite !list_lookup_insert_ne by done.
      repeat case_decide; try lia; done.
Qed.
End Deinterleave.

Ltac on_running p m :=
  intros (?Hready & ?Hmidi & m & ?Hadl & ?Hheap);
  destruct p as [?a ?md ?bp ?bs ?rd ?pm ?sr ?ch ?st ?po ?cl];
  cbv [AdlMidiProcessor.adl AdlMidiProcessor.midi AdlMidiProcessor.ready] in *; subst.

Section ProcessOutput.
Context {M : Type} `{Wasm M}.
Import AdlMidiProcessor.

Lemma process_outcome p outputs L rest :
  processor_running p -> outputs !! 0%nat = Some (L :: rest) ->
  let frames := length L in
  let r := match rest with [] => 0%nat | _ :: _ => 1%nat end in
  let p' := exec (process outputs) p in
  ∃ m', adl p' = Some m' ∧
    request_of <$> head (new_calls (calls p) (calls p')) =
      Some (match playMode p with file => adl_play | realtime => adl_generate end,
            [ptr_arg (midi p); AInt (Z.of_nat (frames * 2)); ptr_arg (bufferPtr p)]) ∧
    match int16_view m' (default 0 (bufferPtr p)) (Z.of_nat (frames * 2)) with
    | Some heap16 =>
        result (process outputs) p =
          Ret (<[0%nat := deinterleave heap16 r 0 frames (L :: rest)]> outputs)
    | None =>
        result (process outputs) p = Ret outputs ∧
        last (port p') = Some (Out.processingError "RangeError")
    end.
Proof.
  intros Hrun Hout. revert Hrun. on_running p m.
  unfold process. proc_unfold. rewrite Hmidi, Hheap, Hout. cbn [negb orb].
  proc_unfold.
  cbv [playMode bufferPtr]. destruct pm.
  - proc_step. proc_unfold. case_bool_decide; proc_unfold.
    all: match goal with |- context [AdlMidiProcessor.int16_view ?a ?b ?c] =>
           destruct (AdlMidiProcessor.int16_view a b c) eqn:Ev end; proc_unfold.
    all: trace_normalize; cbn zeta.
    all: eexists; split; [reflexivity|]; split; [reflexivity|].
    all: rewrite Ev; try reflexivity.
    all: split; [reflexivity|]; by rewrite last_app.
  - do 2 proc_step. proc_unfold.
    destruct (r0 =? 0) eqn:Er; cbn [negb].
    + proc_unfold. case_bool_decide; proc_unfold.
      all: match goal with |- context [AdlMidiProcessor.int16_view ?a ?b ?c] =>
             destruct (AdlMidiProcessor.int16_view a b c) eqn:Ev end; proc_unfold.
      all: trace_normalize; cbn zeta.
      all: eexists; split; [reflexivity|]; split; [reflexivity|].
      all: rewrite Ev; try reflexivity.
      all: split; [reflexivity|]; by rewrite last_app.
    + proc_step. proc_unfold. case_bool_decide; proc_unfold.
      all: match goal with |- context [AdlMidiProcessor.int16_view ?a ?b ?c] =>
             destruct (AdlMidiProcessor.int16_view a b c) eqn:Ev end; proc_unfold.
      all: trace_normalize; cbn zeta.
      all: eexists; split; [reflexivity|]; split; [reflexivity|].
      all: rewrite Ev; try reflexivity.
      all: split; [reflexivity|]; by rewrite last_app.
Qed.

Lemma int16_view_samples (m : M) (o l : Z) (h : Z -> Z) :
  int16_view m o l = Some h -> ∀ k, h k = HEAP16_get m (o / 2 + k).
Proof.
  unfold int16_view. destruct (_ && _); [|done]. by intros [= <-].
Qed.

(** X13.  [process] on a running processor with a non-empty first
    output asks the engine ([adl_play] in file mode, [adl_generate]
    otherwise) for two samples per frame at the buffer pointer.  When
    the 16-bit view over those samples lies inside the heap, frame [k]
    of the left channel is sample [2k] divided by 32768 and frame [k]
    of the right channel is sample [2k+1] divided by 32768 (frames the
    right channel does not have are dropped, frames beyond the left
    channel's length are kept); with a single channel that channel
    ends up holding the right-hand samples.  When the view does not
    fit, the outputs are untouched and a [processingError] is posted. *)
Theorem process_writes_the_block p outputs L rest :
  processor_running p -> outputs !! 0%nat = Some (L :: rest) ->
  let frames := length L in
  let p' := exec (process outputs) p in
  ∃ m', adl p' = Some m' ∧
    request_of <$> head (new_calls (calls p) (calls p')) =
      Some (match playMode p with file => adl_play | realtime => adl_generate end,
            [ptr_arg (midi p); AInt (Z.of_nat (frames * 2)); ptr_arg (bufferPtr p)]) ∧
    let sample (k : nat) :=
      sample_to_float (HEAP16_get m' (default 0 (bufferPtr p) / 2 + Z.of_nat k)) in
    match int16_view m' (default 0 (bufferPtr p)) (Z.of_nat (frames * 2)) with
    | None =>
        result (process outputs) p = Ret outputs ∧
        last (port p') = Some (Out.processingError "RangeError")
    | Some _ =>
        ∃ out, result (process outputs) p = Ret (<[0%nat := out]> outputs) ∧
          match rest with
          | [] =>
              ∃ L', out = [L'] ∧ length L' = frames ∧
                ∀ k, (k < frames)%nat -> L' !! k = Some (sample (k * 2 + 1)%nat)
          | R :: more =>
              ∃ L' R', out = L' :: R' :: more ∧
                length L' = frames ∧ length R' = length R ∧
                (∀ k, (k < frames)%nat -> L' !! k = Some (sample (k * 2)%nat)) ∧
                (∀ k, (k < length R)%nat ->
                   R' !! k = if decide (k < frames)%nat
                             then Some (sample (k * 2 + 1)%nat) else R !! k)
          end
    end.
Proof.
  intros Hrun Hout frames p'.
  destruct (process_outcome p outputs L rest Hrun Hout) as (m' & Hm & Hcall & Hres).
  exists m'. split; [exact Hm|]. split; [exact Hcall|]. cbn zeta.
  fold frames p' in Hres.
  destruct (int16_view m' _ _) as [h|] eqn:Ev; [|exact Hres].
  pose proof (int16_view_samples _ _ _ _ Ev) as Hh.
  eexists. split; [exact Hres|].
  destruct rest as [|R more].
  - destruct (deinterleave_mono h 0 frames L) as (L' & Heq & Hlen & HL).
    exists L'. split; [exact Heq|]. split; [exact Hlen|].
    intros k Hk. rewrite HL, decide_True by (unfold frames in *; lia).
    by rewrite Hh.
  - destruct (deinterleave_stereo h 0 frames L R more)
      as (L' & R' & Heq & HlenL & HlenR & HL & HR).
    exists L', R'. split; [exact Heq|]. split; [exact HlenL|]. split; [exact HlenR|].
    split.
    + intros k Hk. rewrite HL, decide_True by (unfold frames in *; lia).
      by rewrite Hh.
    + intros k Hk. rewrite HR. case_decide; case_decide; try lia.
      * by rewrite Hh.
      * done.
Qed.

End ProcessOutput.

Lemma process_writes_the_block_witness :
  let outputs := [[[0%Q; 0%Q]; [0%Q; 0%Q; 7%Q]]; [[1%Q]]] in
  processor_running (toy_processor Toy.ok) ∧
  (∃ m', AdlMidiProcessor.adl (exec (AdlMidiProcessor.process outputs) (toy_processor Toy.ok)) = Some m') ∧
  result (AdlMidiProcessor.process outputs) (toy_processor Toy.ok) =
    Ret [[[Qmake 100 32768; Qmake 300 32768];
          [Qmake (-200) 32768; Qmake (-400) 32768; 7%Q]]; [[1%Q]]].
Proof.
  intros outputs.
  assert (processor_running (toy_processor Toy.ok)) as Hrun.
  { split; [reflexivity|]. split; [reflexivity|]. eexists. split; reflexivity. }
  split; [exact Hrun|]. split.
  - destruct (process_writes_the_block (toy_processor Toy.ok) outputs
                [0%Q; 0%Q] [[0%Q; 0%Q; 7%Q]] Hrun eq_refl) as (m' & Hm & _).
    exists m'. exact Hm.
  - vm_compute. reflexivity.
Defined.

(* ===================================================================== *)
(** * Pitch bend from the client to the engine *)
(* ===================================================================== *)

Lemma pitch_bend_split (value : Z) :
  let lsb := JS.band value 0x7F in
  let msb := JS.band (JS.sar value 7) 0x7F in
  0 <= lsb < 128 ∧ 0 <= msb < 128 ∧ lsb + 128 * msb = value mod 16384.
Proof.
  cbn zeta.
  destruct (band_masks value) as (_ & _ & _ & _ & _ & ->).
  destruct (band_masks (JS.sar value 7)) as (_ & _ & _ & _ & _ & ->).
  unfold JS.sar. change (Z.land 7 31) with 7. rewrite Z.shiftr_div_pow2 by lia.
  change (2 ^ 7) with 128.
  pose proof (to_int32_mod value 14 ltac:(lia)) as E14. change (2 ^ 14) with 16384 in E14.
  pose proof (to_int32_mod value 7 ltac:(lia)) as E7. change (2 ^ 7) with 128 in E7.
  rewrite <- E14, <- E7. clear E14 E7.
  generalize (JS.to_int32 value). intros x.
  split; [apply Z.mod_pos_bound; lia|]. split; [apply Z.mod_pos_bound; lia|].
  change 16384 with (128 * 128). rewrite Z.rem_mul_r by lia. lia.
Qed.

Section PitchBend.
Context {M : Type} `{Wasm M}.

Lemma forward_calls (p : AdlMidiProcessor.t M) (f : Fn) (args : list Z) :
  is_Some (AdlMidiProcessor.adl p) ->
  request_of <$> new_calls (AdlMidiProcessor.calls p)
                   (AdlMidiProcessor.calls (exec (AdlMidiProcessor.forward f args) p))
  = [(f, ptr_arg (AdlMidiProcessor.midi p) :: (AInt <$> args))].
Proof.
  intros [m Hm]. destruct p as [a md bp bs rd pm sr ch st po cl].
  cbv [AdlMidiProcessor.adl] in Hm. subst.
  unfold AdlMidiProcessor.forward, AdlMidiProcessor.player. proc_step. proc_unfold.
  trace_normalize. reflexivity.
Qed.

(** X14.  [pitchBend(channel, value)] on a client with a node posts one
    message whose bytes are 7-bit and satisfy [lsb + 128 * msb = value
    mod 16384], so [value] itself when it is within 0..16383; a ready
    processor handling that message makes exactly one call,
    [adl_rt_pitchBendML] with the player, the channel, [msb], [lsb]. *)
Theorem pitch_bend_reaches_the_engine (c : AdlMidi.t) (p : AdlMidiProcessor.t M)
    (channel value : Z) :
  AdlMidi.node (AdlMidi.env c) = true ->
  AdlMidiProcessor.ready p = true -> is_Some (AdlMidiProcessor.adl p) ->
  ∃ msb lsb,
    AdlMidi.sent (AdlMidi.env (AdlMidi.pitchBend channel value c))
    = AdlMidi.sent (AdlMidi.env c) ++ [Msg.pitchBend channel msb lsb] ∧
    (let p' := exec (AdlMidiProcessor.handleMessage (Msg.pitchBend channel msb lsb)) p in
     request_of <$> new_calls (AdlMidiProcessor.calls p) (AdlMidiProcessor.calls p')
     = [(adl_rt_pitchBendML,
         [ptr_arg (AdlMidiProcessor.midi p); AInt channel; AInt msb; AInt lsb])]) ∧
    0 <= lsb < 128 ∧ 0 <= msb < 128 ∧
    lsb + 128 * msb = value mod 16384 ∧
    (0 <= value < 16384 -> lsb + 128 * msb = value).
Proof.
  intros Hnode Hready Hadl.
  destruct (pitch_bend_split value) as (Hl & Hm & Hsum).
  eexists _, _. split; [|split; [|split; [exact Hl|split; [exact Hm|split; [exact Hsum|]]]]].
  - unfold AdlMidi.pitchBend, AdlMidi.on_env, AdlMidi.send. cbn. rewrite Hnode. reflexivity.
  - cbn zeta. unfold AdlMidiProcessor.handleMessage, exec, bind, gets. rewrite Hready.
    cbn [negb andb]. exact (forward_calls p adl_rt_pitchBendML _ Hadl).
  - intros Hv. rewrite Hsum. apply Z.mod_small. lia.
Qed.
End PitchBend.

Lemma pitch_bend_witness :
  AdlMidi.node (AdlMidi.env (AdlMidi.init_handshake AdlMidi.new).2) = true ∧
  ∃ msb lsb,
    AdlMidi.sent (AdlMidi.env (AdlMidi.pitchBend 3 8192 (AdlMidi.init_handshake AdlMidi.new).2))
    = [Msg.pitchBend 3 msb lsb] ∧ lsb + 128 * msb = 8192.
Proof.
  split; [reflexivity|].
  destruct (pitch_bend_reaches_the_engine (AdlMidi.init_handshake AdlMidi.new).2
              (toy_processor Toy.ok) 3 8192 eq_refl eq_refl ltac:(by eexists))
    as (msb & lsb & Hs & _ & _ & _ & _ & Hv).
  exists msb, lsb. split; [exact Hs|]. apply Hv. lia.
Defined.

(* ===================================================================== *)
(** * AdlMidi: fire-and-forget commands *)
(* ===================================================================== *)

Lemma perform_without_node (cmd : AdlMidi.Command) (c : AdlMidi.t) :
  AdlMidi.node (AdlMidi.env c) = false -> AdlMidi.perform cmd c = c.
Proof.
  intros Hnode. destruct c as [mh nh [rd nd ps np ts nt se] fi]. cbn in Hnode. subst.
  by destruct cmd.
Qed.

Lemma perform_with_node (cmd : AdlMidi.Command) (c : AdlMidi.t) :
  AdlMidi.node (AdlMidi.env c) = true ->
  ∃ m, AdlMidi.perform cmd c =
       AdlMidi.with_env
         (AdlMidi.mkEnv (AdlMidi.ready (AdlMidi.env c)) true
            (AdlMidi.promises (AdlMidi.env c)) (AdlMidi.next_promise (AdlMidi.env c))
            (AdlMidi.timers (AdlMidi.env c)) (AdlMidi.next_timer (AdlMidi.env c))
            (AdlMidi.sent (AdlMidi.env c) ++ [m])) c ∧
       Msg.is_ping m = false.
Proof.
  intros Hnode. destruct c as [mh nh [rd nd ps np ts nt se] fi]. cbn in Hnode. subst.
  destruct cmd; eexists; split; reflexivity.
Qed.

Lemma perform_posts (cmd : AdlMidi.Command) (c : AdlMidi.t) :
  ∃ msgs, AdlMidi.perform cmd c = posting msgs c ∧
    length msgs = (if AdlMidi.node (AdlMidi.env c) then 1 else 0)%nat.
Proof.
  destruct c as [mh nh [rd nd ps np ts nt se] fi]. destruct nd.
  - destruct cmd; eexists [_]; split; reflexivity.
  - exists []. split; [|reflexivity]. unfold posting. cbn. rewrite app_nil_r.
    by destruct cmd.
Qed.

Lemma posting_posting (l1 l2 : list Msg.t) (c : AdlMidi.t) :
  posting l2 (posting l1 c) = posting (l1 ++ l2) c.
Proof. unfold posting. cbn. by rewrite app_assoc. Qed.

(** X15.  The fire-and-forget methods of the client only post: a
    sequence of them leaves the handler registry, the promises, the
    timers and the flags as they were and appends one message per
    command when the client has a node, none when it has not.  After
    [close] they all do nothing. *)
Theorem commands_only_post (cmds : list AdlMidi.Command) (c : AdlMidi.t) :
  (∃ msgs, foldl (fun c cmd => AdlMidi.perform cmd c) c cmds = posting msgs c ∧
     length msgs = (if AdlMidi.node (AdlMidi.env c) then length cmds else 0)%nat) ∧
  foldl (fun c cmd => AdlMidi.perform cmd c) (AdlMidi.close c) cmds = AdlMidi.close c.
Proof.
  assert (∀ c, ∃ msgs, foldl (fun c cmd => AdlMidi.perform cmd c) c cmds = posting msgs c ∧
     length msgs = (if AdlMidi.node (AdlMidi.env c) then length cmds else 0)%nat) as Hposts.
  { clear c. induction cmds as [|cmd cmds IH]; intros c.
    - exists []. split; [|by destruct (AdlMidi.node _)].
      destruct c as [mh nh [rd nd ps np ts nt se] fi]. unfold posting. cbn.
      by rewrite app_nil_r.
    - cbn [foldl]. destruct (perform_posts cmd c) as (l1 & -> & Hl1).
      destruct (IH (posting l1 c)) as (l2 & -> & Hl2).
      exists (l1 ++ l2). split; [apply posting_posting|].
      rewrite length_app, Hl1, Hl2. cbn. by destruct (AdlMidi.node _). }
  split; [apply Hposts|].
  destruct (Hposts (AdlMidi.close c)) as (msgs & -> & Hlen).
  destruct c as [mh nh [rd nd ps np ts nt se] fi]. cbn in Hlen.
  destruct msgs; [|discriminate]. unfold posting. cbn. by rewrite app_nil_r.
Qed.

(* ===================================================================== *)
(** * AdlMidi and AdlMidiProcessor: a request and its reply *)
(* ===================================================================== *)

Section RoundTrip.
Import AdlMidi.

Lemma request_registers tag on_reply (m : Msg.t) (c : t) :
  default [] (messageHandlers c !! tag) = [] ->
  let pr := next_promise (env c) in
  let c1 := (request tag on_reply m c).2 in
  (request tag on_reply m c).1 = pr ∧
  messageHandlers c1 !! tag = Some [(next_handler c, on_reply pr)] ∧
  promises (env c1) !! pr = Some Pending ∧
  sent (env c1) = (if node (env c) then sent (env c) ++ [m] else sent (env c)).
Proof.
  intros Hnone. destruct c as [mh nh [rd nd ps np ts nt se] fi].
  cbn in Hnone |- *. unfold request, new_promise, onceMessage, on_env, with_env, send. cbn.
  split; [reflexivity|]. split; [|split].
  - destruct (mh !! tag) as [set|] eqn:E; cbn in Hnone.
    + subst set. rewrite lookup_alter_eq, E. reflexivity.
    + rewrite lookup_alter_eq, lookup_insert_eq. reflexivity.
  - destruct nd; cbn; by rewrite lookup_insert_eq.
  - by destruct nd.
Qed.

Lemma reply_runs_the_handler tag (h : Handler) (id : nat) (r : Out.t) (c : t) :
  Out.type r = tag -> messageHandlers c !! tag = Some [(id, h)] ->
  env (handleMessage r c) = h r (env c) ∧
  messageHandlers (handleMessage r c) !! tag = Some [].
Proof.
  intros Ht Hl. unfold handleMessage. rewrite Ht, Hl. cbn [forEach].
  rewrite Hl. cbn [default]. unfold set_has. cbn [fmap list_fmap fst].
  rewrite bool_decide_eq_true_2 by set_solver.
  unfold wrappedHandler. cbn. split; [reflexivity|].
  rewrite lookup_alter_eq, Hl. cbn. unfold set_delete. cbn.
  by rewrite decide_False by (intros Hne; by apply Hne).
Qed.
End RoundTrip.

Section Answered.
Context {M : Type} `{Wasm M}.

Lemma settle_pending (pr : nat) (s : AdlMidi.PromiseState) (ps : gmap nat AdlMidi.PromiseState) :
  ps !! pr = Some AdlMidi.Pending -> AdlMidi.settle pr s ps !! pr = Some s.
Proof. intros E. unfold AdlMidi.settle. rewrite E. by rewrite lookup_insert_eq. Qed.

Lemma one_reply (p : AdlMidiProcessor.t M) (msg : Msg.t) (tag : string) :
  AdlMidiProcessor.ready p = true -> is_Some (AdlMidiProcessor.adl p) ->
  reply_type msg = Some tag ->
  ∃ r, posted (AdlMidiProcessor.port p)
         (AdlMidiProcessor.port (exec (AdlMidiProcessor.handleMessage msg) p)) = [r] ∧
       Out.type r = tag.
Proof.
  intros Hr Ha Ht.
  destruct (handleMessage_answers (AdlMidiProcessor.midi p) msg p) as (_ & _ & added & Hport & Htags).
  { by split. }
  rewrite Hport, posted_app. rewrite Ht in Htags. cbn in Htags.
  destruct added as [|r [|r' rest]]; try discriminate.
  exists r. split; [reflexivity|]. by injection Htags.
Qed.

Lemma request_answered tag on_reply (m : Msg.t) (c : AdlMidi.t) (p : AdlMidiProcessor.t M) :
  AdlMidi.node (AdlMidi.env c) = true -> no_request_in_flight c ->
  tag ≠ "ready" -> tag ≠ "error" ->
  AdlMidiProcessor.ready p = true -> is_Some (AdlMidiProcessor.adl p) ->
  reply_type m = Some tag ->
  let pr := (AdlMidi.request tag on_reply m c).1 in
  let c1 := (AdlMidi.request tag on_reply m c).2 in
  AdlMidi.sent (AdlMidi.env c1) = AdlMidi.sent (AdlMidi.env c) ++ [m] ∧
  AdlMidi.promises (AdlMidi.env c1) !! pr = Some AdlMidi.Pending ∧
  ∃ r, posted (AdlMidiProcessor.port p)
         (AdlMidiProcessor.port (exec (AdlMidiProcessor.handleMessage m) p)) = [r] ∧
       AdlMidi.env (AdlMidi.handleMessage r c1) = on_reply pr r (AdlMidi.env c1) ∧
       no_request_in_flight (AdlMidi.handleMessage r c1).
Proof.
  intros Hnode Hquiet Hnr Hne Hr Ha Ht pr c1.
  destruct (request_registers tag on_reply m c (Hquiet tag Hnr Hne))
    as (Hpr & Hreg & Hpend & Hsent).
  fold c1 in Hreg, Hpend, Hsent. rewrite Hnode in Hsent.
  split; [exact Hsent|]. split; [unfold pr; by rewrite Hpr|].
  destruct (one_reply p m tag Hr Ha Ht) as (r & Hposted & Htype).
  exists r. split; [exact Hposted|].
  destruct (reply_runs_the_handler tag _ _ r c1 Htype Hreg) as (Henv & Hgone).
  split; [unfold pr; by rewrite Hpr|].
  intros type Htr Hte. destruct (decide (type = tag)) as [->|Hneq].
  - by rewrite Hgone.
  - transitivity (default [] (AdlMidi.messageHandlers c !! type)); [|by apply Hquiet].
    apply (f_equal (default [])).
    unfold AdlMidi.handleMessage. rewrite Htype, Hreg. cbn [AdlMidi.forEach].
    rewrite Hreg. cbn [default]. unfold AdlMidi.set_has. cbn [fmap list_fmap fst].
    rewrite bool_decide_eq_true_2 by set_solver.
    unfold AdlMidi.wrappedHandler. cbn. rewrite lookup_alter_ne by done.
    unfold c1, AdlMidi.request, AdlMidi.new_promise, AdlMidi.onceMessage, AdlMidi.on_env,
      AdlMidi.with_env. cbn.
    rewrite lookup_alter_ne by done.
    destruct (AdlMidi.messageHandlers c !! tag); [reflexivity|].
    by rewrite lookup_insert_ne.
Qed.

(** X16.  A request of the client, sent while no other request is in
    flight, to a ready processor: the request posts one message and its
    promise is pending; the processor answers that message with exactly
    one reply; delivering the reply settles the promise (it is rejected
    only when the reply does not report success) and leaves no request
    in flight. *)
Theorem requests_are_answered (c : AdlMidi.t) (p : AdlMidiProcessor.t M)
    (q : AdlMidi.Request) :
  AdlMidi.node (AdlMidi.env c) = true -> no_request_in_flight c ->
  AdlMidiProcessor.ready p = true -> is_Some (AdlMidiProcessor.adl p) ->
  let pr := (AdlMidi.ask q c).1 in
  let c1 := (AdlMidi.ask q c).2 in
  ∃ m r,
    AdlMidi.sent (AdlMidi.env c1) = AdlMidi.sent (AdlMidi.env c) ++ [m] ∧
    AdlMidi.promises (AdlMidi.env c1) !! pr = Some AdlMidi.Pending ∧
    posted (AdlMidiProcessor.port p)
      (AdlMidiProcessor.port (exec (AdlMidiProcessor.handleMessage m) p)) = [r] ∧
    let c2 := AdlMidi.handleMessage r c1 in
    no_request_in_flight c2 ∧
    ∃ s, AdlMidi.promises (AdlMidi.env c2) !! pr = Some s ∧
      match s with
      | AdlMidi.Fulfilled _ => True
      | AdlMidi.Rejected _ => Out.success_of r = false
      | AdlMidi.Pending => False
      end.
Proof.
  intros Hnode Hquiet Hr Ha.
  destruct q; cbn zeta;
    unfold AdlMidi.ask, AdlMidi.configure, AdlMidi.loadBank, AdlMidi.setBank,
      AdlMidi.getInstrument, AdlMidi.setInstrument, AdlMidi.switchEmulator,
      AdlMidi.getEmulatorName.
  all: match goal with
       | |- context [AdlMidi.request ?tag ?h ?m ?c0] =>
           destruct (request_answered tag h m c0 p Hnode Hquiet ltac:(done) ltac:(done)
                       Hr Ha eq_refl) as (Hs & Hp & r & Hpost & Henv & Hq);
           exists m, r
       end.
  all: split; [exact Hs|]; split; [exact Hp|]; split; [exact Hpost|].
  all: split; [exact Hq|]; rewrite Henv; cbv beta.
  all: try destruct (Out.success_of r) eqn:Es.
  all: unfold AdlMidi.resolve, AdlMidi.reject; cbn [AdlMidi.promises AdlMidi.with_promises].
  all: eexists; (split; [apply settle_pending; exact Hp|]); done.
Qed.
End Answered.

Lemma requests_are_answered_witness :
  let c := (AdlMidi.init_handshake AdlMidi.new).2 in
  AdlMidi.node (AdlMidi.env c) = true ∧
  ∃ m r,
    AdlMidi.sent (AdlMidi.env (AdlMidi.ask (AdlMidi.q_setBank 5) c).2) = [m] ∧
    posted (AdlMidiProcessor.port (toy_processor Toy.ok))
      (AdlMidiProcessor.port (exec (AdlMidiProcessor.handleMessage m) (toy_processor Toy.ok)))
    = [r].
Proof.
  intros c. split; [reflexivity|].
  assert (no_request_in_flight c) as Hquiet.
  { intros type Hr He. unfold c. cbn.
    repeat first [ rewrite lookup_empty
                 | rewrite lookup_alter_ne by done
                 | rewrite lookup_insert_ne by done ].
    reflexivity. }
  destruct (requests_are_answered c (toy_processor Toy.ok) (AdlMidi.q_setBank 5)
              eq_refl Hquiet eq_refl ltac:(by eexists))
    as (m & r & Hs & _ & Hp & _).
  exists m, r. split; [exact Hs | exact Hp].
Defined.

(* ===================================================================== *)
(** * AdlMidi: replies are matched by kind *)
(* ===================================================================== *)

Section ByKind.
Import AdlMidi.

Lemma two_requests_registered tag h1 h2 (m1 m2 : Msg.t) (c : t) :
  default [] (messageHandlers c !! tag) = [] ->
  let r1 := request tag h1 m1 c in
  let r2 := request tag h2 m2 r1.2 in
  r1.1 = next_promise (env c) ∧ r2.1 = S (next_promise (env c)) ∧
  messageHandlers r2.2 !! tag
    = Some [(next_handler c, h1 r1.1); (S (next_handler c), h2 r2.1)] ∧
  promises (env r2.2) !! r1.1 = Some Pending ∧
  promises (env r2.2) !! r2.1 = Some Pending.
Proof.
  intros Hnone. destruct c as [mh nh [rd nd ps np ts nt se] fi].
  cbn in Hnone |- *. unfold request, new_promise, onceMessage, on_env, with_env, send. cbn.
  split; [reflexivity|]. split; [by destruct nd|]. split; [|split].
  - destruct nd; cbn.
    all: destruct (mh !! tag) as [set|] eqn:E; cbn in Hnone; subst.
    all: rewrite ?E, ?lookup_alter_eq, ?lookup_insert_eq, ?E; cbn.
    all: rewrite ?E, ?lookup_alter_eq, ?lookup_insert_eq, ?E; reflexivity.
  - destruct nd; cbn; rewrite lookup_insert_ne by lia; by rewrite lookup_insert_eq.
  - destruct nd; cbn; by rewrite lookup_insert_eq.
Qed.

Lemma set_has_here (id : nat) (h : Handler) (rest : list (nat * Handler)) :
  set_has id ((id, h) :: rest) = true.
Proof. unfold set_has. apply bool_decide_eq_true_2. cbn. apply list_elem_of_here. Qed.

Lemma set_delete_here (id : nat) (h : Handler) (id' : nat) (h' : Handler) :
  id ≠ id' -> set_delete id [(id, h); (id', h')] = [(id', h')].
Proof.
  intros Hne. unfold set_delete. cbn.
  rewrite decide_False by (intros Hn; by apply Hn).
  rewrite decide_True by (cbn; congruence). reflexivity.
Qed.

Lemma set_delete_last (id : nat) (h : Handler) : set_delete id [(id, h)] = [].
Proof.
  unfold set_delete. cbn. by rewrite decide_False by (intros Hn; by apply Hn).
Qed.

Lemma reply_runs_both tag (h1 h2 : Handler) (w : nat) (r : Out.t) (c : t) :
  Out.type r = tag -> messageHandlers c !! tag = Some [(w, h1); (S w, h2)] ->
  env (handleMessage r c) = h2 r (h1 r (env c)) ∧
  fired (handleMessage r c) = fired c ++ [w; S w] ∧
  messageHandlers (handleMessage r c) !! tag = Some [].
Proof.
  intros Ht Hl. unfold handleMessage. rewrite Ht, Hl. cbn [forEach].
  rewrite Hl. cbn [default from_option id]. rewrite set_has_here.
  assert (messageHandlers (wrappedHandler tag w h1 r c) !! tag = Some [(S w, h2)]) as Hl1.
  { unfold wrappedHandler. cbn [messageHandlers]. rewrite lookup_alter_eq, Hl.
    cbn [fmap option_fmap option_map]. by rewrite set_delete_here by lia. }
  rewrite Hl1. cbn [default from_option id]. rewrite set_has_here.
  split; [reflexivity|]. split.
  - unfold wrappedHandler. cbn [fired]. by rewrite <- app_assoc.
  - unfold wrappedHandler at 1. cbn [messageHandlers].
    rewrite lookup_alter_eq, Hl1. cbn [fmap option_fmap option_map].
    by rewrite set_delete_last.
Qed.

Lemma unexpected_reply_is_dropped (r : Out.t) (c : t) :
  default [] (messageHandlers c !! Out.type r) = [] -> handleMessage r c = c.
Proof.
  intros Hnone. unfold handleMessage.
  destruct (messageHandlers c !! Out.type r) as [set|]; [|reflexivity].
  cbn in Hnone. by subst.
Qed.
End ByKind.

Lemma settle_other (p p' : nat) (s : AdlMidi.PromiseState) (ps : gmap nat AdlMidi.PromiseState) :
  p ≠ p' -> AdlMidi.settle p s ps !! p' = ps !! p'.
Proof.
  intros Hne. unfold AdlMidi.settle.
  destruct (ps !! p) as [[]|]; try reflexivity. by rewrite lookup_insert_ne.
Qed.

Lemma settle_first (p : nat) (s : AdlMidi.PromiseState) (ps : gmap nat AdlMidi.PromiseState) :
  ps !! p = Some AdlMidi.Pending -> AdlMidi.settle p s ps !! p = Some s.
Proof. intros E. unfold AdlMidi.settle. rewrite E. by rewrite lookup_insert_eq. Qed.

Lemma same_kind_requests tag (h1 h2 : nat -> AdlMidi.Handler) (m1 m2 : Msg.t)
    (c : AdlMidi.t) (reply : Out.t) :
  default [] (AdlMidi.messageHandlers c !! tag) = [] -> Out.type reply = tag ->
  let r1 := AdlMidi.request tag h1 m1 c in
  let r2 := AdlMidi.request tag h2 m2 r1.2 in
  let c3 := AdlMidi.handleMessage reply r2.2 in
  r1.1 ≠ r2.1 ∧
  AdlMidi.promises (AdlMidi.env r2.2) !! r1.1 = Some AdlMidi.Pending ∧
  AdlMidi.promises (AdlMidi.env r2.2) !! r2.1 = Some AdlMidi.Pending ∧
  AdlMidi.env c3 = h2 r2.1 reply (h1 r1.1 reply (AdlMidi.env r2.2)) ∧
  ∀ later, Out.type later = tag -> AdlMidi.handleMessage later c3 = c3.
Proof.
  intros Hnone Htype r1 r2 c3.
  destruct (two_requests_registered tag h1 h2 m1 m2 c Hnone)
    as (Hp1 & Hp2 & Hreg & Hpend1 & Hpend2).
  fold r1 in Hp1, Hp2, Hreg, Hpend1, Hpend2. fold r2 in Hp2, Hreg, Hpend1, Hpend2.
  destruct (reply_runs_both tag _ _ _ reply r2.2 Htype Hreg) as (Henv & _ & Hgone).
  fold c3 in Henv, Hgone.
  split; [rewrite Hp1, Hp2; lia|].
  split; [exact Hpend1|]. split; [exact Hpend2|]. split; [exact Henv|].
  intros later Hlater. apply unexpected_reply_is_dropped. by rewrite Hlater, Hgone.
Qed.

(** X17.  Replies are matched to requests by message type only: with
    two [getInstrument] requests in flight, the first
    ['instrumentLoaded'] reply settles both promises with the same
    outcome, and any later reply of that type finds no handler and
    changes nothing. *)
Theorem replies_correlate_by_kind (c : AdlMidi.t) (b1 b2 : BankId) (n1 n2 : Z)
    (reply : Out.t) :
  default [] (AdlMidi.messageHandlers c !! "instrumentLoaded") = [] ->
  Out.type reply = "instrumentLoaded" ->
  let r1 := AdlMidi.getInstrument b1 n1 c in
  let r2 := AdlMidi.getInstrument b2 n2 r1.2 in
  let c3 := AdlMidi.handleMessage reply r2.2 in
  let outcome :=
    if Out.success_of reply
    then AdlMidi.Fulfilled (AdlMidi.VInstrument (Out.instrument_of reply))
    else AdlMidi.Rejected
           (AdlMidi.or_string (Out.error_of reply) "Failed to get instrument") in
  r1.1 ≠ r2.1 ∧
  AdlMidi.promises (AdlMidi.env c3) !! r1.1 = Some outcome ∧
  AdlMidi.promises (AdlMidi.env c3) !! r2.1 = Some outcome ∧
  ∀ later, Out.type later = "instrumentLoaded" -> AdlMidi.handleMessage later c3 = c3.
Proof.
  intros Hnone Htype. unfold AdlMidi.getInstrument.
  match goal with
  | |- context [AdlMidi.request ?tag ?h (Msg.getInstrument b1 n1) c] =>
      destruct (same_kind_requests tag h h (Msg.getInstrument b1 n1)
                  (Msg.getInstrument b2 n2) c reply Hnone Htype)
        as (Hne & Hpend1 & Hpend2 & Henv & Hlater)
  end.
  cbn zeta. split; [exact Hne|]. rewrite Henv. cbv beta.
  destruct (Out.success_of reply);
    unfold AdlMidi.resolve, AdlMidi.reject; cbn [AdlMidi.promises AdlMidi.with_promises].
  all: split; [rewrite settle_other by (intros E; by apply Hne); by apply settle_first|].
  all: split; [apply settle_first; rewrite settle_other by exact Hne; exact Hpend2|].
  all: exact Hlater.
Qed.

Lemma replies_correlate_witness :
  let c := AdlMidi.on_env (AdlMidi.with_node true) AdlMidi.new in
  let reply := Out.instrumentLoaded true (Some sample_instrument) None in
  let r1 := AdlMidi.getInstrument (mkBankId (Some 0) (Some 0) (Some 0)) 1 c in
  let r2 := AdlMidi.getInstrument (mkBankId (Some 0) (Some 0) (Some 0)) 2 r1.2 in
  default [] (AdlMidi.messageHandlers c !! "instrumentLoaded") = [] ∧
  AdlMidi.promises (AdlMidi.env (AdlMidi.handleMessage reply r2.2)) !! 0%nat
    = Some (AdlMidi.Fulfilled (AdlMidi.VInstrument (Some sample_instrument))) ∧
  AdlMidi.promises (AdlMidi.env (AdlMidi.handleMessage reply r2.2)) !! 1%nat
    = Some (AdlMidi.Fulfilled (AdlMidi.VInstrument (Some sample_instrument))).
Proof.
  intros c reply r1 r2.
  destruct (replies_correlate_by_kind c (mkBankId (Some 0) (Some 0) (Some 0))
              (mkBankId (Some 0) (Some 0) (Some 0)) 1 2 reply eq_refl eq_refl)
    as (_ & H1 & H2 & _).
  split; [reflexivity|]. split; [exact H1 | exact H2].
Defined.
